(** * SpaceABoard: terrain field and player locomotion

    A shallow embedding of [src/utils/terrain.ts] (noise kernel, height
    field, normal estimator) and of the physics block of the [Player]
    component's [useFrame] callback.

    JavaScript numbers are modelled as real numbers: the development is
    about the arithmetic the code performs, not about IEEE-754 rounding,
    overflow or NaN.  Branches on comparisons are written with the
    decision procedures of the reals, in the order of the source.

    Two embeddings go beyond that.  The terrain module is embedded a
    second time as programs run from a world (random source and mutable
    cells), to state that its functions touch nothing; and the tail of
    [getTerrainNormal] is embedded a second time on numbers that
    overflow to the infinities, where the reals hide what the code
    returns. *)

From Stdlib Require Import Reals Lra Lia List Bool ZArith.
From Stdlib Require String Ascii.
Import String.StringSyntax.
Delimit Scope string_scope with string.
Import ListNotations.
Open Scope R_scope.

(** ** JavaScript [Math] on the reals *)

Definition Math_floor (x : R) : R := IZR (Int_part x).
Definition Math_abs (x : R) : R := Rabs x.
Definition Math_min (a b : R) : R := Rmin a b.
Definition Math_max (a b : R) : R := Rmax a b.
Definition Math_sin (x : R) : R := sin x.
Definition Math_cos (x : R) : R := cos x.
Definition Math_sqrt (x : R) : R := sqrt x.

(** [Math.pow(b, e)] for the bases the source passes, which are all
    non-negative, with a positive exponent: [pow(0, e) = 0] and
    [pow(b, e) = exp (e * ln b)] for [b > 0]. *)
Definition Math_pow (b e : R) : R :=
  if Rlt_dec 0 b then Rpower b e else 0.

(** Comparisons used where the source stores or combines a test as a
    boolean. *)
Definition Rlt_b (a b : R) : bool := if Rlt_dec a b then true else false.

(** ** types.ts *)

Inductive PlanetType : Type :=
| MARS | MOON | SATURN | SATURN_RINGS | NEPTUNE | URANUS | SPACECRAFT.

Inductive TerrainProfile : Type :=
| shield | ridge | cloud | pipe.

Inductive WeatherType : Type :=
| none | dust_storm | diamond_rain | snow | debris.

Inductive GameState : Type :=
| MENU | PLAYING | PAUSED | FINISHED | CRASHED.

(** The numeric and tag fields of [PlanetConfig]; the colour and
    description strings and the optional cosmetic flags are read by the
    renderer only. *)
Record PlanetConfig : Type := mkPlanet {
  name : PlanetType;
  gravity : R;
  atmosphereDensity : R;
  mountainHeight : R;
  terrainRoughness : R;
  terrainProfile : TerrainProfile;
  weather : WeatherType
}.

Definition PlanetType_eqb (a b : PlanetType) : bool :=
  match a, b with
  | MARS, MARS | MOON, MOON | SATURN, SATURN
  | SATURN_RINGS, SATURN_RINGS | NEPTUNE, NEPTUNE
  | URANUS, URANUS | SPACECRAFT, SPACECRAFT => true
  | _, _ => false
  end.

Record Vec3 : Type := mkVec3 { vec_x : R; vec_y : R; vec_z : R }.

(** ** utils/terrain.ts: the noise kernel *)

Definition fract (x : R) : R := x - Math_floor x.

Definition hash (x z : R) : R :=
  fract (Math_sin (x * 12.9898 + z * 78.233) * 43758.5453).

Definition noise (x z : R) : R :=
  let iX := Math_floor x in
  let iZ := Math_floor z in
  let fX := fract x in
  let fZ := fract z in
  let uX := fX * fX * (3.0 - 2.0 * fX) in
  let uZ := fZ * fZ * (3.0 - 2.0 * fZ) in
  let a := hash iX iZ in
  let b := hash (iX + 1.0) iZ in
  let c := hash iX (iZ + 1.0) in
  let d := hash (iX + 1.0) (iZ + 1.0) in
  (a * (1.0 - uX) + b * uX) * (1.0 - uZ) +
  (c * (1.0 - uX) + d * uX) * uZ.

(** The [for] loop of [fbm]: [n] iterations still to run, with the three
    loop variables as accumulators. *)
Fixpoint fbm_loop (n : nat) (x z persistence lacunarity : R)
  (total amplitude frequency : R) : R :=
  match n with
  | O => total
  | S n' =>
      fbm_loop n' x z persistence lacunarity
        (total + noise (x * frequency) (z * frequency) * amplitude)
        (amplitude * persistence)
        (frequency * lacunarity)
  end.

Definition fbm (x z : R) (octaves : nat) (persistence lacunarity : R) : R :=
  fbm_loop octaves x z persistence lacunarity 0 1 1.

(** ** utils/terrain.ts: the height field

    [WORLD_LENGTH] is imported from [constants.ts], which is not part of
    the sources at hand: it is a parameter of the development. *)

Section Terrain.

Variable WORLD_LENGTH : R.

Definition zProgress (z : R) : R := (z + WORLD_LENGTH / 2) / WORLD_LENGTH.

Definition slopeHeight (z : R) (planet : PlanetConfig) : R :=
  (1 - zProgress z) * mountainHeight planet.

(** The Olympus Mons block: the value of [terrain] at the [return]. *)
Definition marsTerrain (x z : R) : R :=
  let absX := Math_abs x in
  let channelWidth := 140 in
  let terrain := Math_pow (absX / channelWidth) 2 * 5 in
  let terrain :=
    if Rgt_dec absX channelWidth then
      let dist := absX - channelWidth in
      let rampWidth := 200 in
      let rampProgress := Math_min (dist / rampWidth) 1.0 in
      let smoothRamp := rampProgress * rampProgress * (3 - 2 * rampProgress) in
      let leveeHeight := 80 in
      let terrain := terrain + smoothRamp * leveeHeight in
      let lobes := noise (x * 0.003) (z * 0.003) in
      let terrain := terrain + lobes * 50 * rampProgress in
      if Rgt_dec dist rampWidth then
        let dropDist := dist - rampWidth in
        terrain - Math_pow dropDist 1.5 * 0.005
      else terrain
    else terrain in
  let surfaceNoise := fbm (x * 0.02) (z * 0.02) 3 0.5 2.0 in
  terrain + (surfaceNoise - 0.5) * 10.

(** [profileHeight] after the [if / else if] chain on
    [planet.terrainProfile]. *)
Definition profileHeight (x : R) (planet : PlanetConfig) : R :=
  let absX := Math_abs x in
  match terrainProfile planet with
  | ridge =>
      let profileHeight := - Math_pow (absX / 10) 1.5 * 2 in
      Math_max profileHeight (-3000)
  | cloud =>
      Math_cos (x * 0.005) * 50 - Math_pow absX 2 / 6000
  | pipe =>
      let profileHeight := - Math_pow (absX / 40) 2 * 5 in
      Math_max profileHeight (-2000)
  | shield =>
      - Math_pow absX 2 / 4500
  end.

Definition noiseAmplitude (planet : PlanetConfig) : R :=
  match terrainProfile planet with
  | pipe => 50
  | _ => 500 * terrainRoughness planet
  end.

(** [finalNoise] after the centre flattening and the side cliffs. *)
Definition finalNoise (x z : R) (planet : PlanetConfig) : R :=
  let absX := Math_abs x in
  let largeScale := 0.0005 in
  let terrainNoise := fbm (x * largeScale) (z * largeScale) 4 0.5 2.0 in
  let finalNoise := (terrainNoise - 0.5) * noiseAmplitude planet in
  let finalNoise :=
    if Rlt_dec absX 150 then finalNoise * 0.15 else finalNoise in
  if Rge_dec absX 150 then
    let cliffNoise := noise (x * 0.001) (z * 0.001) in
    let ramp := Math_min ((absX - 150) / 1000) 1 in
    let cliffIntensity := Math_pow ramp 2 in
    let finalNoise :=
      finalNoise + cliffNoise * 600 * cliffIntensity * terrainRoughness planet in
    let detailNoise := noise (x * 0.01) (z * 0.01) in
    finalNoise + detailNoise * 100 * cliffIntensity
  else finalNoise.

Definition microNoise (x z : R) (planet : PlanetConfig) : R :=
  let microScale := 0.8 in
  let microNoise := noise (x * microScale) (z * microScale) in
  if PlanetType_eqb (name planet) MOON then Math_pow microNoise 2
  else microNoise.

Definition getTerrainHeight (x z : R) (planet : PlanetConfig) : R :=
  let slopeHeight := slopeHeight z planet in
  if PlanetType_eqb (name planet) MARS then
    slopeHeight + marsTerrain x z - 200
  else
    let microAmplitude := 1.0 in
    slopeHeight + profileHeight x planet + finalNoise x z planet
      + (microNoise x z planet * microAmplitude) - 200.

(** ** utils/terrain.ts: the normal estimator *)

Definition normalOffset : R := 2.0.

(** The object [norm] before normalisation. *)
Definition rawNormal (x z : R) (planet : PlanetConfig) : Vec3 :=
  let offset := normalOffset in
  let hL := getTerrainHeight (x - offset) z planet in
  let hR := getTerrainHeight (x + offset) z planet in
  let hD := getTerrainHeight x (z - offset) planet in
  let hU := getTerrainHeight x (z + offset) planet in
  mkVec3 (hL - hR) (2.0 * offset) (hD - hU).

Definition vecLength (v : Vec3) : R :=
  Math_sqrt (vec_x v * vec_x v + vec_y v * vec_y v + vec_z v * vec_z v).

Definition getTerrainNormal (x z : R) (planet : PlanetConfig) : Vec3 :=
  let norm := rawNormal x z planet in
  let len := vecLength norm in
  mkVec3 (vec_x norm / len) (vec_y norm / len) (vec_z norm / len).

End Terrain.

(** ** utils/terrain.ts as a program with effects

    The same module once more, this time in a language of programs that
    can do what JavaScript functions can do to the rest of the program:
    draw from [Math.random], read and write mutable variables and refs.
    A program is run from a [World] and returns a value and the world it
    leaves.  Every call to a function of the module is a step of the
    program; [Math.floor], [Math.sin] and the other functions of [Math]
    used by the module return a value and touch nothing. *)

Record World : Type := mkWorld {
  randomValues : nat -> R;  (* what [Math.random] returns, call after call *)
  randomCalls : nat;        (* how many values were drawn *)
  cells : nat -> R          (* the mutable variables and refs, by address *)
}.

Definition JS (A : Type) : Type := World -> A * World.

Definition ret {A : Type} (a : A) : JS A := fun w => (a, w).

Definition bind {A B : Type} (m : JS A) (f : A -> JS B) : JS B :=
  fun w => let '(a, w') := m w in f a w'.

Notation "'let*' x ':=' m 'in' k" := (bind m (fun x => k))
  (at level 10, x name, m at level 100, k at level 200).

Definition Math_random : JS R :=
  fun w => (randomValues w (randomCalls w),
            mkWorld (randomValues w) (S (randomCalls w)) (cells w)).

Definition readCell (address : nat) : JS R :=
  fun w => (cells w address, w).

Definition writeCell (address : nat) (value : R) : JS unit :=
  fun w => (tt,
            mkWorld (randomValues w) (randomCalls w)
                    (fun a => if Nat.eqb a address then value else cells w a)).

Definition fractJS (x : R) : JS R := ret (x - Math_floor x).

Definition hashJS (x z : R) : JS R :=
  fractJS (Math_sin (x * 12.9898 + z * 78.233) * 43758.5453).

Definition noiseJS (x z : R) : JS R :=
  let iX := Math_floor x in
  let iZ := Math_floor z in
  let* fX := fractJS x in
  let* fZ := fractJS z in
  let uX := fX * fX * (3.0 - 2.0 * fX) in
  let uZ := fZ * fZ * (3.0 - 2.0 * fZ) in
  let* a := hashJS iX iZ in
  let* b := hashJS (iX + 1.0) iZ in
  let* c := hashJS iX (iZ + 1.0) in
  let* d := hashJS (iX + 1.0) (iZ + 1.0) in
  ret ((a * (1.0 - uX) + b * uX) * (1.0 - uZ) +
       (c * (1.0 - uX) + d * uX) * uZ).

Fixpoint fbm_loopJS (n : nat) (x z persistence lacunarity : R)
  (total amplitude frequency : R) : JS R :=
  match n with
  | O => ret total
  | S n' =>
      let* v := noiseJS (x * frequency) (z * frequency) in
      fbm_loopJS n' x z persistence lacunarity
        (total + v * amplitude)
        (amplitude * persistence)
        (frequency * lacunarity)
  end.

Definition fbmJS (x z : R) (octaves : nat) (persistence lacunarity : R)
  : JS R :=
  fbm_loopJS octaves x z persistence lacunarity 0 1 1.

Section TerrainJS.

Variable WORLD_LENGTH : R.

Definition getTerrainHeightJS (x z : R) (planet : PlanetConfig) : JS R :=
  let zProgress := (z + WORLD_LENGTH / 2) / WORLD_LENGTH in
  let slopeHeight := (1 - zProgress) * mountainHeight planet in
  if PlanetType_eqb (name planet) MARS then
    let absX := Math_abs x in
    let channelWidth := 140 in
    let terrain := Math_pow (absX / channelWidth) 2 * 5 in
    let* terrain :=
      if Rgt_dec absX channelWidth then
        let dist := absX - channelWidth in
        let rampWidth := 200 in
        let rampProgress := Math_min (dist / rampWidth) 1.0 in
        let smoothRamp :=
          rampProgress * rampProgress * (3 - 2 * rampProgress) in
        let leveeHeight := 80 in
        let terrain := terrain + smoothRamp * leveeHeight in
        let* lobes := noiseJS (x * 0.003) (z * 0.003) in
        let terrain := terrain + lobes * 50 * rampProgress in
        if Rgt_dec dist rampWidth then
          let dropDist := dist - rampWidth in
          ret (terrain - Math_pow dropDist 1.5 * 0.005)
        else ret terrain
      else ret terrain in
    let* surfaceNoise := fbmJS (x * 0.02) (z * 0.02) 3 0.5 2.0 in
    let terrain := terrain + (surfaceNoise - 0.5) * 10 in
    ret (slopeHeight + terrain - 200)
  else
    let absX := Math_abs x in
    let profileHeight :=
      match terrainProfile planet with
      | ridge => Math_max (- Math_pow (absX / 10) 1.5 * 2) (-3000)
      | cloud => Math_cos (x * 0.005) * 50 - Math_pow absX 2 / 6000
      | pipe => Math_max (- Math_pow (absX / 40) 2 * 5) (-2000)
      | shield => - Math_pow absX 2 / 4500
      end in
    let largeScale := 0.0005 in
    let* terrainNoise := fbmJS (x * largeScale) (z * largeScale) 4 0.5 2.0 in
    let noiseAmplitude :=
      match terrainProfile planet with
      | pipe => 50
      | _ => 500 * terrainRoughness planet
      end in
    let finalNoise := (terrainNoise - 0.5) * noiseAmplitude in
    let finalNoise :=
      if Rlt_dec absX 150 then finalNoise * 0.15 else finalNoise in
    let* finalNoise :=
      if Rge_dec absX 150 then
        let* cliffNoise := noiseJS (x * 0.001) (z * 0.001) in
        let ramp := Math_min ((absX - 150) / 1000) 1 in
        let cliffIntensity := Math_pow ramp 2 in
        let finalNoise :=
          finalNoise
          + cliffNoise * 600 * cliffIntensity * terrainRoughness planet in
        let* detailNoise := noiseJS (x * 0.01) (z * 0.01) in
        ret (finalNoise + detailNoise * 100 * cliffIntensity)
      else ret finalNoise in
    let microScale := 0.8 in
    let* microNoise := noiseJS (x * microScale) (z * microScale) in
    let microNoise :=
      if PlanetType_eqb (name planet) MOON then Math_pow microNoise 2
      else microNoise in
    let microAmplitude := 1.0 in
    ret (slopeHeight + profileHeight + finalNoise
         + (microNoise * microAmplitude) - 200).

Definition getTerrainNormalJS (x z : R) (planet : PlanetConfig) : JS Vec3 :=
  let offset := 2.0 in
  let* hL := getTerrainHeightJS (x - offset) z planet in
  let* hR := getTerrainHeightJS (x + offset) z planet in
  let* hD := getTerrainHeightJS x (z - offset) planet in
  let* hU := getTerrainHeightJS x (z + offset) planet in
  let norm := mkVec3 (hL - hR) (2.0 * offset) (hD - hU) in
  let len :=
    Math_sqrt (vec_x norm * vec_x norm + vec_y norm * vec_y norm
               + vec_z norm * vec_z norm) in
  ret (mkVec3 (vec_x norm / len) (vec_y norm / len) (vec_z norm / len)).

End TerrainJS.

(** What it is for a program to be a function of its arguments alone:
    from every world it returns [a] and leaves the world as it found it. *)
Definition pureJS {A : Type} (m : JS A) (a : A) : Prop :=
  forall w : World, m w = (a, w).


(** ** The normal estimator in doubles that overflow

    The tail of [getTerrainNormal] (the object [norm], its length and the
    division) once more, on numbers that overflow the way doubles do: a
    result whose magnitude exceeds [Number.MAX_VALUE] is an infinity, and
    the infinities and [NaN] combine as IEEE 754 prescribes.  Rounding
    and the sign of zero are not modelled. *)

Inductive JSNumber : Type :=
| Num (r : R)
| Infinity
| NegInfinity
| NaN.

Definition MAX_VALUE : R := 1.7976931348623157e308.

Definition overflow (r : R) : JSNumber :=
  if Rlt_dec MAX_VALUE r then Infinity
  else if Rlt_dec r (- MAX_VALUE) then NegInfinity
       else Num r.

Definition js_add (a b : JSNumber) : JSNumber :=
  match a, b with
  | NaN, _ | _, NaN => NaN
  | Num r, Num s => overflow (r + s)
  | Infinity, NegInfinity | NegInfinity, Infinity => NaN
  | Infinity, _ | _, Infinity => Infinity
  | NegInfinity, _ | _, NegInfinity => NegInfinity
  end.

Definition js_sub (a b : JSNumber) : JSNumber :=
  match a, b with
  | NaN, _ | _, NaN => NaN
  | Num r, Num s => overflow (r - s)
  | Infinity, Infinity | NegInfinity, NegInfinity => NaN
  | Infinity, _ | _, NegInfinity => Infinity
  | NegInfinity, _ | _, Infinity => NegInfinity
  end.

(** The product of an infinity and a number has the sign of the rule of
    signs, and is [NaN] when the number is zero. *)
Definition js_scale (positive : bool) (r : R) : JSNumber :=
  if Rlt_dec 0 r then (if positive then Infinity else NegInfinity)
  else if Rlt_dec r 0 then (if positive then NegInfinity else Infinity)
       else NaN.

Definition js_mul (a b : JSNumber) : JSNumber :=
  match a, b with
  | NaN, _ | _, NaN => NaN
  | Num r, Num s => overflow (r * s)
  | Infinity, Num r | Num r, Infinity => js_scale true r
  | NegInfinity, Num r | Num r, NegInfinity => js_scale false r
  | Infinity, Infinity | NegInfinity, NegInfinity => Infinity
  | Infinity, NegInfinity | NegInfinity, Infinity => NegInfinity
  end.

(** A finite number over an infinity is zero; a number over zero is an
    infinity of its sign ([NaN] for zero over zero), the zero being taken
    as positive. *)
Definition js_div (a b : JSNumber) : JSNumber :=
  match a, b with
  | NaN, _ | _, NaN => NaN
  | Num r, Num s =>
      if Req_dec_T s 0 then js_scale true r else overflow (r / s)
  | Num _, Infinity | Num _, NegInfinity => Num 0
  | Infinity, Num s =>
      if Rlt_dec s 0 then NegInfinity else Infinity
  | NegInfinity, Num s =>
      if Rlt_dec s 0 then Infinity else NegInfinity
  | _, _ => NaN
  end.

Definition js_sqrt (a : JSNumber) : JSNumber :=
  match a with
  | Num r => if Rlt_dec r 0 then NaN else Num (Math_sqrt r)
  | Infinity => Infinity
  | _ => NaN
  end.

Record JSVec3 : Type := mkJSVec3 {
  js_x : JSNumber; js_y : JSNumber; js_z : JSNumber
}.

(** The object [norm] built from the four samples. *)
Definition normOfSamples (hL hR hD hU : JSNumber) : JSVec3 :=
  let offset := Num 2.0 in
  mkJSVec3 (js_sub hL hR) (js_mul (Num 2.0) offset) (js_sub hD hU).

(** [len]. *)
Definition lenOfNorm (norm : JSVec3) : JSNumber :=
  js_sqrt (js_add (js_add (js_mul (js_x norm) (js_x norm))
                          (js_mul (js_y norm) (js_y norm)))
                  (js_mul (js_z norm) (js_z norm))).

(** The returned object. *)
Definition normalOfSamples (hL hR hD hU : JSNumber) : JSVec3 :=
  let norm := normOfSamples hL hR hD hU in
  let len := lenOfNorm norm in
  mkJSVec3 (js_div (js_x norm) len) (js_div (js_y norm) len)
           (js_div (js_z norm) len).

(** [getTerrainNormal] on these numbers.  [height] stands for
    [getTerrainHeight] as the code computes it, in doubles: whatever it
    returns at the four sample points, numbers or not, the rest of the
    function is as follows. *)
Definition getTerrainNormal_double
  (height : R -> R -> PlanetConfig -> JSNumber)
  (x z : R) (planet : PlanetConfig) : JSVec3 :=
  let offset := 2.0 in
  let hL := height (x - offset) z planet in
  let hR := height (x + offset) z planet in
  let hD := height x (z - offset) planet in
  let hU := height x (z + offset) planet in
  normalOfSamples hL hR hD hU.

(** The height field over the reals as such a [height], every sample a
    number: what the code computes, rounding aside, where no
    intermediate result of [getTerrainHeight] overflows. *)
Definition heightOverReals (WL : R) : R -> R -> PlanetConfig -> JSNumber :=
  fun x z planet => Num (getTerrainHeight WL x z planet).

(** ** The Player component: physics refs and the [useFrame] callback *)

Record Keys : Type := mkKeys {
  key_w : bool; key_a : bool; key_s : bool; key_d : bool; key_space : bool
}.

(** The refs written by the physics block.  [rotation] and the body-part
    refs are written after the physics block, from these values, and are
    never read back by it. *)
Record PlayerRefs : Type := mkRefs {
  position : Vec3;
  velocity : Vec3;
  speed : R;
  inputVector_x : R;
  wasGrounded : bool;
  frameCount : nat
}.

(** Calls made on [audioController], in the order they are made. *)
Inductive AudioEvent : Type :=
| triggerLand (impact : R)
| triggerJump
| updatePlayerState (spd : R) (accelerating braking : bool) (turn : R).

Record FrameResult : Type := mkResult {
  res_gameState : GameState;
  res_refs : PlayerRefs;
  res_audio : list AudioEvent
}.

Definition HOVER_TARGET : R := 1.0.
Definition HOVER_STIFFNESS : R := 1800.0.
Definition HOVER_DAMPING : R := 120.0.
Definition MASS : R := 120.
Definition accel : R := 60.
Definition brake : R := 200.
Definition maxSpeed : R := 190.

(** [THREE.MathUtils.lerp]. *)
Definition lerp (x y t : R) : R := (1 - t) * x + t * y.

Section Player.

Variable WORLD_LENGTH : R.
Variable planet : PlanetConfig.

Definition startZ : R := - WORLD_LENGTH / 2 + 200.

Definition initialSpawnHeight : R :=
  getTerrainHeight WORLD_LENGTH 0 startZ planet + 5.

(** The refs as created, and as restored by the reset effect. *)
Definition spawn : PlayerRefs :=
  mkRefs (mkVec3 0 initialSpawnHeight startZ) (mkVec3 0 0 0) 0 0 false 0.

Section PhysicsLoop.

Variable keys : Keys.
Variable dt : R.
Variable st : PlayerRefs.

Let px := vec_x (position st).
Let py := vec_y (position st).
Let pz := vec_z (position st).

Definition terrainHeight : R := getTerrainHeight WORLD_LENGTH px pz planet.
Definition groundNormal : Vec3 := getTerrainNormal WORLD_LENGTH px pz planet.
Definition currentHeight : R := py - terrainHeight.
Definition isGrounded : bool := Rlt_b currentHeight (HOVER_TARGET + 1.0).

Definition landingSound : list AudioEvent :=
  if isGrounded && negb (wasGrounded st) && Rlt_b (vec_y (velocity st)) (-5)
  then [triggerLand (Math_abs (vec_y (velocity st)))] else [].

Definition forceY : R :=
  let forceY := - gravity planet * 600 in
  if Rlt_dec currentHeight (HOVER_TARGET + 3.0) then
    let displacement := HOVER_TARGET - currentHeight in
    let springForce := displacement * HOVER_STIFFNESS in
    let dampingForce := - vec_y (velocity st) * HOVER_DAMPING in
    let forceY := forceY + Math_max 0 (springForce + dampingForce) in
    if negb (key_space keys) && isGrounded
    then forceY - (800 + Math_abs (speed st) * 10)
    else forceY
  else forceY.

(** The guard of the jump. *)
Definition jumpFires : bool :=
  key_space keys && isGrounded && Rlt_b currentHeight (HOVER_TARGET + 0.5).

(** [velocity.current.y] after the jump assignment. *)
Definition velY_jump : R := if jumpFires then 50 else vec_y (velocity st).

(** [velocity.current.y] after the force is integrated. *)
Definition velY_integrated : R := velY_jump + forceY * dt / (MASS / 10).

(** [speed.current] after the clamp to [[-20, maxSpeed]]. *)
Definition speedClamped : R :=
  let s := speed st in
  let s := if key_w keys then s + accel * dt else s in
  let s := if key_s keys then s - brake * dt else s in
  let s := s * 0.99 in
  Math_min (Math_max s (-20)) maxSpeed.

Definition targetTurn : R :=
  (if key_a keys then 1 else 0) + (if key_d keys then -1 else 0).

Definition inputX : R := lerp (inputVector_x st) targetTurn (dt * 6).

(** [velocity.current.x] after steering, decay and the lateral slope
    term. *)
Definition velX_steered : R :=
  let turnRate := 50 + speedClamped * 0.1 in
  let v := vec_x (velocity st) + inputX * turnRate * dt in
  let v := v * 0.88 in
  v + vec_x groundNormal * gravity planet * 200 * dt.

(** [speed.current] after the downhill boost. *)
Definition speedBoosted : R :=
  if Rgt_dec (vec_z groundNormal) 0
  then speedClamped + vec_z groundNormal * gravity planet * 100 * dt
  else speedClamped.

(** [nextPos] after the three [+=]. *)
Definition nextPos : Vec3 :=
  mkVec3 (px + velX_steered * dt)
         (py + velY_integrated * dt)
         (pz + (speedBoosted + 10) * dt).

Definition nextTerrainHeight : R :=
  getTerrainHeight WORLD_LENGTH (vec_x nextPos) (vec_z nextPos) planet.

(** The guard of the ground-penetration clamp. *)
Definition penetrates : bool := Rlt_b (vec_y nextPos) (nextTerrainHeight + 0.5).

(** The guard of the wall response. *)
Definition wallHit : bool := Rlt_b 5.0 (nextTerrainHeight - py).

Definition physicsLoop : PlayerRefs * list AudioEvent :=
  let nextPos_y := if penetrates then nextTerrainHeight + 0.5 else vec_y nextPos in
  let velY := if penetrates then 0 else velY_integrated in
  let speed' := if wallHit then speedBoosted * 0.3 else speedBoosted in
  let velX := if wallHit then velX_steered * -0.5 else velX_steered in
  let nextPos_x := if wallHit then px else vec_x nextPos in
  (mkRefs (mkVec3 nextPos_x nextPos_y (vec_z nextPos))
          (mkVec3 velX velY (vec_z (velocity st)))
          speed'
          inputX
          isGrounded
          (S (frameCount st)),
   landingSound
   ++ (if jumpFires then [triggerJump] else [])
   ++ [updatePlayerState speed' (key_w keys) (key_s keys) inputX]).

End PhysicsLoop.

(** The guard under which a frame reaches the physics loop. *)
Definition reachesPhysics (gameState : GameState) (st : PlayerRefs) : Prop :=
  gameState = PLAYING /\ ~ vec_z (position st) > WORLD_LENGTH / 2 - 300.

(** The [useFrame] callback.  The menu branch animates the scene group
    only and the finish branch silences the audio engine; neither writes
    a physics ref. *)
Definition useFrame (gameState : GameState) (keys : Keys) (delta : R)
  (st : PlayerRefs) : FrameResult :=
  match gameState with
  | MENU => mkResult gameState st []
  | PLAYING =>
      let dt := Math_min delta 0.05 in
      if Rgt_dec (vec_z (position st)) (WORLD_LENGTH / 2 - 300) then
        mkResult FINISHED st [updatePlayerState 0 false false 0]
      else
        let '(st', audio) := physicsLoop keys dt st in
        mkResult gameState st' audio
  | _ => mkResult gameState st []
  end.

(** A frame's inputs, and the frames run one after the other from a
    game state and refs. *)
Record Frame : Type := mkFrame { frame_keys : Keys; frame_delta : R }.

Fixpoint runFrames (gameState : GameState) (st : PlayerRefs)
  (frames : list Frame) : list FrameResult :=
  match frames with
  | [] => []
  | f :: rest =>
      let r := useFrame gameState (frame_keys f) (frame_delta f) st in
      r :: runFrames (res_gameState r) (res_refs r) rest
  end.

End Player.

(** ** Definitions used to state the properties *)

(** The noise kernel in the words of the design notes: a cubic Hermite
    weight [3t^2 - 2t^3] and a bilinear interpolation of four corner
    values.  They are compared with [noise] below. *)
Definition spec_smoothstep (t : R) : R := 3 * t ^ 2 - 2 * t ^ 3.

Definition spec_bilinear (a b c d u v : R) : R :=
  lerp (lerp a b u) (lerp c d u) v.

(** A planet with another mountain height, all other fields kept. *)
Definition withMountainHeight (planet : PlanetConfig) (m : R) : PlanetConfig :=
  mkPlanet (name planet) (gravity planet) (atmosphereDensity planet) m
           (terrainRoughness planet) (terrainProfile planet) (weather planet).

(** The floor constant of a floor-clamped profile. *)
Definition profileFloor (p : TerrainProfile) : option R :=
  match p with
  | ridge => Some (-3000)
  | pipe => Some (-2000)
  | _ => None
  end.

(** Sample configurations on which the properties are exercised. *)
Definition sampleWorldLength : R := 20000.

Definition smoothPipe : PlanetConfig :=
  mkPlanet SPACECRAFT 1 0 1000 0 pipe debris.

Definition iceRidge : PlanetConfig :=
  mkPlanet URANUS 0.9 1 4000 0.6 ridge snow.

Definition smoothRidge : PlanetConfig :=
  mkPlanet MOON 0.16 0 3000 0 ridge none.

(** A smooth shield planet with a mountain so high that the slope over
    the four units between two samples is 2e156. *)
Definition overflowWorld : PlanetConfig :=
  mkPlanet NEPTUNE 1 1 1e160 0 shield none.

Definition noKeys : Keys := mkKeys false false false false false.
Definition jumpHeld : Keys := mkKeys false false false false true.

(** A track that climbs instead of descending. *)
Definition climbingTrack : PlanetConfig :=
  mkPlanet NEPTUNE 1 1 (-600000) 0 shield none.

(** A level track under a strong gravity. *)
Definition flatHeavyWorld : PlanetConfig :=
  mkPlanet SATURN 48 1 0 0 shield none.

(** Whether a frame called [audioController.triggerJump]. *)
Definition firesJump (r : FrameResult) : bool :=
  existsb (fun e => match e with triggerJump => true | _ => false end)
          (res_audio r).

(** A smooth descent of 0.3 per unit of length under a weak gravity. *)
Definition glideWorld : PlanetConfig :=
  mkPlanet NEPTUNE 0.16 1 6000 0 shield none.

Definition throttle : Keys := mkKeys true false false false false.

(** The refs [n] frames into a run at full throttle down the centre of a
    smooth descent: the player has drifted little, sits on or above the
    ground clamp, and has gained at least 1.07 per frame up to the
    clamp. *)
Definition cruising (WL : R) (planet : PlanetConfig) (n : nat)
  (st : PlayerRefs) : Prop :=
  Rabs (vec_x (position st)) <= 0.2 * INR n
  /\ Rabs (vec_x (velocity st)) <= 4
  /\ inputVector_x st = 0
  /\ vec_z (position st) <= startZ WL + 10.5 * INR n
  /\ getTerrainHeight WL (vec_x (position st)) (vec_z (position st)) planet
     + 0.5 <= vec_y (position st)
  /\ Rmin 190 (1.07 * INR n) <= speed st.

(** The refs of a player held by the ground clamp: y is exactly 0.5 above
    the terrain at (x, z). *)
Definition restsOnSurface (WL : R) (planet : PlanetConfig) (st : PlayerRefs)
  : Prop :=
  vec_y (position st)
  = getTerrainHeight WL (vec_x (position st)) (vec_z (position st)) planet + 0.5.

(** ** Definitions used to state further properties *)

(** The sum of the amplitudes of [n] octaves: [1 + p + ... + p^(n-1)]. *)
Fixpoint amplitudeSum (p : R) (n : nat) : R :=
  match n with
  | O => 0
  | S n' => 1 + p * amplitudeSum p n'
  end.

(** A planet with another roughness, all other fields kept. *)
Definition withRoughness (planet : PlanetConfig) (r : R) : PlanetConfig :=
  mkPlanet (name planet) (gravity planet) (atmosphereDensity planet)
           (mountainHeight planet) r (terrainProfile planet) (weather planet).

Definition olympus : PlanetConfig :=
  mkPlanet MARS 0.38 0.2 5000 1 shield dust_storm.

(** The bound kept by the smoothed steering input and the lateral
    velocity. *)
Definition steady (planet : PlanetConfig) (st : PlayerRefs) : Prop :=
  -1 <= inputVector_x st <= 1
  /\ Rabs (vec_x (velocity st)) <= 25.3 + 84 * gravity planet.

(** [MarsRover] of Environment.tsx stands at [z = WORLD_LENGTH / 2 - 150]. *)
Definition roverZ (WL : R) : R := WL / 2 - 150.

(** Refs of a player coming down fast, one unit above the surface at the
    start of the track. *)
Definition descending (WL : R) (planet : PlanetConfig) : PlayerRefs :=
  mkRefs (mkVec3 0 (getTerrainHeight WL 0 (startZ WL) planet + 1) (startZ WL))
         (mkVec3 0 (-10) 0) 0 0 false 0.

(** The reset effect of the Player component, run when [gameState]
    changes: in the menu it restores position, velocity and speed (and
    the orientation, which is no physics ref); the other refs are not
    touched. *)
Definition resetEffect (WL : R) (planet : PlanetConfig) (gameState : GameState)
  (st : PlayerRefs) : PlayerRefs :=
  match gameState with
  | MENU =>
      mkRefs (mkVec3 0 (initialSpawnHeight WL planet) (startZ WL))
             (mkVec3 0 0 0)
             0
             (inputVector_x st)
             (wasGrounded st)
             (frameCount st)
  | _ => st
  end.

(** Refs of a player lying on the surface at the start of the track. *)
Definition sunk (WL : R) (planet : PlanetConfig) : PlayerRefs :=
  mkRefs (mkVec3 0 (getTerrainHeight WL 0 (startZ WL) planet) (startZ WL))
         (mkVec3 0 0 0) 0 0 false 0.

(** ** The key handlers of the Player component

    [e.key] is modelled as an ASCII string, [toLowerCase] lowering the
    letters [A] to [Z]. *)

Definition toLowerAscii (c : Ascii.ascii) : Ascii.ascii :=
  let n := Ascii.nat_of_ascii c in
  if ((65 <=? n) && (n <=? 90))%nat then Ascii.ascii_of_nat (n + 32) else c.

Fixpoint toLowerCase (s : String.string) : String.string :=
  match s with
  | String.EmptyString => String.EmptyString
  | String.String c rest => String.String (toLowerAscii c) (toLowerCase rest)
  end.

(** The chain of tests shared by the two handlers, with the value they
    assign: [true] on key down, [false] on key up. *)
Definition assignKey (value : bool) (k : String.string) (keys : Keys) : Keys :=
  let keys :=
    if String.eqb k "w"%string || String.eqb k "arrowup"%string
    then mkKeys value (key_a keys) (key_s keys) (key_d keys) (key_space keys)
    else keys in
  let keys :=
    if String.eqb k "s"%string || String.eqb k "arrowdown"%string
    then mkKeys (key_w keys) (key_a keys) value (key_d keys) (key_space keys)
    else keys in
  let keys :=
    if String.eqb k "a"%string || String.eqb k "arrowleft"%string
    then mkKeys (key_w keys) value (key_s keys) (key_d keys) (key_space keys)
    else keys in
  let keys :=
    if String.eqb k "d"%string || String.eqb k "arrowright"%string
    then mkKeys (key_w keys) (key_a keys) (key_s keys) value (key_space keys)
    else keys in
  if String.eqb k " "%string
  then mkKeys (key_w keys) (key_a keys) (key_s keys) (key_d keys) value
  else keys.

Definition handleKeyDown (gameState : GameState) (key : String.string)
  (keys : Keys) : Keys :=
  match gameState with
  | PLAYING => assignKey true (toLowerCase key) keys
  | _ => keys
  end.

Definition handleKeyUp (key : String.string) (keys : Keys) : Keys :=
  assignKey false (toLowerCase key) keys.

(** Flag by flag, [k1] holds no key that [k2] does not hold. *)
Definition keysWithin (k1 k2 : Keys) : Prop :=
  (key_w k1 = true -> key_w k2 = true)
  /\ (key_a k1 = true -> key_a k2 = true)
  /\ (key_s k1 = true -> key_s k2 = true)
  /\ (key_d k1 = true -> key_d k2 = true)
  /\ (key_space k1 = true -> key_space k2 = true).

(** ** Telemetry and the height profile of the HUD *)

(** [Math.round]: the nearest integer, halves rounded up. *)
Definition Math_round (x : R) : R := Math_floor (x + 0.5).

(** The [distance] field of the stats object the Player publishes: the
    progress along the track in percent. *)
Definition statsDistance (WL z : R) : R :=
  Math_min (Math_max (Math_round (((z + WL / 2) / WL) * 100)) 0) 100.

(** [profilePoints] of the [HeightProfile] component: the centreline
    height at 101 stations from the start to the end of the track. *)
Definition profilePoints (WL : R) (planet : PlanetConfig) : list R :=
  let steps := 100 in
  let startZ := - WL / 2 in
  let totalZ := WL in
  map (fun i : nat =>
         let z := startZ + totalZ * (INR i / steps) in
         getTerrainHeight WL 0 z planet)
      (seq 0 101).

(** [Math.max(...l)] and [Math.min(...l)]; [None] stands for the infinity
    they return on an empty array. *)
Fixpoint spreadMax (l : list R) : option R :=
  match l with
  | [] => None
  | x :: rest =>
      match spreadMax rest with
      | None => Some x
      | Some m => Some (Math_max x m)
      end
  end.

Fixpoint spreadMin (l : list R) : option R :=
  match l with
  | [] => None
  | x :: rest =>
      match spreadMin rest with
      | None => Some x
      | Some m => Some (Math_min x m)
      end
  end.

Definition HeightProfile_pad : R := 8.

(** [minAlt] and [range] of the drawing effect. *)
Definition HeightProfile_scale (points : list R) : option (R * R) :=
  match spreadMax points, spreadMin points with
  | Some hi, Some lo =>
      let maxAlt := hi + 500 in
      let minAlt := lo - 100 in
      Some (minAlt, maxAlt - minAlt)
  | _, _ => None
  end.

(** The canvas ordinate of an altitude. *)
Definition HeightProfile_y (h minAlt range alt : R) : R :=
  h - HeightProfile_pad
  - ((alt - minAlt) / range) * (h - 2 * HeightProfile_pad).

Definition clampedProgress (WL playerZ : R) : R :=
  let progress := (playerZ + WL / 2) / WL in
  Math_min (Math_max progress 0) 1.

(** The canvas abscissa of the player marker. *)
Definition HeightProfile_playerX (WL w playerZ : R) : R :=
  HeightProfile_pad
  + clampedProgress WL playerZ * (w - 2 * HeightProfile_pad).

(** [index] of the drawing effect, as the integer it is: the floor of
    the product over the reals.  The product of the code is rounded, and
    may fall just below an integer the exact product reaches. *)
Definition HeightProfile_index (WL playerZ : R) : Z :=
  Int_part (clampedProgress WL playerZ * 100).

(** [profilePoints[index] || 0]. *)
Definition HeightProfile_alt (points : list R) (index : Z) : R :=
  match (if (index <? 0)%Z then None
         else nth_error points (Z.to_nat index)) with
  | Some alt => alt
  | None => 0
  end.

(** ** The audio engine (utils/audio)

    The targets the methods hand to the nodes of an initialised engine
    (context and nodes present).  The cut-off of the brake filter is
    drawn at random and is left out. *)
Record PlayerSound : Type := mkSound {
  fmCarrier_frequency : R;
  subOsc_frequency : R;
  fmModGain_gain : R;
  fmModulator_frequency : R;
  thrusterGain_gain : R;
  subGain_gain : R;
  shimmerGain_gain : R;
  shimmerOsc_frequency : R;
  brakeGain_gain : R;
  turnGain_gain : R;
  turnPanner_pan : R;
  turnFilter_frequency : R
}.

Definition playerStateTargets (speed : R) (isAccelerating isBraking : bool)
  (turnInput : R) : PlayerSound :=
  let absSpeed := Math_abs speed in
  let normalizedSpeed := Math_min (absSpeed / 180) 1 in
  let basePitch := 70 + normalizedSpeed * 110 in
  let boostPitch := if isAccelerating then 80 else 0 in
  let engineLoad :=
    if isAccelerating then 300 else 50 + normalizedSpeed * 50 in
  let baseVol := 0.15 + normalizedSpeed * 0.2 in
  let boostVol := if isAccelerating then 0.35 else 0 in
  let shimmerVol :=
    if isAccelerating then 0.25
    else if Rlt_b 0.6 normalizedSpeed then (normalizedSpeed - 0.6) * 0.3
         else 0 in
  let brakePlays := isBraking && Rlt_b 10 absSpeed in
  let turnIntensity := Math_abs turnInput in
  let turnPlays := Rlt_b 0.2 turnIntensity && Rlt_b 30 absSpeed in
  mkSound (basePitch + boostPitch)
          ((basePitch + boostPitch) * 0.5)
          engineLoad
          ((basePitch + boostPitch) * 0.5)
          (baseVol + boostVol)
          ((baseVol + boostVol) * 0.6)
          shimmerVol
          (400 + normalizedSpeed * 800)
          (if brakePlays then 0.4 else 0.0)
          (if turnPlays then turnIntensity * 0.4 else 0)
          (- turnInput * 0.6)
          (300 + turnIntensity * 500).

(** The gain at which the thud of [triggerLand] starts. *)
Definition triggerLandGain (impactVelocity : R) : R :=
  let intensity := Math_min (impactVelocity / 40) 1.0 in
  0.6 * intensity.

(** The gain [updateWeather] sets on the storm loop. *)
Definition stormGainTarget (type : WeatherType) (intensity : R) : R :=
  let isStorm :=
    match type with
    | dust_storm | debris | snow => true
    | _ => false
    end in
  if isStorm then intensity * 0.5 else 0.

(** ** The weather system (UI): intensity and opacity of a frame *)

Definition weatherAlpha (WL : R) (weather : WeatherType) (currentZ : R) : R :=
  match weather with
  | none => 0
  | _ =>
      let startZ := - WL / 2 in
      let progress := (currentZ - startZ) / WL in
      if Rlt_b 0.25 progress && Rlt_b progress 0.75 then
        if Rlt_b progress 0.3 then (progress - 0.25) / 0.05
        else if Rlt_b 0.7 progress then 1 - (progress - 0.7) / 0.05
             else 1.0
      else 0
  end.

Definition weatherOpacity (weather : WeatherType) (alpha : R) : R :=
  let baseOpacity :=
    match weather with dust_storm => 0.4 | _ => 0.6 end in
  alpha * baseOpacity.

(** ** The scatter of the Terrain component (GameCanvas)

    The [x] coordinate of a rock, with the values [Math.random] returned
    as arguments in the order of the calls that matter for [x]. *)
Definition width : R := 6000.
Definition segmentsW : R := 128.
Definition stepX : R := width / segmentsW.

Definition Math_sign (x : R) : R :=
  if Rlt_dec 0 x then 1 else if Rlt_dec x 0 then -1 else x.

Definition cliffRockX (random1 random2 : R) : R :=
  let x := (random1 - 0.5) * 2000 in
  let x :=
    if Rlt_b (Math_abs x) 160
    then Math_sign (if Req_dec_T x 0 then 1 else x) * (160 + random2 * 800)
    else x in
  Math_round (x / stepX) * stepX.

Definition routeRockX (random1 random2 : R) : R :=
  let side := if Rlt_b 0.5 random1 then 1 else -1 in
  let x := side * (40 + random2 * 50) in
  Math_round (x / stepX) * stepX.

(** One turn of the loop that places the cliff rocks, as a program: the
    position and the scale handed to [dummy].  The rotation, drawn after
    the scale, is left out. *)
Definition segmentsL : R := 512.

Definition cliffRockJS (WL : R) (planet : PlanetConfig) : JS (Vec3 * R) :=
  let stepX := width / segmentsW in
  let stepZ := WL / segmentsL in
  let* random1 := Math_random in
  let x := (random1 - 0.5) * 2000 in
  let* random2 := Math_random in
  let z := (random2 - 0.5) * WL in
  let* x :=
    if Rlt_b (Math_abs x) 160 then
      let* random3 := Math_random in
      ret (Math_sign (if Req_dec_T x 0 then 1 else x) * (160 + random3 * 800))
    else ret x in
  let x := Math_round (x / stepX) * stepX in
  let z := Math_round (z / stepZ) * stepZ in
  let* terrainY := getTerrainHeightJS WL x z planet in
  let* random4 := Math_random in
  let s := random4 * 4 + 1.0 in
  let y := terrainY - 0.2 - (s * 0.3) in
  ret (mkVec3 x y z, s).

(** The canvas abscissa of the [i]-th point of the profile. *)
Definition HeightProfile_x (w : R) (i : nat) : R :=
  HeightProfile_pad + (INR i / 100) * (w - 2 * HeightProfile_pad).

(** * Properties *)

(** ** Arithmetic of the [Math] functions *)

Lemma fract_range (x : R) : 0 <= fract x < 1.
Proof.
  unfold fract, Math_floor.
  destruct (base_fp x) as [Hge Hlt]. unfold frac_part in Hge, Hlt. lra.
Qed.

Lemma Math_floor_cell (x : R) : Math_floor x <= x < Math_floor x + 1.
Proof. pose proof (fract_range x) as H. unfold fract in H. lra. Qed.

Lemma Math_pow_nonneg (b e : R) : 0 <= Math_pow b e.
Proof.
  unfold Math_pow. destruct (Rlt_dec 0 b) as [Hb | Hb]; [| lra].
  unfold Rpower. left. apply exp_pos.
Qed.

Lemma Math_pow_2 (b : R) : 0 <= b -> Math_pow b 2 = b * b.
Proof.
  intros Hb. unfold Math_pow. destruct (Rlt_dec 0 b) as [Hpos | Hnpos].
  - replace 2 with (1 + 1) by lra.
    rewrite Rpower_plus, Rpower_1 by assumption. reflexivity.
  - assert (b = 0) by lra. subst b. lra.
Qed.

Lemma Math_pow_3_2 (b : R) : 0 < b -> Math_pow b 1.5 = b * sqrt b.
Proof.
  intros Hb. unfold Math_pow. destruct (Rlt_dec 0 b); [| contradiction].
  replace 1.5 with (1 + / 2) by lra.
  rewrite Rpower_plus, Rpower_1, Rpower_sqrt by assumption. reflexivity.
Qed.

Lemma Rabs_le_between (x b : R) : Rabs x <= b -> - b <= x <= b.
Proof. unfold Rabs. destruct (Rcase_abs x); lra. Qed.

(** Dividing by a length of at least 4 shrinks a bound by 4. *)
Lemma quotient_bound (nx len b : R) :
  4 <= len -> Rabs nx <= b -> Rabs (nx / len) <= b / 4.
Proof.
  intros Hlen Hnx.
  assert (Hinv : 0 < / len <= / 4).
  { split; [apply Rinv_0_lt_compat; lra | apply Rinv_le_contravar; lra]. }
  unfold Rdiv. rewrite Rabs_mult, (Rabs_pos_eq (/ len)) by lra.
  pose proof (Rabs_pos nx) as Hpos.
  assert (Rabs nx * / len <= b * / 4) by (apply Rmult_le_compat; lra).
  lra.
Qed.

Lemma Rlt_b_true (a b : R) : Rlt_b a b = true <-> a < b.
Proof.
  unfold Rlt_b. destruct (Rlt_dec a b); split; intros; try assumption;
    try reflexivity; try discriminate; contradiction.
Qed.

Lemma Rlt_b_false (a b : R) : Rlt_b a b = false <-> ~ a < b.
Proof.
  unfold Rlt_b. destruct (Rlt_dec a b); split; intros; try assumption;
    try reflexivity; try discriminate; contradiction.
Qed.

(** ** The noise kernel *)

Lemma hash_range (x z : R) : 0 <= hash x z < 1.
Proof. unfold hash. apply fract_range. Qed.

(** The cubic Hermite weight stays in the unit interval. *)
Lemma hermite_range (f : R) : 0 <= f < 1 -> 0 <= f * f * (3 - 2 * f) <= 1.
Proof.
  intros [H0 H1]. split.
  - apply Rmult_le_pos; [apply Rmult_le_pos; lra | lra].
  - assert (Hsq : 0 <= (1 - f) * (1 - f) * (1 + 2 * f)).
    { apply Rmult_le_pos; [apply Rmult_le_pos; lra | lra]. }
    lra.
Qed.

(** A convex blend of two values of [[0, 1)] stays in [[0, 1)]. *)
Lemma blend_range (a b u : R) :
  0 <= a < 1 -> 0 <= b < 1 -> 0 <= u <= 1 ->
  0 <= a * (1 - u) + b * u < 1.
Proof.
  intros [Ha0 Ha1] [Hb0 Hb1] [Hu0 Hu1]. split.
  - apply Rplus_le_le_0_compat; apply Rmult_le_pos; lra.
  - destruct (Req_dec u 0) as [-> | Hu]; [lra |].
    assert (a * (1 - u) <= 1 * (1 - u)) by (apply Rmult_le_compat_r; lra).
    assert (b * u < 1 * u) by (apply Rmult_lt_compat_r; lra).
    lra.
Qed.

Lemma noise_range (x z : R) : 0 <= noise x z < 1.
Proof.
  unfold noise.
  pose proof (hermite_range (fract x) (fract_range x)) as HuX.
  pose proof (hermite_range (fract z) (fract_range z)) as HuZ.
  replace 3.0 with 3 by lra. replace 2.0 with 2 by lra.
  replace 1.0 with 1 by lra.
  apply blend_range; [apply blend_range | apply blend_range | ];
    try apply hash_range; assumption.
Qed.

(** Each octave adds a value between [0] and its amplitude. *)
Lemma fbm_loop_lower (n : nat) :
  forall x z p l total amplitude frequency,
    0 <= p -> 0 <= amplitude ->
    total <= fbm_loop n x z p l total amplitude frequency.
Proof.
  induction n as [| n IH]; intros x z p l total amplitude frequency Hp Ha;
    simpl; [lra |].
  pose proof (noise_range (x * frequency) (z * frequency)) as [Hn0 _].
  eapply Rle_trans; [| apply IH; [assumption | apply Rmult_le_pos; lra]].
  assert (0 <= noise (x * frequency) (z * frequency) * amplitude)
    by (apply Rmult_le_pos; lra).
  lra.
Qed.

Lemma fbm_4_range (x z : R) : 0 <= fbm x z 4 0.5 2.0 < 1.875.
Proof.
  split; [apply (fbm_loop_lower 4); lra |].
  unfold fbm. simpl.
  pose proof (noise_range (x * 1) (z * 1)) as H1.
  pose proof (noise_range (x * (1 * 2.0)) (z * (1 * 2.0))) as H2.
  pose proof (noise_range (x * (1 * 2.0 * 2.0)) (z * (1 * 2.0 * 2.0))) as H3.
  pose proof (noise_range (x * (1 * 2.0 * 2.0 * 2.0)) (z * (1 * 2.0 * 2.0 * 2.0)))
    as H4.
  lra.
Qed.

Lemma fbm_3_range (x z : R) : 0 <= fbm x z 3 0.5 2.0 < 1.75.
Proof.
  split; [apply (fbm_loop_lower 3); lra |].
  unfold fbm. simpl.
  pose proof (noise_range (x * 1) (z * 1)) as H1.
  pose proof (noise_range (x * (1 * 2.0)) (z * (1 * 2.0))) as H2.
  pose proof (noise_range (x * (1 * 2.0 * 2.0)) (z * (1 * 2.0 * 2.0))) as H3.
  lra.
Qed.

(** ** Terms of the height field *)

Lemma microNoise_range (x z : R) (planet : PlanetConfig) :
  0 <= microNoise x z planet < 1.
Proof.
  unfold microNoise.
  pose proof (noise_range (x * 0.8) (z * 0.8)) as [Hn0 Hn1].
  destruct (PlanetType_eqb (name planet) MOON); [| lra].
  rewrite Math_pow_2 by assumption.
  split; [apply Rmult_le_pos; lra |].
  destruct (Req_dec (noise (x * 0.8) (z * 0.8)) 0) as [-> | Hne]; [lra |].
  assert (noise (x * 0.8) (z * 0.8) * noise (x * 0.8) (z * 0.8)
          < 1 * noise (x * 0.8) (z * 0.8))
    by (apply Rmult_lt_compat_r; lra).
  lra.
Qed.

Lemma profileHeight_ridge_floor (x : R) (planet : PlanetConfig) :
  terrainProfile planet = ridge -> -3000 <= profileHeight x planet <= 0.
Proof.
  intros Hp. unfold profileHeight, Math_max. rewrite Hp.
  pose proof (Math_pow_nonneg (Math_abs x / 10) 1.5) as Hpow.
  split; [apply Rmax_r |].
  apply Rmax_lub; lra.
Qed.

Lemma profileHeight_pipe_floor (x : R) (planet : PlanetConfig) :
  terrainProfile planet = pipe -> -2000 <= profileHeight x planet <= 0.
Proof.
  intros Hp. unfold profileHeight, Math_max. rewrite Hp.
  pose proof (Math_pow_nonneg (Math_abs x / 40) 2) as Hpow.
  split; [apply Rmax_r |].
  apply Rmax_lub; lra.
Qed.

(** The squared cliff ramp lies in the unit interval. *)
Lemma cliffIntensity_range (absX : R) :
  150 <= absX -> 0 <= Math_pow (Math_min ((absX - 150) / 1000) 1) 2 <= 1.
Proof.
  intros Hx. split; [apply Math_pow_nonneg |].
  assert (Hr : 0 <= Math_min ((absX - 150) / 1000) 1 <= 1).
  { unfold Math_min. split; [apply Rmin_glb; lra | apply Rmin_r]. }
  rewrite Math_pow_2 by lra.
  destruct Hr as [Hr0 Hr1].
  assert (Math_min ((absX - 150) / 1000) 1 * Math_min ((absX - 150) / 1000) 1
          <= 1 * 1) by (apply Rmult_le_compat; lra).
  lra.
Qed.

(** The texture term is bounded by the amplitude of its layers. *)
Lemma finalNoise_bounds (x z : R) (planet : PlanetConfig) :
  0 <= terrainRoughness planet -> 0 <= noiseAmplitude planet ->
  - (0.5 * noiseAmplitude planet) <= finalNoise x z planet
    <= 1.375 * noiseAmplitude planet + 600 * terrainRoughness planet + 100.
Proof.
  intros Hr HA. unfold finalNoise.
  pose proof (fbm_4_range (x * 0.0005) (z * 0.0005)) as [Ht0 Ht1].
  set (t := fbm (x * 0.0005) (z * 0.0005) 4 0.5 2.0) in *.
  set (A := noiseAmplitude planet) in *.
  set (r := terrainRoughness planet) in *.
  assert (Hlo : - (0.5 * A) <= (t - 0.5) * A).
  { assert (0 <= t * A) by (apply Rmult_le_pos; lra). lra. }
  assert (Hhi : (t - 0.5) * A <= 1.375 * A).
  { assert ((t - 0.5) * A <= 1.375 * A)
      by (apply Rmult_le_compat_r; lra). lra. }
  destruct (Rlt_dec (Math_abs x) 150) as [Hin | Hout];
    destruct (Rge_dec (Math_abs x) 150) as [Hge | Hlt]; try lra.
  pose proof (cliffIntensity_range (Math_abs x) (Rge_le _ _ Hge)) as [Hc0 Hc1].
  set (ci := Math_pow (Math_min ((Math_abs x - 150) / 1000) 1) 2) in *.
  pose proof (noise_range (x * 0.001) (z * 0.001)) as [Hk0 Hk1].
  pose proof (noise_range (x * 0.01) (z * 0.01)) as [Hd0 Hd1].
  set (k := noise (x * 0.001) (z * 0.001)) in *.
  set (d := noise (x * 0.01) (z * 0.01)) in *.
  assert (Hkc : 0 <= k * ci <= 1).
  { split; [apply Rmult_le_pos; lra |].
    assert (k * ci <= 1 * 1) by (apply Rmult_le_compat; lra). lra. }
  assert (Hdc : 0 <= d * ci <= 1).
  { split; [apply Rmult_le_pos; lra |].
    assert (d * ci <= 1 * 1) by (apply Rmult_le_compat; lra). lra. }
  assert (Hkcr : 0 <= (k * ci) * r <= 1 * r).
  { split; [apply Rmult_le_pos; lra | apply Rmult_le_compat_r; lra]. }
  replace (k * 600 * ci * r) with (600 * ((k * ci) * r)) by ring.
  replace (d * 100 * ci) with (100 * (d * ci)) by ring.
  lra.
Qed.

(** With zero roughness the texture term vanishes on the path of every
    profile that does not override the amplitude. *)
Lemma finalNoise_smooth_path (x z : R) (planet : PlanetConfig) :
  terrainRoughness planet = 0 -> terrainProfile planet <> pipe ->
  Math_abs x < 150 -> finalNoise x z planet = 0.
Proof.
  intros Hr Hp Hx. unfold finalNoise.
  assert (HA : noiseAmplitude planet = 0).
  { unfold noiseAmplitude. rewrite Hr.
    destruct (terrainProfile planet); try lra. contradiction. }
  rewrite HA.
  destruct (Rlt_dec (Math_abs x) 150); [| contradiction].
  destruct (Rge_dec (Math_abs x) 150); lra.
Qed.

Lemma height_generic (WL x z : R) (planet : PlanetConfig) :
  name planet <> MARS ->
  getTerrainHeight WL x z planet
  = slopeHeight WL z planet + profileHeight x planet + finalNoise x z planet
    + microNoise x z planet - 200.
Proof.
  intros Hn. unfold getTerrainHeight.
  destruct (name planet); try contradiction; simpl; lra.
Qed.

(** ** The normal estimator *)

Lemma rawNormal_y (WL x z : R) (planet : PlanetConfig) :
  vec_y (rawNormal WL x z planet) = 4.
Proof. unfold rawNormal, normalOffset. simpl. lra. Qed.

Lemma vecLength_rawNormal (WL x z : R) (planet : PlanetConfig) :
  4 <= vecLength (rawNormal WL x z planet).
Proof.
  unfold vecLength, Math_sqrt. rewrite rawNormal_y.
  set (nx := vec_x (rawNormal WL x z planet)).
  set (nz := vec_z (rawNormal WL x z planet)).
  rewrite <- (sqrt_square 4) at 1 by lra.
  apply sqrt_le_1_alt.
  pose proof (Rle_0_sqr nx) as Hx. pose proof (Rle_0_sqr nz) as Hz.
  unfold Rsqr in Hx, Hz. lra.
Qed.

(** A component of the normal never exceeds the length it is divided
    by. *)
Lemma component_le_length (a b c : R) :
  0 <= a -> 0 <= b -> Rabs c <= sqrt (a + b + c * c).
Proof.
  intros Ha Hb. rewrite <- sqrt_Rsqr_abs.
  apply sqrt_le_1_alt. unfold Rsqr. lra.
Qed.

Lemma getTerrainNormal_z_le_1 (WL x z : R) (planet : PlanetConfig) :
  vec_z (getTerrainNormal WL x z planet) <= 1.
Proof.
  unfold getTerrainNormal.
  pose proof (vecLength_rawNormal WL x z planet) as Hlen.
  remember (rawNormal WL x z planet) as raw eqn:Hraw.
  assert (Hz : Rabs (vec_z raw) <= vecLength raw).
  { unfold vecLength, Math_sqrt. apply component_le_length; apply Rle_0_sqr. }
  pose proof (Rle_abs (vec_z raw)) as Habs.
  cbn [vec_z].
  apply (Rmult_le_reg_r (vecLength raw)); [lra |].
  unfold Rdiv. rewrite Rmult_assoc, Rinv_l by lra. lra.
Qed.

(** ** Claims on the terrain field *)

(** ** The terrain module touches nothing *)

Lemma pureJS_ret {A : Type} (a : A) : pureJS (ret a) a.
Proof. intros w. reflexivity. Qed.

Lemma pureJS_bind {A B : Type} (m : JS A) (f : A -> JS B) (a : A) (b : B) :
  pureJS m a -> pureJS (f a) b -> pureJS (bind m f) b.
Proof.
  intros Hm Hf w. unfold bind. rewrite Hm. apply Hf.
Qed.

(** Programs that are not functions of their arguments exist in [JS]: a
    draw from [Math.random] leaves another world, what a read returns
    depends on the world, and a write changes it. *)
Lemma Math_random_not_pure : ~ exists r, pureJS Math_random r.
Proof.
  intros [r Hr].
  pose proof (Hr (mkWorld (fun _ => 0) 0 (fun _ => 0))) as H.
  unfold Math_random in H. cbn in H. discriminate H.
Qed.

Lemma readCell_not_pure (address : nat) :
  ~ exists r, pureJS (readCell address) r.
Proof.
  intros [r Hr].
  pose proof (Hr (mkWorld (fun _ => 0) 0 (fun _ => 0))) as H0.
  pose proof (Hr (mkWorld (fun _ => 0) 0 (fun _ => 1))) as H1.
  unfold readCell in H0, H1. cbn [cells] in H0, H1.
  assert (E0 : 0 = r) by congruence.
  assert (E1 : 1 = r) by congruence. lra.
Qed.

Lemma writeCell_not_pure (address : nat) :
  ~ pureJS (writeCell address 1) tt.
Proof.
  intros H.
  pose proof (H (mkWorld (fun _ => 0) 0 (fun _ => 0))) as H0.
  unfold writeCell in H0. cbn [randomValues randomCalls cells] in H0.
  assert (E : (fun a : nat => if Nat.eqb a address then 1 else 0)
              = (fun _ : nat => 0)) by congruence.
  pose proof (f_equal (fun f => f address) E) as E1. cbv beta in E1.
  rewrite Nat.eqb_refl in E1. lra.
Qed.

Lemma fractJS_pure (x : R) : pureJS (fractJS x) (fract x).
Proof. apply pureJS_ret. Qed.

Lemma hashJS_pure (x z : R) : pureJS (hashJS x z) (hash x z).
Proof. unfold hashJS, hash. apply fractJS_pure. Qed.

Lemma noiseJS_pure (x z : R) : pureJS (noiseJS x z) (noise x z).
Proof.
  unfold noiseJS, noise.
  do 2 (eapply pureJS_bind; [apply fractJS_pure | cbv beta]).
  do 4 (eapply pureJS_bind; [apply hashJS_pure | cbv beta]).
  apply pureJS_ret.
Qed.

Lemma fbm_loopJS_pure (n : nat) (x z persistence lacunarity : R) :
  forall total amplitude frequency,
    pureJS (fbm_loopJS n x z persistence lacunarity total amplitude frequency)
           (fbm_loop n x z persistence lacunarity total amplitude frequency).
Proof.
  induction n as [| n IH]; intros total amplitude frequency;
    cbn [fbm_loopJS fbm_loop].
  - apply pureJS_ret.
  - eapply pureJS_bind; [apply noiseJS_pure | apply IH].
Qed.

Lemma fbmJS_pure (x z : R) (octaves : nat) (persistence lacunarity : R) :
  pureJS (fbmJS x z octaves persistence lacunarity)
         (fbm x z octaves persistence lacunarity).
Proof. apply fbm_loopJS_pure. Qed.

Lemma getTerrainHeightJS_pure (WL x z : R) (planet : PlanetConfig) :
  pureJS (getTerrainHeightJS WL x z planet) (getTerrainHeight WL x z planet).
Proof.
  unfold getTerrainHeightJS, getTerrainHeight.
  destruct (PlanetType_eqb (name planet) MARS).
  - unfold marsTerrain, slopeHeight, zProgress. cbv zeta.
    destruct (Rgt_dec (Math_abs x) 140) as [Hout | Hin].
    + destruct (Rgt_dec (Math_abs x - 140) 200) as [Hfar | Hnear].
      * eapply pureJS_bind.
        { eapply pureJS_bind; [apply noiseJS_pure | apply pureJS_ret]. }
        eapply pureJS_bind; [apply fbmJS_pure | apply pureJS_ret].
      * eapply pureJS_bind.
        { eapply pureJS_bind; [apply noiseJS_pure | apply pureJS_ret]. }
        eapply pureJS_bind; [apply fbmJS_pure | apply pureJS_ret].
    + eapply pureJS_bind; [apply pureJS_ret |].
      eapply pureJS_bind; [apply fbmJS_pure | apply pureJS_ret].
  - unfold slopeHeight, zProgress, profileHeight, finalNoise, noiseAmplitude,
      microNoise. cbv zeta.
    eapply pureJS_bind; [apply fbmJS_pure | cbv beta].
    destruct (Rge_dec (Math_abs x) 150) as [Hside | Hpath].
    + eapply pureJS_bind.
      { eapply pureJS_bind; [apply noiseJS_pure | cbv beta].
        eapply pureJS_bind; [apply noiseJS_pure | apply pureJS_ret]. }
      eapply pureJS_bind; [apply noiseJS_pure | apply pureJS_ret].
    + eapply pureJS_bind; [apply pureJS_ret |].
      eapply pureJS_bind; [apply noiseJS_pure | apply pureJS_ret].
Qed.

Lemma getTerrainNormalJS_pure (WL x z : R) (planet : PlanetConfig) :
  pureJS (getTerrainNormalJS WL x z planet) (getTerrainNormal WL x z planet).
Proof.
  unfold getTerrainNormalJS, getTerrainNormal, rawNormal, vecLength,
    normalOffset.
  do 4 (eapply pureJS_bind; [apply getTerrainHeightJS_pure | cbv beta]).
  apply pureJS_ret.
Qed.

(** C1. Determinism.  Run as programs that could draw random numbers and
    read or write the mutable state of the page, [getTerrainHeight] and
    [getTerrainNormal] do none of it: from every world they return the
    value the functions of the reals above give for (x, z, planet) and
    leave the world as it was.  Hence a call returns the same value
    whatever ran before it and in whichever world, twice in a row it
    returns twice the same, and the rock scatter, which draws random
    numbers around its call, seats each rock on the height of the
    coordinates it ends with. *)
Theorem terrain_calls_deterministic :
  forall (WL x z : R) (planet : PlanetConfig),
    pureJS (getTerrainHeightJS WL x z planet) (getTerrainHeight WL x z planet)
    /\ pureJS (getTerrainNormalJS WL x z planet)
              (getTerrainNormal WL x z planet)
    /\ (forall (A : Type) (prior : JS A) (w1 w2 : World),
          fst (bind prior (fun _ => getTerrainHeightJS WL x z planet) w1)
          = fst (getTerrainHeightJS WL x z planet w2)
          /\ snd (bind prior (fun _ => getTerrainHeightJS WL x z planet) w1)
             = snd (prior w1)
          /\ fst (bind prior (fun _ => getTerrainNormalJS WL x z planet) w1)
             = fst (getTerrainNormalJS WL x z planet w2)
          /\ snd (bind prior (fun _ => getTerrainNormalJS WL x z planet) w1)
             = snd (prior w1))
    /\ (forall w : World,
          (let* h1 := getTerrainHeightJS WL x z planet in
           let* n1 := getTerrainNormalJS WL x z planet in
           let* h2 := getTerrainHeightJS WL x z planet in
           let* n2 := getTerrainNormalJS WL x z planet in
           ret (h1, n1, h2, n2)) w
          = (getTerrainHeight WL x z planet, getTerrainNormal WL x z planet,
             getTerrainHeight WL x z planet, getTerrainNormal WL x z planet,
             w))
    /\ (forall w : World,
          let rock := fst (fst (cliffRockJS WL planet w)) in
          let s := snd (fst (cliffRockJS WL planet w)) in
          let w' := snd (cliffRockJS WL planet w) in
          vec_y rock
          = getTerrainHeight WL (vec_x rock) (vec_z rock) planet
            - 0.2 - s * 0.3
          /\ cells w' = cells w
          /\ randomValues w' = randomValues w
          /\ (randomCalls w < randomCalls w')%nat).
Proof.
  intros WL x z planet.
  pose proof (getTerrainHeightJS_pure WL x z planet) as Hh.
  pose proof (getTerrainNormalJS_pure WL x z planet) as Hn.
  split; [exact Hh |]. split; [exact Hn |].
  split; [| split].
  - intros A prior w1 w2. unfold bind.
    destruct (prior w1) as [a w1']. cbn [fst snd].
    rewrite !Hh, !Hn. cbn [fst snd]. repeat split.
  - intros w. unfold bind. rewrite Hh, Hn, Hh, Hn. reflexivity.
  - intros w. unfold cliffRockJS, bind, Math_random.
    cbv zeta. cbn [randomValues randomCalls cells].
    destruct (Rlt_b _ 160);
      cbn [ret randomValues randomCalls cells];
      rewrite getTerrainHeightJS_pure;
      unfold ret;
      cbn [fst snd vec_x vec_y vec_z randomValues randomCalls cells];
      repeat split; first [reflexivity | lia].
Qed.

(** C7. The global slope term is the linear interpolation
    [(1 - (z + WORLD_LENGTH/2)/WORLD_LENGTH) * mountainHeight]: it equals
    [mountainHeight] at the track start, zero at the track end, and is
    added to the height of every planet (the rest of the height does not
    depend on [mountainHeight]). *)
Theorem slope_term_linear_additive :
  forall (WL : R) (planet : PlanetConfig),
    WL <> 0 ->
    (forall z, slopeHeight WL z planet
               = (1 - (z + WL / 2) / WL) * mountainHeight planet)
    /\ (forall z, slopeHeight WL z planet
                  = lerp (mountainHeight planet) 0 (zProgress WL z))
    /\ slopeHeight WL (- WL / 2) planet = mountainHeight planet
    /\ slopeHeight WL (WL / 2) planet = 0
    /\ (forall x z,
          getTerrainHeight WL x z planet
          = slopeHeight WL z planet
            + getTerrainHeight WL x z (withMountainHeight planet 0)).
Proof.
  intros WL planet HWL. repeat split.
  - intros z. unfold slopeHeight, lerp. lra.
  - unfold slopeHeight, zProgress.
    replace ((- WL / 2 + WL / 2) / WL) with 0 by (field; assumption). lra.
  - unfold slopeHeight, zProgress.
    replace ((WL / 2 + WL / 2) / WL) with 1 by (field; assumption). lra.
  - intros x z. unfold getTerrainHeight, withMountainHeight, slopeHeight.
    cbn [name mountainHeight].
    destruct (PlanetType_eqb (name planet) MARS).
    + lra.
    + unfold profileHeight, finalNoise, noiseAmplitude, microNoise.
      cbn [name terrainProfile terrainRoughness]. lra.
Qed.

Lemma slope_term_linear_additive_witness :
  sampleWorldLength <> 0
  /\ slopeHeight sampleWorldLength (- sampleWorldLength / 2) iceRidge = 4000
  /\ slopeHeight sampleWorldLength (sampleWorldLength / 2) iceRidge = 0.
Proof.
  assert (H : sampleWorldLength <> 0) by (unfold sampleWorldLength; lra).
  split; [exact H |].
  destruct (slope_term_linear_additive sampleWorldLength iceRidge H)
    as (_ & _ & Hstart & Hend & _).
  split; [exact Hstart | exact Hend].
Defined.

(** C8. The value noise is the bilinear blend of the four hash values at
    the corners of the unit cell containing [(x, z)], weighted by the
    cubic Hermite smoothstep of the fractional offsets, and lies in
    [[0, 1)]. *)
Theorem noise_bilinear_smoothstep :
  forall x z : R,
    let iX := Math_floor x in
    let iZ := Math_floor z in
    (iX <= x < iX + 1 /\ iZ <= z < iZ + 1)
    /\ spec_smoothstep (fract x) = fract x * fract x * (3 - 2 * fract x)
    /\ noise x z
       = spec_bilinear (hash iX iZ) (hash (iX + 1) iZ)
           (hash iX (iZ + 1)) (hash (iX + 1) (iZ + 1))
           (spec_smoothstep (x - iX)) (spec_smoothstep (z - iZ))
    /\ 0 <= noise x z < 1.
Proof.
  intros x z iX iZ. split; [| split; [| split]].
  - split; apply Math_floor_cell.
  - unfold spec_smoothstep. ring.
  - unfold noise, spec_bilinear, spec_smoothstep, lerp, fract.
    fold iX iZ.
    replace 3.0 with 3 by lra. replace 2.0 with 2 by lra.
    replace 1.0 with 1 by lra. ring.
  - apply noise_range.
Qed.

(** ** The normal estimator where doubles overflow *)

Lemma MAX_VALUE_large : 1e308 < MAX_VALUE.
Proof. unfold MAX_VALUE. lra. Qed.

Lemma overflow_finite (r : R) :
  - MAX_VALUE <= r <= MAX_VALUE -> overflow r = Num r.
Proof.
  intros [H0 H1]. unfold overflow.
  destruct (Rlt_dec MAX_VALUE r); [lra |].
  destruct (Rlt_dec r (- MAX_VALUE)); [lra | reflexivity].
Qed.

Lemma overflow_nonneg (r : R) :
  0 <= r ->
  (r <= MAX_VALUE /\ overflow r = Num r)
  \/ (MAX_VALUE < r /\ overflow r = Infinity).
Proof.
  intros Hr. pose proof MAX_VALUE_large as HM. unfold overflow.
  destruct (Rlt_dec MAX_VALUE r); [right; split; [assumption | reflexivity] |].
  destruct (Rlt_dec r (- MAX_VALUE)); [lra |].
  left. split; [lra | reflexivity].
Qed.

Lemma overflow_cases (r : R) :
  (- MAX_VALUE <= r <= MAX_VALUE /\ overflow r = Num r)
  \/ (MAX_VALUE < r /\ overflow r = Infinity)
  \/ (r < - MAX_VALUE /\ overflow r = NegInfinity).
Proof.
  pose proof MAX_VALUE_large as HM. unfold overflow.
  destruct (Rlt_dec MAX_VALUE r); [right; left; split; [lra | reflexivity] |].
  destruct (Rlt_dec r (- MAX_VALUE));
    [right; right; split; [lra | reflexivity] |].
  left. split; [lra | reflexivity].
Qed.

Lemma js_sqrt_nonneg (r : R) : 0 <= r -> js_sqrt (Num r) = Num (sqrt r).
Proof.
  intros Hr. unfold js_sqrt, Math_sqrt.
  destruct (Rlt_dec r 0); [lra | reflexivity].
Qed.

(** The object [norm] has the y-component 4 whatever the samples. *)
Lemma normOfSamples_y (hL hR hD hU : JSNumber) :
  js_y (normOfSamples hL hR hD hU) = Num 4.
Proof.
  pose proof MAX_VALUE_large as HM.
  unfold normOfSamples. cbn [js_y js_mul].
  rewrite overflow_finite by lra. f_equal. lra.
Qed.

(** The length of [norm] by the two differences: finite, and then at
    least 4, when the sum of the squares stays in range; infinite when a
    difference is infinite or the sum overflows; [NaN] when a difference
    is. *)
Lemma lenOfNorm_finite (a c : R) :
  a * a + 16 + c * c <= MAX_VALUE ->
  lenOfNorm (mkJSVec3 (Num a) (Num 4) (Num c))
  = Num (sqrt (a * a + 16 + c * c)).
Proof.
  intros Hs. pose proof MAX_VALUE_large as HM.
  pose proof (Rle_0_sqr a) as Ha. pose proof (Rle_0_sqr c) as Hc.
  unfold Rsqr in Ha, Hc.
  unfold lenOfNorm. cbn [js_x js_y js_z js_mul].
  rewrite (overflow_finite (a * a)), (overflow_finite (4 * 4)),
    (overflow_finite (c * c)) by lra.
  cbn [js_add]. rewrite (overflow_finite (a * a + 4 * 4)) by lra.
  cbn [js_add]. rewrite (overflow_finite (a * a + 4 * 4 + c * c)) by lra.
  rewrite js_sqrt_nonneg by lra. do 2 f_equal. lra.
Qed.

Lemma lenOfNorm_overflow (a c : R) :
  MAX_VALUE < a * a + 16 + c * c ->
  lenOfNorm (mkJSVec3 (Num a) (Num 4) (Num c)) = Infinity.
Proof.
  intros Hs. pose proof MAX_VALUE_large as HM.
  pose proof (Rle_0_sqr a) as Ha. pose proof (Rle_0_sqr c) as Hc.
  unfold Rsqr in Ha, Hc.
  unfold lenOfNorm. cbn [js_x js_y js_z js_mul].
  rewrite (overflow_finite (4 * 4)) by lra.
  destruct (overflow_nonneg (a * a) Ha) as [[Ha1 ->] | [Ha1 ->]];
    destruct (overflow_nonneg (c * c) Hc) as [[Hc1 ->] | [Hc1 ->]];
    cbn [js_add]; try reflexivity.
  - destruct (overflow_nonneg (a * a + 4 * 4) ltac:(lra)) as [[H1 ->] | [H1 ->]];
      cbn [js_add]; [| reflexivity].
    destruct (overflow_nonneg (a * a + 4 * 4 + c * c) ltac:(lra))
      as [[H2 ->] | [H2 ->]]; [lra | reflexivity].
  - destruct (overflow_nonneg (a * a + 4 * 4) ltac:(lra)) as [[H1 ->] | [H1 ->]];
      reflexivity.
Qed.

Lemma overflow_square (r : R) :
  overflow (r * r) = Infinity \/ exists s, overflow (r * r) = Num s.
Proof.
  destruct (overflow_nonneg (r * r) (Rle_0_sqr r)) as [[_ ->] | [_ ->]];
    [right; eexists; reflexivity | left; reflexivity].
Qed.

Lemma square_plus_16 (r : R) :
  js_add (overflow (r * r)) (Num 16) = Infinity
  \/ exists s, js_add (overflow (r * r)) (Num 16) = Num s.
Proof.
  pose proof (Rle_0_sqr r) as Hr. unfold Rsqr in Hr.
  destruct (overflow_nonneg (r * r) Hr) as [[_ ->] | [_ ->]]; cbn [js_add];
    [| left; reflexivity].
  destruct (overflow_nonneg (r * r + 16) ltac:(lra)) as [[_ ->] | [_ ->]];
    [right; eexists; reflexivity | left; reflexivity].
Qed.

Lemma js_add_Infinity_r (x : JSNumber) :
  x = Infinity \/ (exists s, x = Num s) -> js_add x Infinity = Infinity.
Proof. intros [-> | [s ->]]; reflexivity. Qed.

Lemma js_add_Infinity_l (x : JSNumber) :
  x = Infinity \/ (exists s, x = Num s) -> js_add Infinity x = Infinity.
Proof. intros [-> | [s ->]]; reflexivity. Qed.

Lemma lenOfNorm_infinite (dx dz : JSNumber) :
  dx <> NaN -> dz <> NaN ->
  (forall a, dx <> Num a) \/ (forall c, dz <> Num c) ->
  lenOfNorm (mkJSVec3 dx (Num 4) dz) = Infinity.
Proof.
  pose proof MAX_VALUE_large as HM.
  intros Hx Hz Hinf. unfold lenOfNorm. cbn [js_x js_y js_z].
  assert (H16 : js_mul (Num 4) (Num 4) = Num 16).
  { cbn [js_mul]. rewrite overflow_finite by lra. f_equal. lra. }
  rewrite H16.
  assert (Hleft : forall d, d <> NaN -> (forall a, d <> Num a) ->
                            js_mul d d = Infinity).
  { intros d Hd Hn. destruct d as [a | | |]; try reflexivity.
    - exfalso. apply (Hn a). reflexivity.
    - contradiction. }
  assert (Hsq : forall d, d <> NaN ->
                  js_mul d d = Infinity \/ exists s, js_mul d d = Num s).
  { intros d Hd. destruct d as [a | | |]; try (left; reflexivity).
    - cbn [js_mul]. apply overflow_square.
    - contradiction. }
  assert (Hsq16 : forall d, d <> NaN ->
            js_add (js_mul d d) (Num 16) = Infinity
            \/ exists s, js_add (js_mul d d) (Num 16) = Num s).
  { intros d Hd. destruct d as [a | | |]; try (left; reflexivity).
    - cbn [js_mul]. apply square_plus_16.
    - contradiction. }
  destruct Hinf as [Hdx | Hdz].
  - rewrite (Hleft dx Hx Hdx).
    change (js_add Infinity (Num 16)) with Infinity.
    rewrite js_add_Infinity_l by (apply Hsq; exact Hz). reflexivity.
  - rewrite (Hleft dz Hz Hdz).
    rewrite js_add_Infinity_r by (apply Hsq16; exact Hx). reflexivity.
Qed.

Lemma lenOfNorm_NaN (dx dz : JSNumber) :
  dx = NaN \/ dz = NaN -> lenOfNorm (mkJSVec3 dx (Num 4) dz) = NaN.
Proof.
  intros [-> | ->]; unfold lenOfNorm; cbn [js_x js_y js_z].
  - reflexivity.
  - destruct (js_add (js_mul dx dx) (js_mul (Num 4) (Num 4))); reflexivity.
Qed.

Lemma lenOfNorm_cases (dx dz : JSNumber) :
  let len := lenOfNorm (mkJSVec3 dx (Num 4) dz) in
  (exists a c, dx = Num a /\ dz = Num c
               /\ a * a + 16 + c * c <= MAX_VALUE
               /\ len = Num (sqrt (a * a + 16 + c * c)))
  \/ (len = Infinity /\ dx <> NaN /\ dz <> NaN
      /\ forall a c, dx = Num a -> dz = Num c ->
                     MAX_VALUE < a * a + 16 + c * c)
  \/ (len = NaN /\ (dx = NaN \/ dz = NaN)).
Proof.
  intros len. subst len.
  destruct dx as [a | | |] eqn:Edx;
    try (right; right; split;
         [apply lenOfNorm_NaN; left; reflexivity | left; reflexivity]);
    (destruct dz as [c | | |] eqn:Edz;
     try (right; right; split;
          [apply lenOfNorm_NaN; right; reflexivity | right; reflexivity])).
  1: { destruct (Rle_dec (a * a + 16 + c * c) MAX_VALUE) as [Hfit | Hover].
       - left. exists a, c. repeat split; try assumption.
         apply lenOfNorm_finite. exact Hfit.
       - right; left. split; [apply lenOfNorm_overflow; lra |].
         split; [discriminate |]. split; [discriminate |].
         intros a' c' Ha' Hc'. injection Ha' as <-. injection Hc' as <-.
         lra. }
  all: right; left; split;
    [ apply lenOfNorm_infinite;
      [discriminate | discriminate
       | first [left; intros; discriminate | right; intros; discriminate]]
    | split; [discriminate | split; [discriminate |]];
      intros a' c' Ha' Hc'; discriminate ].
Qed.

Lemma normOfSamples_eq (hL hR hD hU : JSNumber) :
  normOfSamples hL hR hD hU = mkJSVec3 (js_sub hL hR) (Num 4) (js_sub hD hU).
Proof.
  pose proof (normOfSamples_y hL hR hD hU) as Hy.
  unfold normOfSamples in *. cbn [js_y] in Hy. rewrite Hy. reflexivity.
Qed.

Lemma normalOfSamples_components (hL hR hD hU : JSNumber) :
  let len := lenOfNorm (normOfSamples hL hR hD hU) in
  normalOfSamples hL hR hD hU
  = mkJSVec3 (js_div (js_sub hL hR) len) (js_div (Num 4) len)
             (js_div (js_sub hD hU) len).
Proof.
  intros len. subst len. unfold normalOfSamples.
  rewrite normOfSamples_eq. reflexivity.
Qed.

Lemma js_sub_finite (hL hR : JSNumber) (r : R) :
  js_sub hL hR = Num r
  <-> exists a b, hL = Num a /\ hR = Num b /\ r = a - b
                  /\ - MAX_VALUE <= a - b <= MAX_VALUE.
Proof.
  split.
  - destruct hL as [a | | |], hR as [b | | |]; cbn [js_sub];
      try discriminate.
    destruct (overflow_cases (a - b)) as [[Hr ->] | [[_ ->] | [_ ->]]];
      try discriminate.
    intros H. injection H as <-. exists a, b. repeat split; lra.
  - intros (a & b & -> & -> & -> & Hr). cbn [js_sub].
    apply overflow_finite. exact Hr.
Qed.

Lemma square_in_range (r : R) :
  r * r <= MAX_VALUE -> - MAX_VALUE <= r <= MAX_VALUE.
Proof.
  pose proof MAX_VALUE_large as HM. intros Hr.
  destruct (Rle_dec r MAX_VALUE) as [Hle | Hgt];
    destruct (Rle_dec (- MAX_VALUE) r) as [Hge | Hlt]; try lra; nra.
Qed.

Lemma sqrt_sum_ge_4 (a c : R) : 4 <= sqrt (a * a + 16 + c * c).
Proof.
  pose proof (Rle_0_sqr a) as Ha. pose proof (Rle_0_sqr c) as Hc.
  unfold Rsqr in Ha, Hc.
  replace 4 with (sqrt (4 * 4)) at 1 by (apply sqrt_square; lra).
  apply sqrt_le_1; lra.
Qed.

Lemma sqrt_sum_ge_abs (a c : R) :
  Rabs a <= sqrt (a * a + 16 + c * c)
  /\ Rabs c <= sqrt (a * a + 16 + c * c).
Proof.
  pose proof (Rle_0_sqr a) as Ha. pose proof (Rle_0_sqr c) as Hc.
  unfold Rsqr in Ha, Hc.
  split.
  - rewrite <- (sqrt_Rsqr_abs a). apply sqrt_le_1; unfold Rsqr; lra.
  - rewrite <- (sqrt_Rsqr_abs c). apply sqrt_le_1; unfold Rsqr; lra.
Qed.

Lemma js_div_by_length (r l : R) :
  4 <= l -> Rabs r <= l ->
  js_div (Num r) (Num l) = Num (r / l) /\ -1 <= r / l <= 1.
Proof.
  pose proof MAX_VALUE_large as HM. intros Hl Hr.
  assert (Hq : -1 <= r / l <= 1).
  { apply Rabs_le_between in Hr.
    assert (Hinv : 0 < / l) by (apply Rinv_0_lt_compat; lra).
    split.
    - apply (Rmult_le_reg_r l); [lra |].
      unfold Rdiv. rewrite Rmult_assoc, Rinv_l by lra. lra.
    - apply (Rmult_le_reg_r l); [lra |].
      unfold Rdiv. rewrite Rmult_assoc, Rinv_l by lra. lra. }
  split; [| exact Hq].
  cbn [js_div]. destruct (Req_dec_T l 0) as [Hz | _]; [lra |].
  apply overflow_finite. lra.
Qed.

(** With finite samples whose squared differences stay in range the
    result is the vector of the reals divided by its length. *)
Lemma normalOfSamples_finite (a b c d : R) :
  (a - b) * (a - b) + 16 + (c - d) * (c - d) <= MAX_VALUE ->
  let len := sqrt ((a - b) * (a - b) + 16 + (c - d) * (c - d)) in
  lenOfNorm (normOfSamples (Num a) (Num b) (Num c) (Num d)) = Num len
  /\ normalOfSamples (Num a) (Num b) (Num c) (Num d)
     = mkJSVec3 (Num ((a - b) / len)) (Num (4 / len)) (Num ((c - d) / len)).
Proof.
  intros Hs len.
  pose proof (Rle_0_sqr (a - b)) as Ha. pose proof (Rle_0_sqr (c - d)) as Hc.
  unfold Rsqr in Ha, Hc.
  pose proof (sqrt_sum_ge_4 (a - b) (c - d)) as H4. fold len in H4.
  pose proof (sqrt_sum_ge_abs (a - b) (c - d)) as [Hax Hcx].
  fold len in Hax, Hcx.
  assert (Hdx : js_sub (Num a) (Num b) = Num (a - b)).
  { cbn [js_sub]. apply overflow_finite. apply square_in_range. lra. }
  assert (Hdz : js_sub (Num c) (Num d) = Num (c - d)).
  { cbn [js_sub]. apply overflow_finite. apply square_in_range. lra. }
  assert (Hlen : lenOfNorm (normOfSamples (Num a) (Num b) (Num c) (Num d))
                 = Num len).
  { rewrite normOfSamples_eq, Hdx, Hdz. apply lenOfNorm_finite. exact Hs. }
  split; [exact Hlen |].
  unfold normalOfSamples. rewrite Hlen.
  rewrite normOfSamples_eq, Hdx, Hdz. cbn [js_x js_y js_z].
  rewrite (proj1 (js_div_by_length (a - b) len H4 Hax)).
  rewrite (proj1 (js_div_by_length (c - d) len H4 Hcx)).
  rewrite (proj1 (js_div_by_length 4 len H4
                    ltac:(rewrite Rabs_pos_eq; lra))).
  reflexivity.
Qed.

(** With finite samples whose squared differences leave the range the
    length is infinite and the result is flat. *)
Lemma normalOfSamples_overflow (a b c d : R) :
  MAX_VALUE < (a - b) * (a - b) + 16 + (c - d) * (c - d) ->
  lenOfNorm (normOfSamples (Num a) (Num b) (Num c) (Num d)) = Infinity
  /\ js_y (normalOfSamples (Num a) (Num b) (Num c) (Num d)) = Num 0.
Proof.
  intros Hs.
  assert (Hlen : lenOfNorm (normOfSamples (Num a) (Num b) (Num c) (Num d))
                 = Infinity).
  { rewrite normOfSamples_eq.
    destruct (lenOfNorm_cases (js_sub (Num a) (Num b))
                (js_sub (Num c) (Num d)))
      as [(a' & c' & Ha' & Hc' & Hfit & _) | [[Hinf _] | [_ Hnan]]].
    - exfalso.
      apply js_sub_finite in Ha'. apply js_sub_finite in Hc'.
      destruct Ha' as (a0 & b0 & Ea & Eb & -> & _).
      destruct Hc' as (c0 & d0 & Ec & Ed & -> & _).
      injection Ea as <-. injection Eb as <-.
      injection Ec as <-. injection Ed as <-. lra.
    - exact Hinf.
    - exfalso. cbn [js_sub] in Hnan.
      destruct Hnan as [Hnan | Hnan];
        [destruct (overflow_cases (a - b)) as [[_ E] | [[_ E] | [_ E]]]
        | destruct (overflow_cases (c - d)) as [[_ E] | [[_ E] | [_ E]]]];
        rewrite E in Hnan; discriminate. }
  split; [exact Hlen |].
  unfold normalOfSamples. rewrite Hlen. rewrite normOfSamples_eq.
  reflexivity.
Qed.

(** C9 (amended).  Whatever [getTerrainHeight] returns at the four
    sample points, the object [norm] has the y-component 4 and its length
    is never zero: it is a number, at least 4, or [Infinity], or [NaN]
    when a sample is not a number or two infinite samples cancel.  The
    returned y-component is positive, and at most 1, exactly when the
    samples are numbers and the sum of the squares stays within the
    range of doubles; when the sum overflows the length is [Infinity]
    and the returned y-component is 0. *)
Theorem normal_points_up :
  forall (height : R -> R -> PlanetConfig -> JSNumber) (x z : R)
         (planet : PlanetConfig),
    let hL := height (x - 2.0) z planet in
    let hR := height (x + 2.0) z planet in
    let hD := height x (z - 2.0) planet in
    let hU := height x (z + 2.0) planet in
    let norm := normOfSamples hL hR hD hU in
    let len := lenOfNorm norm in
    let normal := getTerrainNormal_double height x z planet in
    js_y norm = Num 4
    /\ len <> Num 0
    /\ ((exists l, len = Num l /\ 4 <= l) \/ len = Infinity \/ len = NaN)
    /\ js_y normal = js_div (js_y norm) len
    /\ (forall l, len = Num l ->
          exists y, js_y normal = Num y /\ 0 < y <= 1)
    /\ (len = Infinity -> js_y normal = Num 0)
    /\ (len = NaN -> js_y normal = NaN)
    /\ ((exists y, js_y normal = Num y /\ 0 < y)
        <-> exists a b c d,
              hL = Num a /\ hR = Num b /\ hD = Num c /\ hU = Num d
              /\ (a - b) * (a - b) + 16 + (c - d) * (c - d) <= MAX_VALUE).
Proof.
  intros height x z planet hL hR hD hU norm len normal.
  pose proof MAX_VALUE_large as HM.
  assert (Hnorm : norm = mkJSVec3 (js_sub hL hR) (Num 4) (js_sub hD hU))
    by apply normOfSamples_eq.
  assert (Hy : js_y normal = js_div (Num 4) len).
  { unfold normal, getTerrainNormal_double. cbv zeta.
    fold hL hR hD hU. rewrite normalOfSamples_components. reflexivity. }
  assert (Hpos : forall l, len = Num l -> 4 <= l ->
                   js_y normal = Num (4 / l) /\ 0 < 4 / l <= 1).
  { intros l Hl H4. rewrite Hy, Hl.
    destruct (js_div_by_length 4 l H4 ltac:(rewrite Rabs_pos_eq; lra))
      as [E [_ Hq]].
    split; [exact E |]. split; [| exact Hq].
    apply Rdiv_lt_0_compat; lra. }
  assert (Hcases :
            (exists a c, js_sub hL hR = Num a /\ js_sub hD hU = Num c
                         /\ a * a + 16 + c * c <= MAX_VALUE
                         /\ len = Num (sqrt (a * a + 16 + c * c)))
            \/ (len = Infinity
                /\ forall a c, js_sub hL hR = Num a -> js_sub hD hU = Num c ->
                               MAX_VALUE < a * a + 16 + c * c)
            \/ len = NaN).
  { unfold len. rewrite Hnorm.
    destruct (lenOfNorm_cases (js_sub hL hR) (js_sub hD hU))
      as [H | [(H & _ & _ & H') | [H _]]];
      [left; exact H | right; left; split; assumption
      | right; right; exact H]. }
  split; [apply normOfSamples_y |].
  split.
  { destruct Hcases as [(a & c & _ & _ & _ & ->) | [[-> _] | ->]];
      try discriminate.
    intros H. injection H as H. pose proof (sqrt_sum_ge_4 a c). lra. }
  split.
  { destruct Hcases as [(a & c & _ & _ & _ & ->) | [[-> _] | ->]];
      [left | right; left | right; right]; try reflexivity.
    eexists. split; [reflexivity | apply sqrt_sum_ge_4]. }
  split.
  { rewrite Hy. unfold norm. rewrite normOfSamples_y. reflexivity. }
  assert (Hfin : forall l, len = Num l -> 4 <= l).
  { intros l Hl.
    destruct Hcases as [(a & c & _ & _ & _ & E) | [[E _] | E]];
      rewrite E in Hl; try discriminate.
    injection Hl as <-. apply sqrt_sum_ge_4. }
  split.
  { intros l Hl. exists (4 / l).
    apply Hpos; [exact Hl | apply Hfin; exact Hl]. }
  split; [intros Hl; rewrite Hy, Hl; reflexivity |].
  split; [intros Hl; rewrite Hy, Hl; reflexivity |].
  split.
  - intros (y & Ey & Hy0).
    destruct Hcases as [(a & c & Ha & Hc & Hfit & _) | [[E _] | E]].
    + apply js_sub_finite in Ha. apply js_sub_finite in Hc.
      destruct Ha as (a0 & b0 & Ea & Eb & -> & _).
      destruct Hc as (c0 & d0 & Ec & Ed & -> & _).
      exists a0, b0, c0, d0. repeat split; assumption.
    + rewrite Hy, E in Ey. cbn [js_div] in Ey. injection Ey as <-. lra.
    + rewrite Hy, E in Ey. discriminate.
  - intros (a & b & c & d & Ea & Eb & Ec & Ed & Hfit).
    destruct (normalOfSamples_finite a b c d Hfit) as [Hlen _].
    rewrite <- Ea, <- Eb, <- Ec, <- Ed in Hlen.
    fold norm in Hlen. fold len in Hlen.
    destruct (Hpos _ Hlen (sqrt_sum_ge_4 _ _)) as [E Hq].
    eexists. split; [exact E | lra].
Qed.

(** C3 (as stated, refuted). Far from the centreline at the track end the
    clamped profile term is exactly the floor, and the baseline offset of
    200 outweighs the noise: on a pipe planet the returned height falls
    below -2000, and on a ridge planet below -3000. *)
Lemma height_below_profile_floor :
  (terrainProfile smoothPipe = pipe
   /\ getTerrainHeight sampleWorldLength 2000 10000 smoothPipe < -2000)
  /\ (terrainProfile smoothRidge = ridge
      /\ getTerrainHeight sampleWorldLength 2000 10000 smoothRidge < -3000).
Proof.
  assert (Hnoise : forall planet,
             terrainRoughness planet = 0 -> 0 <= noiseAmplitude planet <= 50 ->
             finalNoise 2000 10000 planet <= 168.75).
  { intros planet Hr [HA0 HA1].
    pose proof (finalNoise_bounds 2000 10000 planet) as H.
    rewrite Hr in H. specialize (H (Rle_refl 0) HA0). lra. }
  split; (split; [reflexivity |]);
    rewrite height_generic by (simpl; discriminate).
  - assert (Hslope : slopeHeight sampleWorldLength 10000 smoothPipe = 0).
    { unfold slopeHeight, zProgress, sampleWorldLength, smoothPipe. simpl.
      lra. }
    assert (Hprofile : profileHeight 2000 smoothPipe = -2000).
    { unfold profileHeight, smoothPipe, Math_abs, Math_max. simpl.
      rewrite Rabs_pos_eq by lra. rewrite Math_pow_2 by lra.
      apply Rmax_right. lra. }
    assert (Hn : finalNoise 2000 10000 smoothPipe <= 168.75).
    { apply Hnoise; [reflexivity | unfold noiseAmplitude; simpl; lra]. }
    pose proof (microNoise_range 2000 10000 smoothPipe) as Hmicro.
    rewrite Hslope, Hprofile. lra.
  - assert (Hslope : slopeHeight sampleWorldLength 10000 smoothRidge = 0).
    { unfold slopeHeight, zProgress, sampleWorldLength, smoothRidge. simpl.
      lra. }
    assert (Hprofile : profileHeight 2000 smoothRidge = -3000).
    { unfold profileHeight, smoothRidge, Math_abs, Math_max. simpl.
      rewrite Rabs_pos_eq by lra. rewrite Math_pow_3_2 by lra.
      apply Rmax_right.
      assert (Hroot : 14 <= sqrt (2000 / 10)).
      { rewrite <- (sqrt_square 14) at 1 by lra.
        apply sqrt_le_1_alt. lra. }
      lra. }
    assert (Hn : finalNoise 2000 10000 smoothRidge <= 168.75).
    { apply Hnoise; [reflexivity | unfold noiseAmplitude; simpl; lra]. }
    pose proof (microNoise_range 2000 10000 smoothRidge) as Hmicro.
    rewrite Hslope, Hprofile. lra.
Qed.

(** C3 (amended). On a planet other than Mars with a non-negative
    roughness, the profile term of a ridge or pipe profile never falls
    below its floor constant, whatever [|x|]; the returned height adds the
    slope, noise and micro-detail terms and the baseline offset, and is
    at least slope + floor - half the noise amplitude - 200. *)
Theorem profile_floor_clamp :
  forall (WL x z : R) (planet : PlanetConfig) (floor : R),
    name planet <> MARS ->
    0 <= terrainRoughness planet ->
    profileFloor (terrainProfile planet) = Some floor ->
    floor <= profileHeight x planet
    /\ slopeHeight WL z planet + floor - 0.5 * noiseAmplitude planet - 200
       <= getTerrainHeight WL x z planet.
Proof.
  intros WL x z planet floor Hname Hr Hfloor.
  assert (HA : 0 <= noiseAmplitude planet).
  { unfold noiseAmplitude. destruct (terrainProfile planet); lra. }
  pose proof (finalNoise_bounds x z planet Hr HA) as [Hn _].
  pose proof (microNoise_range x z planet) as [Hm _].
  rewrite height_generic by assumption.
  assert (Hp : floor <= profileHeight x planet).
  { destruct (terrainProfile planet) eqn:Hprof; simpl in Hfloor;
      try discriminate; injection Hfloor as <-.
    - apply profileHeight_ridge_floor; assumption.
    - apply profileHeight_pipe_floor; assumption. }
  split; [exact Hp | lra].
Qed.

Lemma profile_floor_clamp_witness :
  -3000 <= profileHeight 5000 iceRidge
  /\ slopeHeight sampleWorldLength 0 iceRidge + -3000
       - 0.5 * noiseAmplitude iceRidge - 200
     <= getTerrainHeight sampleWorldLength 5000 0 iceRidge.
Proof.
  apply (profile_floor_clamp sampleWorldLength 5000 0 iceRidge (-3000)).
  - simpl. discriminate.
  - simpl. lra.
  - reflexivity.
Defined.

(** ** The frame callback *)

Lemma useFrame_physics (WL : R) (planet : PlanetConfig) (gameState : GameState)
  (keys : Keys) (delta : R) (st : PlayerRefs) :
  reachesPhysics WL gameState st ->
  useFrame WL planet gameState keys delta st
  = mkResult PLAYING
      (fst (physicsLoop WL planet keys (Math_min delta 0.05) st))
      (snd (physicsLoop WL planet keys (Math_min delta 0.05) st)).
Proof.
  intros [-> Hz]. unfold useFrame.
  destruct (Rgt_dec (vec_z (position st)) (WL / 2 - 300)); [contradiction |].
  reflexivity.
Qed.

(** A frame that does not reach the physics loop leaves the refs as they
    are. *)
Lemma useFrame_idle (WL : R) (planet : PlanetConfig) (gameState : GameState)
  (keys : Keys) (delta : R) (st : PlayerRefs) :
  ~ reachesPhysics WL gameState st ->
  res_refs (useFrame WL planet gameState keys delta st) = st.
Proof.
  intros Hno. unfold useFrame.
  destruct gameState; try reflexivity.
  destruct (Rgt_dec (vec_z (position st)) (WL / 2 - 300)); [reflexivity |].
  exfalso. apply Hno. split; [reflexivity | assumption].
Qed.

Lemma reachesPhysics_dec (WL : R) (gameState : GameState) (st : PlayerRefs) :
  reachesPhysics WL gameState st \/ ~ reachesPhysics WL gameState st.
Proof.
  unfold reachesPhysics.
  destruct (Rgt_dec (vec_z (position st)) (WL / 2 - 300)) as [Hz | Hz].
  - right. intros [_ H]. contradiction.
  - destruct gameState; try (right; intros [H _]; discriminate).
    left. split; [reflexivity | assumption].
Qed.

Lemma dt_range (delta : R) : 0 <= delta -> 0 <= Math_min delta 0.05 <= 0.05.
Proof.
  intros Hd. unfold Math_min. split; [apply Rmin_glb; lra | apply Rmin_r].
Qed.

Lemma full_frame : Math_min 0.05 0.05 = 0.05.
Proof. unfold Math_min. apply Rmin_left. lra. Qed.

(** ** Forward speed *)

Lemma speedClamped_range (keys : Keys) (dt : R) (st : PlayerRefs) :
  -20 <= speedClamped keys dt st <= maxSpeed.
Proof.
  unfold speedClamped, Math_min, Math_max, maxSpeed.
  set (s := (if key_s keys then _ else _) * 0.99).
  split.
  - apply Rmin_glb; [apply Rmax_r | lra].
  - apply Rmin_r.
Qed.

Lemma speedBoosted_range (WL : R) (planet : PlanetConfig) (keys : Keys)
  (dt : R) (st : PlayerRefs) :
  0 <= gravity planet -> 0 <= dt <= 0.05 ->
  -20 <= speedBoosted WL planet keys dt st
    <= maxSpeed + 100 * gravity planet * 0.05.
Proof.
  intros Hg [Hdt0 Hdt1]. unfold speedBoosted.
  pose proof (speedClamped_range keys dt st) as [Hlo Hhi].
  assert (Hgdt : 0 <= gravity planet * dt <= gravity planet * 0.05).
  { split; [apply Rmult_le_pos; lra | apply Rmult_le_compat_l; lra]. }
  destruct (Rgt_dec (vec_z (groundNormal WL planet st)) 0) as [Hz | Hz];
    [| lra].
  pose proof (getTerrainNormal_z_le_1 WL (vec_x (position st))
                (vec_z (position st)) planet) as Hz1.
  fold (groundNormal WL planet st) in Hz1.
  set (gz := vec_z (groundNormal WL planet st)) in *.
  assert (Hb : 0 <= gz * (gravity planet * dt) <= 1 * (gravity planet * dt)).
  { split; [apply Rmult_le_pos; lra | apply Rmult_le_compat_r; lra]. }
  replace (gz * gravity planet * 100 * dt)
    with (100 * (gz * (gravity planet * dt))) by ring.
  lra.
Qed.

Lemma physicsLoop_speed (WL : R) (planet : PlanetConfig) (keys : Keys)
  (dt : R) (st : PlayerRefs) :
  speed (fst (physicsLoop WL planet keys dt st))
  = if wallHit WL planet keys dt st
    then speedBoosted WL planet keys dt st * 0.3
    else speedBoosted WL planet keys dt st.
Proof. reflexivity. Qed.

Lemma useFrame_speed_range (WL : R) (planet : PlanetConfig)
  (gameState : GameState) (keys : Keys) (delta : R) (st : PlayerRefs) :
  0 <= gravity planet -> 0 <= delta ->
  -20 <= speed st <= maxSpeed + 100 * gravity planet * 0.05 ->
  -20 <= speed (res_refs (useFrame WL planet gameState keys delta st))
    <= maxSpeed + 100 * gravity planet * 0.05.
Proof.
  intros Hg Hd Hst.
  destruct (reachesPhysics_dec WL gameState st) as [Hphys | Hidle].
  - rewrite useFrame_physics by assumption. cbn [res_refs].
    rewrite physicsLoop_speed.
    pose proof (speedBoosted_range WL planet keys (Math_min delta 0.05) st
                  Hg (dt_range delta Hd)) as Hb.
    unfold maxSpeed in *.
    destruct (wallHit WL planet keys (Math_min delta 0.05) st); lra.
  - rewrite useFrame_idle by assumption. exact Hst.
Qed.

Lemma runFrames_speed_range (WL : R) (planet : PlanetConfig)
  (frames : list Frame) :
  0 <= gravity planet ->
  Forall (fun f => 0 <= frame_delta f) frames ->
  forall gameState st,
    -20 <= speed st <= maxSpeed + 100 * gravity planet * 0.05 ->
    Forall (fun r => -20 <= speed (res_refs r)
                     <= maxSpeed + 100 * gravity planet * 0.05)
           (runFrames WL planet gameState st frames).
Proof.
  intros Hg Hframes. induction Hframes as [| f rest Hf _ IH];
    intros gameState st Hst; simpl; constructor.
  - apply useFrame_speed_range; assumption.
  - apply IH. apply useFrame_speed_range; assumption.
Qed.

(** ** Runs on a smooth shield planet

    On a shield planet other than Mars with zero roughness the texture
    term vanishes on the path, so the height near the centreline is the
    slope, the parabola of the profile and the micro detail, which lies in
    [[0, 1)].  This is enough to follow the first frame after spawn, and a
    run at full throttle, without evaluating the hash. *)

Section SmoothShield.

Variable WL : R.
Variable planet : PlanetConfig.
Hypothesis WL_nonzero : WL <> 0.
Hypothesis not_mars : name planet <> MARS.
Hypothesis smooth : terrainRoughness planet = 0.
Hypothesis is_shield : terrainProfile planet = shield.
Hypothesis gravity_range : 0 <= gravity planet <= 1000.

Lemma shield_height (x z : R) :
  Rabs x < 150 ->
  getTerrainHeight WL x z planet
  = slopeHeight WL z planet - x * x / 4500 + microNoise x z planet - 200.
Proof.
  intros Hx. rewrite height_generic by exact not_mars.
  rewrite finalNoise_smooth_path;
    [| exact smooth | rewrite is_shield; discriminate | exact Hx].
  unfold profileHeight, Math_abs. rewrite is_shield.
  rewrite Math_pow_2 by apply Rabs_pos.
  replace (Rabs x * Rabs x) with (x * x).
  - lra.
  - unfold Rabs. destruct (Rcase_abs x); ring.
Qed.

Lemma slopeHeight_diff (z1 z2 : R) :
  slopeHeight WL z1 planet - slopeHeight WL z2 planet
  = (z2 - z1) * (mountainHeight planet / WL).
Proof. unfold slopeHeight, zProgress. field. exact WL_nonzero. Qed.

(** The un-normalised normal near the centreline: the lateral difference
    is the parabola over four units and micro detail, the longitudinal
    one is the slope over four units and micro detail. *)
Lemma rawNormal_path (x z : R) :
  Rabs x <= 100 ->
  (8 * x / 4500 - 1 < vec_x (rawNormal WL x z planet) < 8 * x / 4500 + 1)
  /\ 4 * (mountainHeight planet / WL) - 1
     < vec_z (rawNormal WL x z planet)
     < 4 * (mountainHeight planet / WL) + 1.
Proof.
  intros Hx. apply Rabs_le_between in Hx.
  unfold rawNormal, normalOffset. cbn [vec_x vec_z].
  rewrite !shield_height by (apply Rabs_def1; lra).
  pose proof (slopeHeight_diff (z - 2.0) (z + 2.0)) as Hs.
  pose proof (microNoise_range (x - 2.0) z planet).
  pose proof (microNoise_range (x + 2.0) z planet).
  pose proof (microNoise_range x (z - 2.0) planet).
  pose proof (microNoise_range x (z + 2.0) planet).
  assert (Hsq : (x + 2.0) * (x + 2.0) / 4500 - (x - 2.0) * (x - 2.0) / 4500
                = 8 * x / 4500) by (field_simplify; lra).
  split; lra.
Qed.

Lemma rawNormal_centre (z : R) :
  -1 < vec_x (rawNormal WL 0 z planet) < 1
  /\ 4 * (mountainHeight planet / WL) - 1
     < vec_z (rawNormal WL 0 z planet)
     < 4 * (mountainHeight planet / WL) + 1.
Proof.
  assert (H0 : Rabs 0 <= 100) by (rewrite Rabs_R0; lra).
  destruct (rawNormal_path 0 z H0) as [Hx Hz].
  split; [lra | exact Hz].
Qed.

Lemma groundNormal_spawn_x :
  -1 / 4 < vec_x (groundNormal WL planet (spawn WL planet)) < 1 / 4.
Proof.
  unfold groundNormal, getTerrainNormal, spawn. cbn [position vec_x vec_z].
  pose proof (rawNormal_centre (startZ WL)) as [[Hx0 Hx1] _].
  pose proof (vecLength_rawNormal WL 0 (startZ WL) planet) as Hlen.
  set (len := vecLength (rawNormal WL 0 (startZ WL) planet)) in *.
  set (nx := vec_x (rawNormal WL 0 (startZ WL) planet)) in *.
  assert (Hlen0 : 0 < len) by lra.
  split.
  - apply (Rmult_lt_reg_r len); [exact Hlen0 |].
    unfold Rdiv at 2. rewrite Rmult_assoc, Rinv_l by lra. lra.
  - apply (Rmult_lt_reg_r len); [exact Hlen0 |].
    unfold Rdiv at 1. rewrite Rmult_assoc, Rinv_l by lra. lra.
Qed.

Section IdleKeys.

(** No steering, acceleration or braking; the jump key is free. *)
Variable keys : Keys.
Hypothesis no_w : key_w keys = false.
Hypothesis no_s : key_s keys = false.
Hypothesis no_a : key_a keys = false.
Hypothesis no_d : key_d keys = false.

Lemma spawn_speedClamped (dt : R) :
  speedClamped keys dt (spawn WL planet) = 0.
Proof.
  unfold speedClamped, spawn, Math_min, Math_max, maxSpeed. cbn [speed].
  rewrite no_w, no_s. replace (0 * 0.99) with 0 by lra.
  rewrite Rmax_left by lra. apply Rmin_left. lra.
Qed.

Lemma spawn_inputX (dt : R) : inputX keys dt (spawn WL planet) = 0.
Proof.
  unfold inputX, targetTurn, lerp, spawn. cbn [inputVector_x].
  rewrite no_a, no_d. lra.
Qed.

Lemma spawn_velX (dt : R) :
  velX_steered WL planet keys dt (spawn WL planet)
  = vec_x (groundNormal WL planet (spawn WL planet)) * gravity planet * 200 * dt.
Proof.
  unfold velX_steered. rewrite spawn_inputX, spawn_speedClamped.
  change (vec_x (velocity (spawn WL planet))) with 0. lra.
Qed.

(** The candidate of the first frame drifts sideways by at most an eighth
    of the gravity, and so stays on the path. *)
Lemma spawn_nextPos_x_bound :
  Rabs (vec_x (nextPos WL planet keys 0.05 (spawn WL planet)))
  <= gravity planet / 8.
Proof.
  unfold nextPos. cbn [vec_x]. rewrite spawn_velX.
  unfold spawn at 1. cbn [position vec_x].
  pose proof groundNormal_spawn_x as [Hx0 Hx1].
  set (gx := vec_x (groundNormal WL planet (spawn WL planet))) in *.
  destruct gravity_range as [Hg0 Hg1].
  assert (H1 : - (1 / 4) * gravity planet <= gx * gravity planet
               <= 1 / 4 * gravity planet).
  { split; apply Rmult_le_compat_r; lra. }
  apply Rabs_le. lra.
Qed.

Lemma spawn_nextPos_x :
  Rabs (vec_x (nextPos WL planet keys 0.05 (spawn WL planet))) < 150.
Proof.
  pose proof spawn_nextPos_x_bound. destruct gravity_range. lra.
Qed.

Lemma spawn_nextPos_x_sqr :
  0 <= vec_x (nextPos WL planet keys 0.05 (spawn WL planet))
       * vec_x (nextPos WL planet keys 0.05 (spawn WL planet))
    <= gravity planet / 8 * (gravity planet / 8).
Proof.
  pose proof spawn_nextPos_x_bound as Hb.
  set (x := vec_x (nextPos WL planet keys 0.05 (spawn WL planet))) in *.
  pose proof (Rabs_pos x) as Hpos.
  replace (x * x) with (Rabs x * Rabs x)
    by (unfold Rabs; destruct (Rcase_abs x); ring).
  split; [apply Rmult_le_pos; assumption |].
  apply Rmult_le_compat; assumption.
Qed.

Lemma spawn_nextPos_z :
  vec_z (nextPos WL planet keys 0.05 (spawn WL planet))
  = startZ WL + (speedBoosted WL planet keys 0.05 (spawn WL planet) + 10) * 0.05.
Proof. reflexivity. Qed.

(** Candidate terrain height minus the starting y, on the first frame. *)
Lemma spawn_rise :
  let np := nextPos WL planet keys 0.05 (spawn WL planet) in
  nextTerrainHeight WL planet keys 0.05 (spawn WL planet)
    - vec_y (position (spawn WL planet))
  = (startZ WL - vec_z np) * (mountainHeight planet / WL)
    - vec_x np * vec_x np / 4500
    + microNoise (vec_x np) (vec_z np) planet
    - microNoise 0 (startZ WL) planet - 5.
Proof.
  intros np. unfold nextTerrainHeight. fold np.
  rewrite shield_height by apply spawn_nextPos_x.
  unfold spawn at 1. cbn [position vec_y]. unfold initialSpawnHeight.
  rewrite shield_height by (rewrite Rabs_R0; lra).
  pose proof (slopeHeight_diff (vec_z np) (startZ WL)) as Hs.
  lra.
Qed.

(** On a track that descends by at most two units per unit of length the
    first frame meets no wall. *)
Lemma spawn_rise_descending :
  0 <= mountainHeight planet / WL <= 2 ->
  nextTerrainHeight WL planet keys 0.05 (spawn WL planet)
    - vec_y (position (spawn WL planet)) < -3.
Proof.
  intros [Hk0 Hk1]. rewrite spawn_rise. cbv zeta.
  rewrite spawn_nextPos_z.
  pose proof spawn_nextPos_x_sqr as [Hx0 _].
  assert (Hdt : 0 <= 0.05 <= 0.05) by lra.
  pose proof (speedBoosted_range WL planet keys 0.05 (spawn WL planet)
                (proj1 gravity_range) Hdt) as [Hs _].
  set (sB := speedBoosted WL planet keys 0.05 (spawn WL planet)) in *.
  set (np := nextPos WL planet keys 0.05 (spawn WL planet)) in *.
  pose proof (microNoise_range (vec_x np) (startZ WL + (sB + 10) * 0.05) planet).
  pose proof (microNoise_range 0 (startZ WL) planet).
  set (k := mountainHeight planet / WL) in *.
  assert (Hadv : (startZ WL - (startZ WL + (sB + 10) * 0.05)) * k <= 0.5 * k).
  { apply Rmult_le_compat_r; lra. }
  lra.
Qed.

End IdleKeys.

Section Throttle.

(** Full throttle, no brake and no steering, [n <= 178] frames into the
    run, on a descent of 0.3 under a gravity of 0.16. *)
Variable keys : Keys.
Hypothesis w_down : key_w keys = true.
Hypothesis no_s : key_s keys = false.
Hypothesis no_a : key_a keys = false.
Hypothesis no_d : key_d keys = false.
Hypothesis weak_gravity : gravity planet = 0.16.
Hypothesis descent : mountainHeight planet / WL = 0.3.
Hypothesis long_track : 2400 <= WL.
Variable n : nat.
Variable st : PlayerRefs.
Hypothesis n_small : (n <= 178)%nat.
Hypothesis on_course : cruising WL planet n st.

Lemma cruise_frames : 0 <= INR n <= 178.
Proof.
  split; [apply pos_INR |].
  apply le_INR in n_small. rewrite (INR_IZR_INZ 178) in n_small.
  exact n_small.
Qed.

Lemma cruise_x : Rabs (vec_x (position st)) <= 36.
Proof.
  destruct on_course as (Hx & _). pose proof cruise_frames. lra.
Qed.

Lemma cruise_speed : 0 <= speed st.
Proof.
  destruct on_course as (_ & _ & _ & _ & _ & Hs).
  pose proof cruise_frames as [Hn _].
  assert (0 <= Rmin 190 (1.07 * INR n)) by (apply Rmin_glb; lra).
  lra.
Qed.

Lemma cruise_reachesPhysics : reachesPhysics WL PLAYING st.
Proof.
  split; [reflexivity |].
  destruct on_course as (_ & _ & _ & Hz & _).
  pose proof cruise_frames. unfold startZ in Hz. lra.
Qed.

Lemma cruise_speedClamped :
  Rmin 190 (1.07 * INR (S n)) <= speedClamped keys 0.05 st <= 190
  /\ 0 <= speedClamped keys 0.05 st
  /\ (190 <= speed st -> speedClamped keys 0.05 st = 190).
Proof.
  destruct on_course as (_ & _ & _ & _ & _ & Hs).
  pose proof cruise_speed as Hs0. pose proof cruise_frames as [Hn0 Hn1].
  unfold speedClamped, Math_min, Math_max, maxSpeed, accel.
  rewrite w_down, no_s. rewrite S_INR.
  rewrite (Rmax_left ((speed st + 60 * 0.05) * 0.99)) by lra.
  set (s := speed st) in *.
  assert (Hfloor : Rmin 190 (1.07 * INR n) <= s) by exact Hs.
  split; [split |split].
  - apply Rmin_glb.
    + destruct (Rle_dec s 190) as [Hle | Hgt].
      * assert (Rmin 190 (1.07 * (INR n + 1)) <= s + 1.07).
        { destruct (Rle_dec 190 (1.07 * INR n)) as [Hbig | Hsmall].
          - rewrite Rmin_left in Hfloor by lra.
            pose proof (Rmin_l 190 (1.07 * (INR n + 1))). lra.
          - rewrite Rmin_right in Hfloor by lra.
            pose proof (Rmin_r 190 (1.07 * (INR n + 1))). lra. }
        lra.
      * pose proof (Rmin_l 190 (1.07 * (INR n + 1))). lra.
    + apply Rmin_l.
  - apply Rmin_r.
  - apply Rmin_glb; lra.
  - intros Hfast. apply Rmin_right. lra.
Qed.

Lemma cruise_inputX : inputX keys 0.05 st = 0.
Proof.
  destruct on_course as (_ & _ & Hin & _).
  unfold inputX, targetTurn, lerp. rewrite Hin, no_a, no_d. lra.
Qed.

(** The normal leans forward, and sideways by at most 0.3. *)
Lemma cruise_normal :
  Rabs (vec_x (groundNormal WL planet st)) <= 0.3
  /\ 0 < vec_z (groundNormal WL planet st) <= 1.
Proof.
  pose proof cruise_x as Hx.
  assert (Hx100 : Rabs (vec_x (position st)) <= 100) by lra.
  destruct (rawNormal_path (vec_x (position st)) (vec_z (position st)) Hx100)
    as [Hnx Hnz].
  rewrite descent in Hnz.
  pose proof (vecLength_rawNormal WL (vec_x (position st))
                (vec_z (position st)) planet) as Hlen.
  apply Rabs_le_between in Hx.
  split; [| split].
  - unfold groundNormal, getTerrainNormal. cbn [vec_x].
    replace 0.3 with (1.2 / 4) by lra.
    apply quotient_bound; [exact Hlen | apply Rabs_le; lra].
  - unfold groundNormal, getTerrainNormal. cbn [vec_z].
    apply Rdiv_lt_0_compat; lra.
  - apply getTerrainNormal_z_le_1.
Qed.

Lemma cruise_speedBoosted :
  speedClamped keys 0.05 st < speedBoosted WL planet keys 0.05 st
  <= speedClamped keys 0.05 st + 0.8.
Proof.
  pose proof cruise_normal as (_ & Hz0 & Hz1).
  unfold speedBoosted. rewrite weak_gravity.
  destruct (Rgt_dec (vec_z (groundNormal WL planet st)) 0); lra.
Qed.

Lemma cruise_velX : Rabs (velX_steered WL planet keys 0.05 st) <= 4.
Proof.
  destruct on_course as (_ & Hv & _).
  pose proof cruise_normal as [Hgx _].
  apply Rabs_le_between in Hv. apply Rabs_le_between in Hgx.
  unfold velX_steered. rewrite cruise_inputX, weak_gravity.
  apply Rabs_le. lra.
Qed.

(** The candidate is ahead of the player and still near the
    centreline. *)
Lemma cruise_nextPos :
  Rabs (vec_x (nextPos WL planet keys 0.05 st)) <= 0.2 * INR (S n)
  /\ vec_z (position st) <= vec_z (nextPos WL planet keys 0.05 st)
     <= vec_z (position st) + 10.5.
Proof.
  destruct on_course as (Hx & _).
  pose proof cruise_velX as Hv. pose proof cruise_speedBoosted as [Hb0 Hb1].
  pose proof cruise_speedClamped as ([_ Hc1] & Hc0 & _).
  apply Rabs_le_between in Hx. apply Rabs_le_between in Hv.
  unfold nextPos. cbn [vec_x vec_z]. rewrite S_INR.
  split; [apply Rabs_le; lra | lra].
Qed.

Lemma cruise_no_wall :
  nextTerrainHeight WL planet keys 0.05 st - vec_y (position st) < 1.
Proof.
  destruct on_course as (_ & _ & _ & _ & Hy & _).
  pose proof cruise_x as Hx. pose proof cruise_frames as [Hn0 Hn1].
  pose proof cruise_nextPos as [Hx' [Hz0 Hz1]]. rewrite S_INR in Hx'.
  unfold nextTerrainHeight.
  set (np := nextPos WL planet keys 0.05 st) in *.
  rewrite shield_height by lra.
  rewrite shield_height in Hy by lra.
  pose proof (slopeHeight_diff (vec_z np) (vec_z (position st))) as Hs.
  rewrite descent in Hs.
  pose proof (microNoise_range (vec_x np) (vec_z np) planet).
  pose proof (microNoise_range (vec_x (position st)) (vec_z (position st))
                planet).
  apply Rabs_le_between in Hx.
  assert (Hsq : vec_x (position st) * vec_x (position st) <= 1296) by nra.
  assert (Hsq' : 0 <= vec_x np * vec_x np) by nra.
  lra.
Qed.

(** One more frame at full throttle keeps the player on course. *)
Lemma cruise_step :
  let r := useFrame WL planet PLAYING keys 0.05 st in
  res_gameState r = PLAYING
  /\ cruising WL planet (S n) (res_refs r)
  /\ (190 <= speed st -> 190 < speed (res_refs r)).
Proof.
  intros r. subst r.
  rewrite useFrame_physics by exact cruise_reachesPhysics.
  rewrite full_frame.
  pose proof cruise_no_wall as Hrise.
  assert (Hwall : wallHit WL planet keys 0.05 st = false).
  { unfold wallHit. apply Rlt_b_false. lra. }
  pose proof cruise_nextPos as [Hx' [Hz0 Hz1]].
  pose proof cruise_speedBoosted as [Hb0 Hb1].
  pose proof cruise_speedClamped as ([Hc0 Hc1] & _ & Hcfast).
  destruct on_course as (_ & _ & _ & Hz & _).
  unfold physicsLoop, cruising.
  cbn [res_gameState res_refs fst position velocity speed inputVector_x
       vec_x vec_y vec_z].
  rewrite Hwall.
  split; [reflexivity |]. split; [| intros Hfast; rewrite Hcfast in Hb0; lra].
  split; [exact Hx' |].
  split; [exact cruise_velX |].
  split; [exact cruise_inputX |].
  split; [rewrite S_INR; lra |].
  split; [| lra].
  fold (nextTerrainHeight WL planet keys 0.05 st).
  destruct (penetrates WL planet keys 0.05 st) eqn:Hpen; [lra |].
  unfold penetrates in Hpen. apply Rlt_b_false in Hpen. lra.
Qed.

End Throttle.

Lemma spawn_currentHeight : currentHeight WL planet (spawn WL planet) = 5.
Proof.
  unfold currentHeight, terrainHeight, spawn. cbn [position vec_x vec_y vec_z].
  unfold initialSpawnHeight. lra.
Qed.

End SmoothShield.

(** C9 (as stated, refuted).  On a planet with a mountain of height 1e160
    the four samples around the origin are numbers of magnitude about
    5e159, the longitudinal difference is about 2e156, its square
    overflows, the length is [Infinity] and the returned vector is
    (0, 0, 0): its y-component is not positive. *)
Lemma normal_flat_on_overflow :
  getTerrainNormal_double (heightOverReals sampleWorldLength) 0 0
    overflowWorld
  = mkJSVec3 (Num 0) (Num 0) (Num 0)
  /\ ~ (exists y,
          js_y (getTerrainNormal_double (heightOverReals sampleWorldLength)
                  0 0 overflowWorld)
          = Num y /\ 0 < y).
Proof.
  pose proof MAX_VALUE_large as HM.
  assert (HWL : sampleWorldLength <> 0) by (unfold sampleWorldLength; lra).
  destruct (rawNormal_centre sampleWorldLength overflowWorld HWL
              ltac:(discriminate) ltac:(reflexivity) ltac:(reflexivity) 0)
    as [Hx Hz].
  unfold rawNormal, normalOffset in Hx, Hz. cbn [vec_x vec_z] in Hx, Hz.
  assert (Hm : mountainHeight overflowWorld / sampleWorldLength = 5e155)
    by (unfold overflowWorld, sampleWorldLength; cbn [mountainHeight]; lra).
  rewrite Hm in Hz.
  assert (Hflat : getTerrainNormal_double (heightOverReals sampleWorldLength)
                    0 0 overflowWorld
                  = mkJSVec3 (Num 0) (Num 0) (Num 0)).
  { unfold getTerrainNormal_double, heightOverReals. cbv zeta.
    set (hL := getTerrainHeight sampleWorldLength (0 - 2.0) 0 overflowWorld)
      in *.
    set (hR := getTerrainHeight sampleWorldLength (0 + 2.0) 0 overflowWorld)
      in *.
    set (hD := getTerrainHeight sampleWorldLength 0 (0 - 2.0) overflowWorld)
      in *.
    set (hU := getTerrainHeight sampleWorldLength 0 (0 + 2.0) overflowWorld)
      in *.
    assert (Hbig : MAX_VALUE
                   < (hL - hR) * (hL - hR) + 16 + (hD - hU) * (hD - hU)).
    { pose proof (Rle_0_sqr (hL - hR)) as H0. unfold Rsqr in H0.
      assert (H1 : 1e156 * 1e156 <= (hD - hU) * (hD - hU))
        by (apply Rmult_le_compat; lra).
      unfold MAX_VALUE. lra. }
    destruct (normalOfSamples_overflow hL hR hD hU Hbig) as [Hlen _].
    unfold normalOfSamples. rewrite Hlen, normOfSamples_eq.
    cbn [js_x js_y js_z js_sub].
    rewrite (overflow_finite (hL - hR)) by lra.
    rewrite (overflow_finite (hD - hU)) by (unfold MAX_VALUE; lra).
    reflexivity. }
  split; [exact Hflat |].
  rewrite Hflat. cbn [js_y]. intros (y & Ey & Hy).
  injection Ey as <-. lra.
Qed.

(** ** Sample runs from the spawn state *)

Ltac shield_world :=
  first [ discriminate
        | reflexivity
        | unfold sampleWorldLength; lra
        | simpl; lra
        | simpl; discriminate
        | split; simpl; lra ].

Lemma spawn_reachesPhysics (planet : PlanetConfig) :
  reachesPhysics sampleWorldLength PLAYING (spawn sampleWorldLength planet).
Proof.
  split; [reflexivity |].
  unfold spawn, startZ, sampleWorldLength. cbn [position vec_z]. lra.
Qed.

Lemma spawn_cruising :
  cruising sampleWorldLength glideWorld 0 (spawn sampleWorldLength glideWorld).
Proof.
  unfold cruising, spawn.
  cbn [position velocity speed inputVector_x vec_x vec_y vec_z INR].
  rewrite Rabs_R0. unfold initialSpawnHeight.
  repeat split; try lra.
  rewrite Rmin_right; lra.
Qed.

Lemma glide_step (n : nat) (st : PlayerRefs) :
  (n <= 178)%nat ->
  cruising sampleWorldLength glideWorld n st ->
  let r := useFrame sampleWorldLength glideWorld PLAYING throttle 0.05 st in
  res_gameState r = PLAYING
  /\ cruising sampleWorldLength glideWorld (S n) (res_refs r)
  /\ (190 <= speed st -> 190 < speed (res_refs r)).
Proof.
  intros Hn Hinv.
  apply (cruise_step sampleWorldLength glideWorld); try shield_world;
    try assumption.
  unfold sampleWorldLength. simpl. lra.
Qed.

(** From any point of the course, the frame after the 178th ends above
    190. *)
Lemma glide_run (k : nat) :
  forall (n : nat) (st : PlayerRefs),
    (n + k = 178)%nat ->
    cruising sampleWorldLength glideWorld n st ->
    Exists (fun r => 190 < speed (res_refs r))
      (runFrames sampleWorldLength glideWorld PLAYING st
         (repeat (mkFrame throttle 0.05) (S k))).
Proof.
  induction k as [| k IH]; intros n st Hnk Hinv.
  - assert (n = 178)%nat by lia. subst n.
    destruct (glide_step 178 st (Nat.le_refl _) Hinv) as (_ & _ & Hover).
    cbn [repeat runFrames frame_keys frame_delta]. apply Exists_cons_hd.
    apply Hover.
    destruct Hinv as (_ & _ & _ & _ & _ & Hs).
    rewrite (INR_IZR_INZ 178) in Hs. cbn [Z.of_nat Pos.of_succ_nat Pos.succ]
      in Hs.
    rewrite Rmin_left in Hs by lra. exact Hs.
  - assert (Hn : (n <= 178)%nat) by lia.
    destruct (glide_step n st Hn Hinv) as (Hgs & Hnext & _).
    change (repeat (mkFrame throttle 0.05) (S (S k)))
      with (mkFrame throttle 0.05 :: repeat (mkFrame throttle 0.05) (S k)).
    cbn [runFrames frame_keys frame_delta]. apply Exists_cons_tl.
    rewrite Hgs. apply (IH (S n)); [lia | exact Hnext].
Qed.

(** On the climbing track the normal at spawn leans backward, so the
    first frame gets no downhill boost. *)
Lemma climbing_spawn_speedBoosted :
  speedBoosted sampleWorldLength climbingTrack noKeys 0.05
    (spawn sampleWorldLength climbingTrack) = 0.
Proof.
  unfold speedBoosted.
  rewrite (spawn_speedClamped sampleWorldLength climbingTrack noKeys)
    by reflexivity.
  destruct (Rgt_dec _ 0) as [Hpos | Hneg]; [exfalso | reflexivity].
  revert Hpos.
  unfold groundNormal, getTerrainNormal, spawn. cbn [position vec_x vec_z].
  assert (Hraw := rawNormal_centre sampleWorldLength climbingTrack).
  specialize (Hraw ltac:(shield_world) ltac:(shield_world) ltac:(shield_world)
                ltac:(shield_world) (startZ sampleWorldLength)).
  destruct Hraw as [_ [_ Hz1]].
  replace (mountainHeight climbingTrack / sampleWorldLength) with (-30) in Hz1
    by (unfold sampleWorldLength; simpl; lra).
  pose proof (vecLength_rawNormal sampleWorldLength 0
                (startZ sampleWorldLength) climbingTrack) as Hlen.
  set (len := vecLength _) in *. set (nz := vec_z _) in *.
  intros Hpos.
  assert (Hinv : 0 < / len) by (apply Rinv_0_lt_compat; lra).
  assert (Hneg : nz * / len < 0 * / len)
    by (apply Rmult_lt_compat_r; lra).
  unfold Rdiv in Hpos. lra.
Qed.

(** The candidate of the first frame on the climbing track is a wall. *)
Lemma climbing_spawn_wall :
  nextTerrainHeight sampleWorldLength climbingTrack noKeys 0.05
    (spawn sampleWorldLength climbingTrack)
  - vec_y (position (spawn sampleWorldLength climbingTrack)) > 5.
Proof.
  assert (Hrise := spawn_rise sampleWorldLength climbingTrack).
  specialize (Hrise ltac:(shield_world) ltac:(shield_world)
                ltac:(shield_world) ltac:(shield_world) ltac:(shield_world)
                noKeys eq_refl eq_refl eq_refl eq_refl).
  cbv zeta in Hrise. rewrite Hrise. clear Hrise.
  assert (Hsq := spawn_nextPos_x_sqr sampleWorldLength climbingTrack).
  specialize (Hsq ltac:(shield_world) ltac:(shield_world)
                ltac:(shield_world) ltac:(shield_world) ltac:(shield_world)
                noKeys eq_refl eq_refl eq_refl eq_refl).
  change (gravity climbingTrack) with 1 in Hsq.
  rewrite spawn_nextPos_z, climbing_spawn_speedBoosted.
  set (np := nextPos sampleWorldLength climbingTrack noKeys 0.05 _) in *.
  pose proof (microNoise_range (vec_x np)
                (startZ sampleWorldLength + (0 + 10) * 0.05) climbingTrack).
  pose proof (microNoise_range 0 (startZ sampleWorldLength) climbingTrack).
  replace (mountainHeight climbingTrack / sampleWorldLength) with (-30)
    by (unfold sampleWorldLength; simpl; lra).
  lra.
Qed.

(** A frame of zero length leaves the candidate at the current
    position. *)
Lemma nextPos_still (WL : R) (planet : PlanetConfig) (keys : Keys)
  (st : PlayerRefs) :
  nextPos WL planet keys 0 st = position st.
Proof.
  unfold nextPos. destruct (position st) as [x y z]. cbn [vec_x vec_y vec_z].
  f_equal; lra.
Qed.

(** A player held by the ground clamp, with the jump key down, on a
    frame of zero length: the jump branch runs and the position is kept,
    so the next frame finds the same situation. *)
Lemma resting_still_frame (WL : R) (planet : PlanetConfig) (keys : Keys)
  (st : PlayerRefs) :
  reachesPhysics WL PLAYING st ->
  restsOnSurface WL planet st ->
  key_space keys = true ->
  let r := useFrame WL planet PLAYING keys 0 st in
  res_gameState r = PLAYING
  /\ firesJump r = true
  /\ position (res_refs r) = position st
  /\ vec_y (velocity (res_refs r)) = 50.
Proof.
  intros Hphys Hrest Hspace r. subst r.
  rewrite useFrame_physics by assumption.
  assert (Hdt : Math_min 0 0.05 = 0) by (apply Rmin_left; lra).
  rewrite Hdt. unfold restsOnSurface in Hrest.
  assert (Hcur : currentHeight WL planet st = 0.5).
  { unfold currentHeight, terrainHeight. lra. }
  assert (Hground : isGrounded WL planet st = true).
  { unfold isGrounded. apply Rlt_b_true. rewrite Hcur.
    unfold HOVER_TARGET. lra. }
  assert (Hjump : jumpFires WL planet keys st = true).
  { unfold jumpFires. rewrite Hspace, Hground. simpl.
    apply Rlt_b_true. rewrite Hcur. unfold HOVER_TARGET. lra. }
  assert (Hnth : nextTerrainHeight WL planet keys 0 st
                 = getTerrainHeight WL (vec_x (position st))
                     (vec_z (position st)) planet).
  { unfold nextTerrainHeight. rewrite nextPos_still. reflexivity. }
  assert (Hpen : penetrates WL planet keys 0 st = false).
  { unfold penetrates. apply Rlt_b_false.
    rewrite Hnth, nextPos_still. lra. }
  assert (Hwall : wallHit WL planet keys 0 st = false).
  { unfold wallHit. apply Rlt_b_false. rewrite Hnth. lra. }
  unfold physicsLoop, firesJump.
  cbn [res_gameState res_refs res_audio fst snd position velocity vec_y].
  rewrite Hpen, Hwall, Hjump, nextPos_still.
  split; [reflexivity |]. split; [| split].
  - rewrite existsb_app. simpl. apply orb_true_r.
  - destruct (position st); reflexivity.
  - unfold velY_integrated, velY_jump. rewrite Hjump. unfold MASS. lra.
Qed.

(** The first frame on the level track under strong gravity: the player
    falls from the spawn height onto the ground clamp. *)
Lemma flat_first_frame :
  let r := useFrame sampleWorldLength flatHeavyWorld PLAYING jumpHeld 0.05
             (spawn sampleWorldLength flatHeavyWorld) in
  res_gameState r = PLAYING
  /\ firesJump r = false
  /\ restsOnSurface sampleWorldLength flatHeavyWorld (res_refs r)
  /\ reachesPhysics sampleWorldLength PLAYING (res_refs r).
Proof.
  intros r. subst r.
  rewrite useFrame_physics by apply spawn_reachesPhysics.
  rewrite full_frame.
  set (st := spawn sampleWorldLength flatHeavyWorld).
  assert (Hcur : currentHeight sampleWorldLength flatHeavyWorld st = 5)
    by apply spawn_currentHeight.
  assert (Hground : isGrounded sampleWorldLength flatHeavyWorld st = false).
  { unfold isGrounded. apply Rlt_b_false. rewrite Hcur.
    unfold HOVER_TARGET. lra. }
  assert (Hjump : jumpFires sampleWorldLength flatHeavyWorld jumpHeld st
                  = false).
  { unfold jumpFires. rewrite Hground. reflexivity. }
  assert (Hland : landingSound sampleWorldLength flatHeavyWorld st = []).
  { unfold landingSound. rewrite Hground. reflexivity. }
  assert (Hforce : forceY sampleWorldLength flatHeavyWorld jumpHeld st
                   = -28800).
  { unfold forceY. rewrite Hcur.
    destruct (Rlt_dec 5 (HOVER_TARGET + 3.0)) as [H | H].
    - unfold HOVER_TARGET in H. lra.
    - change (gravity flatHeavyWorld) with 48. lra. }
  assert (HvelY : velY_integrated sampleWorldLength flatHeavyWorld jumpHeld
                    0.05 st = -120).
  { unfold velY_integrated, velY_jump. rewrite Hjump, Hforce.
    change (vec_y (velocity st)) with 0. unfold MASS. lra. }
  assert (Hrise := spawn_rise sampleWorldLength flatHeavyWorld).
  specialize (Hrise ltac:(shield_world) ltac:(shield_world)
                ltac:(shield_world) ltac:(shield_world) ltac:(shield_world)
                jumpHeld eq_refl eq_refl eq_refl eq_refl).
  cbv zeta in Hrise. fold st in Hrise.
  assert (Hsq := spawn_nextPos_x_sqr sampleWorldLength flatHeavyWorld).
  specialize (Hsq ltac:(shield_world) ltac:(shield_world)
                ltac:(shield_world) ltac:(shield_world) ltac:(shield_world)
                jumpHeld eq_refl eq_refl eq_refl eq_refl).
  fold st in Hsq. change (gravity flatHeavyWorld) with 48 in Hsq.
  replace (mountainHeight flatHeavyWorld / sampleWorldLength) with 0 in Hrise
    by (unfold sampleWorldLength; simpl; lra).
  set (np := nextPos sampleWorldLength flatHeavyWorld jumpHeld 0.05 st) in *.
  pose proof (microNoise_range (vec_x np) (vec_z np) flatHeavyWorld) as Hm1.
  pose proof (microNoise_range 0 (startZ sampleWorldLength) flatHeavyWorld)
    as Hm0.
  assert (Hpen : penetrates sampleWorldLength flatHeavyWorld jumpHeld 0.05 st
                 = true).
  { unfold penetrates. apply Rlt_b_true. fold np.
    assert (Hy : vec_y np = vec_y (position st) - 6).
    { unfold np, nextPos. cbn [vec_y]. rewrite HvelY. lra. }
    rewrite Hy. lra. }
  assert (Hwall : wallHit sampleWorldLength flatHeavyWorld jumpHeld 0.05 st
                  = false).
  { unfold wallHit. apply Rlt_b_false. lra. }
  unfold physicsLoop, firesJump, restsOnSurface.
  cbn [res_gameState res_refs res_audio fst snd position vec_x vec_y vec_z].
  rewrite Hpen, Hwall, Hjump, Hland. fold np.
  split; [reflexivity |]. split; [reflexivity |]. split; [reflexivity |].
  split; [reflexivity |].
  assert (Hdt : 0 <= 0.05 <= 0.05) by lra.
  assert (Hg : 0 <= gravity flatHeavyWorld) by (simpl; lra).
  pose proof (speedBoosted_range sampleWorldLength flatHeavyWorld jumpHeld
                0.05 st Hg Hdt) as [_ Hs].
  change (gravity flatHeavyWorld) with 48 in Hs. unfold maxSpeed in Hs.
  unfold np, nextPos. cbn [position vec_z].
  change (vec_z (position st)) with (startZ sampleWorldLength).
  set (sB := speedBoosted sampleWorldLength flatHeavyWorld jumpHeld 0.05 st)
    in *.
  unfold startZ, sampleWorldLength. lra.
Qed.

(** ** Claims on the locomotion step *)

(** C2 (as stated, refuted). 179 frames of 0.05 s at full throttle from
    the spawn state, on a smooth descent under a gravity of 0.16: the
    speed reaches the clamp, and the downhill boost added after the clamp
    ends a frame above 190. *)
Lemma boost_exceeds_maxSpeed :
  Exists (fun r => 190 < speed (res_refs r))
    (runFrames sampleWorldLength glideWorld PLAYING
       (spawn sampleWorldLength glideWorld)
       (repeat (mkFrame throttle 0.05) 179)).
Proof.
  apply (glide_run 178 0); [reflexivity | exact spawn_cruising].
Qed.

(** C2 (amended). The clamp leaves the forward speed in [[-20, 190]]; the
    downhill boost of [groundNormal.z * gravity * 100 * dt] is added after
    the clamp, so at the end of every frame of every run from the spawn
    state the speed lies in [[-20, 190 + 5 * gravity]], for a
    non-negative gravity and non-negative frame times. *)
Theorem speed_range_every_frame :
  forall (WL : R) (planet : PlanetConfig) (gameState : GameState)
         (frames : list Frame),
    0 <= gravity planet ->
    Forall (fun f => 0 <= frame_delta f) frames ->
    (forall keys dt st, -20 <= speedClamped keys dt st <= 190)
    /\ Forall (fun r => -20 <= speed (res_refs r) <= 190 + 5 * gravity planet)
              (runFrames WL planet gameState (spawn WL planet) frames).
Proof.
  intros WL planet gameState frames Hg Hframes. split.
  - intros keys dt st. apply speedClamped_range.
  - assert (Hspawn : -20 <= speed (spawn WL planet)
                     <= maxSpeed + 100 * gravity planet * 0.05).
    { unfold spawn, maxSpeed. simpl. lra. }
    pose proof (runFrames_speed_range WL planet frames Hg Hframes
                  gameState (spawn WL planet) Hspawn) as Hrun.
    eapply Forall_impl; [| exact Hrun].
    intros r Hr. unfold maxSpeed in Hr. cbv beta in Hr. lra.
Qed.

Lemma speed_range_every_frame_witness :
  Forall (fun r => -20 <= speed (res_refs r) <= 190 + 5 * gravity iceRidge)
    (runFrames sampleWorldLength iceRidge PLAYING
       (spawn sampleWorldLength iceRidge)
       [mkFrame noKeys 0.016; mkFrame jumpHeld 0.05]).
Proof.
  apply (speed_range_every_frame sampleWorldLength iceRidge PLAYING
           [mkFrame noKeys 0.016; mkFrame jumpHeld 0.05]).
  - simpl. lra.
  - repeat constructor; simpl; lra.
Defined.

(** C4 (as stated, refuted). The first frame from spawn on the climbing
    track meets a wall, and the longitudinal coordinate z still advances,
    by 0.5. *)
Lemma wall_frame_advances_z :
  let st := spawn sampleWorldLength climbingTrack in
  let st' := res_refs (useFrame sampleWorldLength climbingTrack PLAYING
                         noKeys 0.05 st) in
  nextTerrainHeight sampleWorldLength climbingTrack noKeys
    (Math_min 0.05 0.05) st - vec_y (position st) > 5
  /\ vec_z (position st') = vec_z (position st) + 0.5
  /\ vec_z (position st') <> vec_z (position st).
Proof.
  intros st st'. rewrite full_frame.
  assert (Hz : vec_z (position st') = vec_z (position st) + 0.5).
  { subst st st'. rewrite useFrame_physics by apply spawn_reachesPhysics.
    rewrite full_frame. unfold physicsLoop, nextPos.
    cbn [res_refs fst position vec_z].
    rewrite climbing_spawn_speedBoosted. lra. }
  split; [apply climbing_spawn_wall |].
  split; [exact Hz | lra].
Qed.

(** C4 (amended). On a frame whose candidate terrain height exceeds the
    starting y by more than 5, the forward speed is multiplied by 0.3,
    the lateral velocity is multiplied by -0.5, and the lateral
    displacement is rejected: x is left at its value at the start of the
    frame.  The longitudinal coordinate z still advances by
    [(speed + 10) * dt], with the speed before the damping. *)
Theorem wall_collision_response :
  forall (WL : R) (planet : PlanetConfig) (gameState : GameState)
         (keys : Keys) (delta : R) (st : PlayerRefs),
    reachesPhysics WL gameState st ->
    let dt := Math_min delta 0.05 in
    nextTerrainHeight WL planet keys dt st - vec_y (position st) > 5 ->
    let st' := res_refs (useFrame WL planet gameState keys delta st) in
    speed st' = speedBoosted WL planet keys dt st * 0.3
    /\ vec_x (velocity st') = velX_steered WL planet keys dt st * -0.5
    /\ vec_x (position st') = vec_x (position st)
    /\ vec_z (position st')
       = vec_z (position st) + (speedBoosted WL planet keys dt st + 10) * dt.
Proof.
  intros WL planet gameState keys delta st Hphys dt Hwall st'.
  unfold st'. rewrite useFrame_physics by assumption. fold dt.
  unfold physicsLoop. cbn [res_refs fst speed velocity position vec_x vec_z].
  assert (Hhit : wallHit WL planet keys dt st = true).
  { unfold wallHit. apply Rlt_b_true. lra. }
  rewrite Hhit. repeat split; reflexivity.
Qed.

Lemma wall_collision_response_witness :
  let st := spawn sampleWorldLength climbingTrack in
  let st' := res_refs (useFrame sampleWorldLength climbingTrack PLAYING
                         noKeys 0.05 st) in
  speed st' = speedBoosted sampleWorldLength climbingTrack noKeys
                (Math_min 0.05 0.05) st * 0.3
  /\ vec_x (velocity st')
     = velX_steered sampleWorldLength climbingTrack noKeys
         (Math_min 0.05 0.05) st * -0.5
  /\ vec_x (position st') = vec_x (position st)
  /\ vec_z (position st')
     = vec_z (position st)
       + (speedBoosted sampleWorldLength climbingTrack noKeys
            (Math_min 0.05 0.05) st + 10) * Math_min 0.05 0.05.
Proof.
  apply (wall_collision_response sampleWorldLength climbingTrack PLAYING
           noKeys 0.05 (spawn sampleWorldLength climbingTrack)).
  - apply spawn_reachesPhysics.
  - rewrite full_frame. apply climbing_spawn_wall.
Defined.

(** C5 (as stated, refuted). Three frames from the spawn state with the
    jump key held throughout: the first drops the player onto the ground
    clamp, and the jump branch then runs on the second frame and again
    on the third. *)
Lemma jump_reapplied_while_held :
  let frames := [mkFrame jumpHeld 0.05; mkFrame jumpHeld 0; mkFrame jumpHeld 0] in
  Forall (fun f => key_space (frame_keys f) = true) frames
  /\ map firesJump
       (runFrames sampleWorldLength flatHeavyWorld PLAYING
          (spawn sampleWorldLength flatHeavyWorld) frames)
     = [false; true; true].
Proof.
  intros frames. split; [repeat constructor |].
  subst frames. cbn [runFrames frame_keys frame_delta map].
  destruct flat_first_frame as (Hg1 & Hj1 & Hrest1 & Hphys1).
  set (r1 := useFrame sampleWorldLength flatHeavyWorld PLAYING jumpHeld 0.05
               (spawn sampleWorldLength flatHeavyWorld)) in *.
  rewrite Hg1, Hj1.
  destruct (resting_still_frame sampleWorldLength flatHeavyWorld jumpHeld
              (res_refs r1) Hphys1 Hrest1 eq_refl)
    as (Hg2 & Hj2 & Hpos2 & _).
  set (r2 := useFrame sampleWorldLength flatHeavyWorld PLAYING jumpHeld 0
               (res_refs r1)) in *.
  rewrite Hg2, Hj2.
  assert (Hphys2 : reachesPhysics sampleWorldLength PLAYING (res_refs r2)).
  { unfold reachesPhysics in *. rewrite Hpos2. exact Hphys1. }
  assert (Hrest2 : restsOnSurface sampleWorldLength flatHeavyWorld
                     (res_refs r2)).
  { unfold restsOnSurface in *. rewrite Hpos2. exact Hrest1. }
  destruct (resting_still_frame sampleWorldLength flatHeavyWorld jumpHeld
              (res_refs r2) Hphys2 Hrest2 eq_refl)
    as (_ & Hj3 & _ & _).
  rewrite Hj3. reflexivity.
Qed.

(** C5 (amended). On a frame in which the jump key is held, the player is
    grounded and the clearance is below hover target + 0.5, the jump
    branch runs: it assigns 50 to the vertical velocity before the
    vertical force of the frame is integrated, so the frame ends with
    [50 + forceY * dt / (MASS / 10)], or with 0 when the ground clamp
    fires.  The branch is level-triggered: if the key is still held on
    the next frame and the condition holds again, it runs again. *)
Theorem jump_impulse_each_frame :
  forall (WL : R) (planet : PlanetConfig) (gameState : GameState)
         (keys : Keys) (delta : R) (st : PlayerRefs),
    reachesPhysics WL gameState st ->
    key_space keys = true ->
    isGrounded WL planet st = true ->
    currentHeight WL planet st < HOVER_TARGET + 0.5 ->
    let dt := Math_min delta 0.05 in
    let r := useFrame WL planet gameState keys delta st in
    (In triggerJump (res_audio r)
     /\ velY_jump WL planet keys st = 50
     /\ vec_y (velocity (res_refs r))
        = if penetrates WL planet keys dt st then 0
          else 50 + forceY WL planet keys st * dt / (MASS / 10))
    /\ (forall keys' delta',
          reachesPhysics WL (res_gameState r) (res_refs r) ->
          key_space keys' = true ->
          isGrounded WL planet (res_refs r) = true ->
          currentHeight WL planet (res_refs r) < HOVER_TARGET + 0.5 ->
          In triggerJump
             (res_audio (useFrame WL planet (res_gameState r) keys' delta'
                           (res_refs r)))).
Proof.
  assert (Hfire : forall WL planet gameState keys delta st,
             reachesPhysics WL gameState st ->
             key_space keys = true ->
             isGrounded WL planet st = true ->
             currentHeight WL planet st < HOVER_TARGET + 0.5 ->
             jumpFires WL planet keys st = true
             /\ In triggerJump
                  (res_audio (useFrame WL planet gameState keys delta st))).
  { intros WL planet gameState keys delta st Hphys Hspace Hground Hband.
    assert (Hj : jumpFires WL planet keys st = true).
    { unfold jumpFires. rewrite Hspace, Hground. simpl.
      apply Rlt_b_true. exact Hband. }
    split; [exact Hj |].
    rewrite useFrame_physics by assumption.
    unfold physicsLoop. cbn [res_audio snd]. rewrite Hj.
    apply in_or_app. right. simpl. left. reflexivity. }
  intros WL planet gameState keys delta st Hphys Hspace Hground Hband dt r.
  destruct (Hfire WL planet gameState keys delta st Hphys Hspace Hground Hband)
    as [Hj Hin].
  split; [split; [exact Hin | split] |].
  - unfold velY_jump. rewrite Hj. reflexivity.
  - unfold r. rewrite useFrame_physics by assumption. fold dt.
    unfold physicsLoop. cbn [res_refs fst velocity vec_y].
    unfold velY_integrated, velY_jump. rewrite Hj. reflexivity.
  - intros keys' delta' Hphys' Hspace' Hground' Hband'.
    apply (Hfire WL planet (res_gameState r) keys' delta' (res_refs r));
      assumption.
Qed.

Lemma jump_impulse_each_frame_witness :
  let st := res_refs (useFrame sampleWorldLength flatHeavyWorld PLAYING
                        jumpHeld 0.05
                        (spawn sampleWorldLength flatHeavyWorld)) in
  In triggerJump
     (res_audio (useFrame sampleWorldLength flatHeavyWorld PLAYING
                   jumpHeld 0 st))
  /\ velY_jump sampleWorldLength flatHeavyWorld jumpHeld st = 50.
Proof.
  intros st.
  destruct flat_first_frame as (_ & _ & Hrest & Hphys). fold st in Hrest, Hphys.
  assert (Hcur : currentHeight sampleWorldLength flatHeavyWorld st = 0.5).
  { unfold restsOnSurface in Hrest. unfold currentHeight, terrainHeight. lra. }
  assert (Hground : isGrounded sampleWorldLength flatHeavyWorld st = true).
  { unfold isGrounded. apply Rlt_b_true. rewrite Hcur.
    unfold HOVER_TARGET. lra. }
  assert (Hband : currentHeight sampleWorldLength flatHeavyWorld st
                  < HOVER_TARGET + 0.5).
  { rewrite Hcur. unfold HOVER_TARGET. lra. }
  destruct (jump_impulse_each_frame sampleWorldLength flatHeavyWorld PLAYING
              jumpHeld 0 st Hphys eq_refl Hground Hband)
    as [(Hin & Hvel & _) _].
  split; [exact Hin | exact Hvel].
Defined.

(** C6. On every frame that runs the physics loop, the grounded flag is
    true exactly when the clearance, the current y minus the terrain
    height at the current (x, z), is below hover target + 1.0 = 2.0; the
    flag is what the frame stores in [wasGrounded]. *)
Theorem grounded_iff_clearance_below_threshold :
  forall (WL : R) (planet : PlanetConfig) (gameState : GameState)
         (keys : Keys) (delta : R) (st : PlayerRefs),
    reachesPhysics WL gameState st ->
    let clearance :=
      vec_y (position st)
      - getTerrainHeight WL (vec_x (position st)) (vec_z (position st)) planet in
    HOVER_TARGET + 1.0 = 2.0
    /\ (isGrounded WL planet st = true <-> clearance < 2.0)
    /\ wasGrounded (res_refs (useFrame WL planet gameState keys delta st))
       = isGrounded WL planet st.
Proof.
  intros WL planet gameState keys delta st Hphys clearance.
  assert (Hthr : HOVER_TARGET + 1.0 = 2.0) by (unfold HOVER_TARGET; lra).
  split; [exact Hthr |]. split.
  - unfold isGrounded. rewrite Rlt_b_true, Hthr. reflexivity.
  - rewrite useFrame_physics by assumption. reflexivity.
Qed.

Lemma grounded_iff_clearance_below_threshold_witness :
  wasGrounded
    (res_refs (useFrame sampleWorldLength iceRidge PLAYING noKeys 0.016
                 (spawn sampleWorldLength iceRidge)))
  = isGrounded sampleWorldLength iceRidge (spawn sampleWorldLength iceRidge).
Proof.
  apply (grounded_iff_clearance_below_threshold sampleWorldLength iceRidge
           PLAYING noKeys 0.016 (spawn sampleWorldLength iceRidge)).
  split; [reflexivity |].
  unfold spawn, startZ, sampleWorldLength. simpl. lra.
Defined.

(** C10. After a frame that runs the physics loop and in which the wall
    branch does not fire, the committed position is at least 0.5 above
    the terrain sampled at the committed (x, z). *)
Theorem committed_position_above_surface :
  forall (WL : R) (planet : PlanetConfig) (gameState : GameState)
         (keys : Keys) (delta : R) (st : PlayerRefs),
    reachesPhysics WL gameState st ->
    nextTerrainHeight WL planet keys (Math_min delta 0.05) st
      - vec_y (position st) <= 5 ->
    let p := position (res_refs (useFrame WL planet gameState keys delta st)) in
    vec_y p >= getTerrainHeight WL (vec_x p) (vec_z p) planet + 0.5.
Proof.
  intros WL planet gameState keys delta st Hphys Hnowall p.
  unfold p. rewrite useFrame_physics by assumption.
  set (dt := Math_min delta 0.05) in *.
  unfold physicsLoop. cbn [res_refs fst position vec_x vec_y vec_z].
  assert (Hhit : wallHit WL planet keys dt st = false).
  { unfold wallHit. apply Rlt_b_false. lra. }
  rewrite Hhit.
  fold (nextTerrainHeight WL planet keys dt st).
  destruct (penetrates WL planet keys dt st) eqn:Hpen.
  - lra.
  - unfold penetrates in Hpen. apply Rlt_b_false in Hpen. lra.
Qed.

Lemma committed_position_above_surface_witness :
  let p := position (res_refs (useFrame sampleWorldLength glideWorld PLAYING
                                 noKeys 0.05
                                 (spawn sampleWorldLength glideWorld))) in
  vec_y p
  >= getTerrainHeight sampleWorldLength (vec_x p) (vec_z p) glideWorld + 0.5.
Proof.
  apply (committed_position_above_surface sampleWorldLength glideWorld
           PLAYING noKeys 0.05 (spawn sampleWorldLength glideWorld)).
  - apply spawn_reachesPhysics.
  - rewrite full_frame.
    assert (H := spawn_rise_descending sampleWorldLength glideWorld).
    specialize (H ltac:(shield_world) ltac:(shield_world) ltac:(shield_world)
                  ltac:(shield_world) ltac:(shield_world) noKeys
                  eq_refl eq_refl eq_refl eq_refl).
    assert (Hk : 0 <= mountainHeight glideWorld / sampleWorldLength <= 2)
      by (unfold sampleWorldLength; simpl; lra).
    specialize (H Hk). lra.
Defined.

(** * Further properties *)

(** ** The noise kernel *)

Lemma fbm_loop_upper (n : nat) :
  forall x z p l total amplitude frequency,
    0 <= p -> 0 <= amplitude ->
    fbm_loop n x z p l total amplitude frequency
    <= total + amplitude * amplitudeSum p n.
Proof.
  induction n as [| n IH]; intros x z p l total amplitude frequency Hp Ha;
    simpl; [lra |].
  pose proof (noise_range (x * frequency) (z * frequency)) as [Hn0 Hn1].
  eapply Rle_trans; [apply IH; [assumption | apply Rmult_le_pos; lra] |].
  assert (noise (x * frequency) (z * frequency) * amplitude <= 1 * amplitude)
    by (apply Rmult_le_compat_r; lra).
  lra.
Qed.

Lemma amplitudeSum_half (p : R) (n : nat) :
  0 <= p <= 1 / 2 -> 0 <= amplitudeSum p n < 2.
Proof.
  intros [Hp0 Hp1]. induction n as [| n [IH0 IH1]]; simpl; [lra |].
  assert (0 <= p * amplitudeSum p n) by (apply Rmult_le_pos; lra).
  assert (p * amplitudeSum p n <= 1 / 2 * amplitudeSum p n)
    by (apply Rmult_le_compat_r; lra).
  lra.
Qed.

(** X1. With a non-negative persistence, [fbm] lies between 0 and the sum
    of the amplitudes of its octaves, whatever the lacunarity; with a
    persistence of at most one half it stays below 2 for every number of
    octaves. *)
Theorem fbm_within_amplitude_sum :
  forall (x z : R) (octaves : nat) (persistence lacunarity : R),
    0 <= persistence ->
    0 <= fbm x z octaves persistence lacunarity
      <= amplitudeSum persistence octaves
    /\ (persistence <= 1 / 2 -> fbm x z octaves persistence lacunarity < 2).
Proof.
  intros x z n p l Hp.
  assert (Hlo : 0 <= fbm x z n p l) by (apply (fbm_loop_lower n); lra).
  assert (Hhi : fbm x z n p l <= amplitudeSum p n).
  { unfold fbm.
    pose proof (fbm_loop_upper n x z p l 0 1 1 Hp Rle_0_1). lra. }
  split; [split; assumption |].
  intros Hhalf.
  pose proof (amplitudeSum_half p n (conj Hp Hhalf)). lra.
Qed.

Lemma fbm_within_amplitude_sum_witness :
  0 <= fbm 3 7 4 0.5 2 <= amplitudeSum 0.5 4.
Proof.
  apply (fbm_within_amplitude_sum 3 7 4 0.5 2). lra.
Defined.

Lemma Math_floor_IZR (i : Z) : Math_floor (IZR i) = IZR i.
Proof.
  unfold Math_floor, Int_part.
  rewrite <- (tech_up (IZR i) (i + 1)).
  - f_equal. lia.
  - rewrite plus_IZR. lra.
  - rewrite plus_IZR. lra.
Qed.

Lemma fract_IZR (i : Z) : fract (IZR i) = 0.
Proof. unfold fract. rewrite Math_floor_IZR. lra. Qed.

(** A blend with a weight of the unit interval lies between its two
    ends. *)
Lemma blend_between (a b u lo hi : R) :
  lo <= a <= hi -> lo <= b <= hi -> 0 <= u <= 1 ->
  lo <= a * (1 - u) + b * u <= hi.
Proof.
  intros [Ha0 Ha1] [Hb0 Hb1] [Hu0 Hu1].
  assert (lo * (1 - u) <= a * (1 - u) <= hi * (1 - u))
    by (split; apply Rmult_le_compat_r; lra).
  assert (lo * u <= b * u <= hi * u)
    by (split; apply Rmult_le_compat_r; lra).
  lra.
Qed.

(** X2. The value noise passes through the hash at every lattice point,
    and inside a cell it never leaves the range spanned by the hash
    values at the four corners of the cell. *)
Theorem noise_interpolates_hash :
  (forall i j : Z, noise (IZR i) (IZR j) = hash (IZR i) (IZR j))
  /\ (forall x z : R,
        let iX := Math_floor x in
        let iZ := Math_floor z in
        let a := hash iX iZ in
        let b := hash (iX + 1) iZ in
        let c := hash iX (iZ + 1) in
        let d := hash (iX + 1) (iZ + 1) in
        Rmin (Rmin a b) (Rmin c d) <= noise x z <= Rmax (Rmax a b) (Rmax c d)).
Proof.
  split.
  - intros i j. unfold noise. rewrite !fract_IZR, !Math_floor_IZR. lra.
  - intros x z iX iZ a b c d. unfold noise.
    pose proof (hermite_range (fract x) (fract_range x)) as HuX.
    pose proof (hermite_range (fract z) (fract_range z)) as HuZ.
    replace 3.0 with 3 by lra. replace 2.0 with 2 by lra.
    replace 1.0 with 1 by lra.
    fold iX iZ. fold a b c d.
    set (lo := Rmin (Rmin a b) (Rmin c d)).
    set (hi := Rmax (Rmax a b) (Rmax c d)).
    assert (Ha : lo <= a <= hi).
    { split; [eapply Rle_trans; [apply Rmin_l | apply Rmin_l]
             | eapply Rle_trans; [| apply Rmax_l]; apply Rmax_l]. }
    assert (Hb : lo <= b <= hi).
    { split; [eapply Rle_trans; [apply Rmin_l | apply Rmin_r]
             | eapply Rle_trans; [| apply Rmax_l]; apply Rmax_r]. }
    assert (Hc : lo <= c <= hi).
    { split; [eapply Rle_trans; [apply Rmin_r | apply Rmin_l]
             | eapply Rle_trans; [| apply Rmax_r]; apply Rmax_l]. }
    assert (Hd : lo <= d <= hi).
    { split; [eapply Rle_trans; [apply Rmin_r | apply Rmin_r]
             | eapply Rle_trans; [| apply Rmax_r]; apply Rmax_r]. }
    apply blend_between; [apply blend_between | apply blend_between |];
      assumption.
Qed.

(** ** Profiles of the height field *)

Lemma Math_pow_mono (b1 b2 e : R) :
  0 <= e -> b1 <= b2 -> Math_pow b1 e <= Math_pow b2 e.
Proof.
  intros He Hb. unfold Math_pow.
  destruct (Rlt_dec 0 b1) as [H1 | H1]; destruct (Rlt_dec 0 b2) as [H2 | H2];
    try lra.
  - apply Rle_Rpower_l; lra.
  - left. apply exp_pos.
Qed.

(** X3. Every profile is symmetric about the centreline, and the ridge,
    pipe and shield profiles are zero on the centreline and never rise as
    the distance from it grows. *)
Theorem profile_symmetric_and_falling :
  forall (planet : PlanetConfig),
    (forall x, profileHeight (- x) planet = profileHeight x planet)
    /\ (terrainProfile planet <> cloud ->
        profileHeight 0 planet = 0
        /\ forall x1 x2, Rabs x1 <= Rabs x2 ->
             profileHeight x2 planet <= profileHeight x1 planet <= 0).
Proof.
  intros planet. split.
  - intros x. unfold profileHeight, Math_abs, Math_cos.
    rewrite Rabs_Ropp.
    replace (- x * 0.005) with (- (x * 0.005)) by lra.
    rewrite cos_neg. reflexivity.
  - intros Hnc.
    assert (Hmono : forall x1 x2, Rabs x1 <= Rabs x2 ->
               profileHeight x2 planet <= profileHeight x1 planet <= 0).
    { intros x1 x2 Hx. unfold profileHeight, Math_abs, Math_max.
      pose proof (Rabs_pos x1) as Hp1.
      destruct (terrainProfile planet); try contradiction.
      - pose proof (Math_pow_mono (Rabs x1) (Rabs x2) 2 ltac:(lra) Hx).
        pose proof (Math_pow_nonneg (Rabs x1) 2). lra.
      - assert (Hd : Rabs x1 / 10 <= Rabs x2 / 10) by lra.
        pose proof (Math_pow_mono _ _ 1.5 ltac:(lra) Hd).
        pose proof (Math_pow_nonneg (Rabs x1 / 10) 1.5).
        split; [apply Rle_max_compat_r; lra | apply Rmax_lub; lra].
      - assert (Hd : Rabs x1 / 40 <= Rabs x2 / 40) by lra.
        pose proof (Math_pow_mono _ _ 2 ltac:(lra) Hd).
        pose proof (Math_pow_nonneg (Rabs x1 / 40) 2).
        split; [apply Rle_max_compat_r; lra | apply Rmax_lub; lra]. }
    split; [| exact Hmono].
    unfold profileHeight, Math_abs, Math_max, Math_pow. rewrite Rabs_R0.
    destruct (terrainProfile planet); try contradiction.
    + destruct (Rlt_dec 0 0); lra.
    + replace (0 / 10) with 0 by lra.
      destruct (Rlt_dec 0 0); [lra |]. rewrite Rmax_left; lra.
    + replace (0 / 40) with 0 by lra.
      destruct (Rlt_dec 0 0); [lra |]. rewrite Rmax_left; lra.
Qed.

(** X4. The pipe floor is reached exactly from [|x| = 800] outward: inside
    the profile is the parabola [-(x/40)^2 * 5] and above -2000, from
    there on it is -2000.  The ridge floor -3000 is not reached up to
    [|x| = 1300] and is reached from [|x| = 1320] outward. *)
Theorem profile_floor_thresholds :
  forall (planet : PlanetConfig) (x : R),
    (terrainProfile planet = pipe ->
       (Rabs x < 800 ->
          profileHeight x planet = - (x / 40 * (x / 40)) * 5
          /\ -2000 < profileHeight x planet)
       /\ (800 <= Rabs x -> profileHeight x planet = -2000))
    /\ (terrainProfile planet = ridge ->
          (Rabs x <= 1300 -> -3000 < profileHeight x planet)
          /\ (1320 <= Rabs x -> profileHeight x planet = -3000)).
Proof.
  intros planet x. pose proof (Rabs_pos x) as Hpos. split; intros Hp.
  - unfold profileHeight, Math_abs, Math_max. rewrite Hp.
    rewrite Math_pow_2 by lra.
    assert (Hsq : Rabs x / 40 * (Rabs x / 40) = x / 40 * (x / 40)).
    { unfold Rabs. destruct (Rcase_abs x); lra. }
    split.
    + intros Hin.
      assert (Hlt : Rabs x / 40 * (Rabs x / 40) < 400) by nra.
      rewrite Rmax_left by lra. rewrite Hsq in *. lra.
    + intros Hout.
      assert (Hge : 400 <= Rabs x / 40 * (Rabs x / 40)) by nra.
      apply Rmax_right. lra.
  - unfold profileHeight, Math_abs, Math_max. rewrite Hp. split.
    + intros Hin.
      destruct (Req_dec (Rabs x) 0) as [H0 | H0].
      * rewrite H0. unfold Math_pow. replace (0 / 10) with 0 by lra.
        destruct (Rlt_dec 0 0); [lra |]. rewrite Rmax_left; lra.
      * rewrite Math_pow_3_2 by lra.
        assert (Hroot : sqrt (Rabs x / 10) <= 11.5).
        { rewrite <- (sqrt_square 11.5) by lra.
          apply sqrt_le_1_alt. lra. }
        pose proof (sqrt_pos (Rabs x / 10)) as Hs0.
        assert (Rabs x / 10 * sqrt (Rabs x / 10) <= 130 * 11.5)
          by (apply Rmult_le_compat; lra).
        rewrite Rmax_left; lra.
    + intros Hout. rewrite Math_pow_3_2 by lra.
      assert (Hroot : 11.4 <= sqrt (Rabs x / 10)).
      { rewrite <- (sqrt_square 11.4) at 1 by lra.
        apply sqrt_le_1_alt. lra. }
      assert (132 * 11.4 <= Rabs x / 10 * sqrt (Rabs x / 10))
        by (apply Rmult_le_compat; lra).
      apply Rmax_right. lra.
Qed.

(** ** The playable path *)

(** X5. On the path ([|x| < 150]) of a planet other than Mars with a
    non-negative roughness the texture term is cut to 15 percent: the
    height stays within [-0.075, 0.20625] noise amplitudes, plus the
    micro detail below 1, of slope + profile - 200. *)
Theorem path_is_flattened :
  forall (WL x z : R) (planet : PlanetConfig),
    name planet <> MARS ->
    0 <= terrainRoughness planet ->
    Rabs x < 150 ->
    let base := slopeHeight WL z planet + profileHeight x planet - 200 in
    base - 0.075 * noiseAmplitude planet
      <= getTerrainHeight WL x z planet
      < base + 0.20625 * noiseAmplitude planet + 1.
Proof.
  intros WL x z planet Hname Hr Hx base. subst base.
  rewrite height_generic by assumption.
  pose proof (microNoise_range x z planet) as [Hm0 Hm1].
  assert (HA : 0 <= noiseAmplitude planet).
  { unfold noiseAmplitude. destruct (terrainProfile planet); lra. }
  assert (Hn : - (0.075 * noiseAmplitude planet) <= finalNoise x z planet
               <= 0.20625 * noiseAmplitude planet).
  { unfold finalNoise, Math_abs.
    pose proof (fbm_4_range (x * 0.0005) (z * 0.0005)) as [Ht0 Ht1].
    set (t := fbm (x * 0.0005) (z * 0.0005) 4 0.5 2.0) in *.
    set (A := noiseAmplitude planet) in *.
    assert (0 <= t * A) by (apply Rmult_le_pos; lra).
    assert (t * A <= 1.875 * A) by (apply Rmult_le_compat_r; lra).
    destruct (Rlt_dec (Rabs x) 150); [| contradiction].
    destruct (Rge_dec (Rabs x) 150); lra. }
  lra.
Qed.

Lemma path_is_flattened_witness :
  slopeHeight sampleWorldLength 0 iceRidge + profileHeight 20 iceRidge - 200
    - 0.075 * noiseAmplitude iceRidge
  <= getTerrainHeight sampleWorldLength 20 0 iceRidge
  < slopeHeight sampleWorldLength 0 iceRidge + profileHeight 20 iceRidge - 200
    + 0.20625 * noiseAmplitude iceRidge + 1.
Proof.
  apply (path_is_flattened sampleWorldLength 20 0 iceRidge).
  - simpl. discriminate.
  - simpl. lra.
  - rewrite Rabs_pos_eq; lra.
Defined.

(** X6. On the path of a pipe planet the height does not depend on the
    roughness: the fixed noise amplitude replaces it. *)
Theorem pipe_path_ignores_roughness :
  forall (WL x z r : R) (planet : PlanetConfig),
    terrainProfile planet = pipe ->
    Rabs x < 150 ->
    getTerrainHeight WL x z (withRoughness planet r)
    = getTerrainHeight WL x z planet.
Proof.
  intros WL x z r planet Hp Hx.
  unfold getTerrainHeight, withRoughness, slopeHeight. cbn [name mountainHeight].
  destruct (PlanetType_eqb (name planet) MARS); [reflexivity |].
  unfold profileHeight, finalNoise, noiseAmplitude, microNoise, Math_abs.
  cbn [name terrainProfile terrainRoughness]. rewrite Hp.
  destruct (Rlt_dec (Rabs x) 150); [| contradiction].
  destruct (Rge_dec (Rabs x) 150); [lra | reflexivity].
Qed.

Lemma pipe_path_ignores_roughness_witness :
  getTerrainHeight sampleWorldLength 100 0 (withRoughness smoothPipe 3)
  = getTerrainHeight sampleWorldLength 100 0 smoothPipe.
Proof.
  apply (pipe_path_ignores_roughness sampleWorldLength 100 0 3 smoothPipe).
  - reflexivity.
  - rewrite Rabs_pos_eq; lra.
Defined.

(** X7. Inside the lava channel of Mars ([|x| <= 140]) the surface stays
    within [-5, 17.5) of slope - 200, whatever the profile tag and the
    roughness of the configuration. *)
Theorem mars_channel_band :
  forall (WL x z : R) (planet : PlanetConfig),
    name planet = MARS ->
    Rabs x <= 140 ->
    slopeHeight WL z planet - 205
      <= getTerrainHeight WL x z planet
      < slopeHeight WL z planet - 182.5.
Proof.
  intros WL x z planet Hname Hx.
  unfold getTerrainHeight. rewrite Hname. cbn [PlanetType_eqb].
  unfold marsTerrain, Math_abs.
  destruct (Rgt_dec (Rabs x) 140); [lra |].
  pose proof (Rabs_pos x) as Hpos.
  rewrite Math_pow_2 by lra.
  pose proof (fbm_3_range (x * 0.02) (z * 0.02)) as [Hf0 Hf1].
  assert (0 <= Rabs x / 140 * (Rabs x / 140) <= 1) by nra.
  lra.
Qed.

Lemma mars_channel_band_witness :
  slopeHeight sampleWorldLength 0 olympus - 205
    <= getTerrainHeight sampleWorldLength 100 0 olympus
    < slopeHeight sampleWorldLength 0 olympus - 182.5.
Proof.
  apply (mars_channel_band sampleWorldLength 100 0 olympus).
  - reflexivity.
  - rewrite Rabs_pos_eq; lra.
Defined.

(** ** The normal estimator *)

Lemma vecLength_sqr (v : Vec3) :
  vecLength v * vecLength v
  = vec_x v * vec_x v + vec_y v * vec_y v + vec_z v * vec_z v.
Proof.
  unfold vecLength, Math_sqrt. apply sqrt_sqrt.
  pose proof (Rle_0_sqr (vec_x v)). pose proof (Rle_0_sqr (vec_y v)).
  pose proof (Rle_0_sqr (vec_z v)). unfold Rsqr in *. lra.
Qed.

Lemma getTerrainNormal_norm (WL x z : R) (planet : PlanetConfig) :
  let n := getTerrainNormal WL x z planet in
  vec_x n * vec_x n + vec_y n * vec_y n + vec_z n * vec_z n = 1.
Proof.
  intros n. subst n. unfold getTerrainNormal. cbn [vec_x vec_y vec_z].
  pose proof (vecLength_rawNormal WL x z planet) as Hlen.
  pose proof (vecLength_sqr (rawNormal WL x z planet)) as Hsq.
  set (raw := rawNormal WL x z planet) in *.
  set (len := vecLength raw) in *.
  replace (vec_x raw / len * (vec_x raw / len)
           + vec_y raw / len * (vec_y raw / len)
           + vec_z raw / len * (vec_z raw / len))
    with ((vec_x raw * vec_x raw + vec_y raw * vec_y raw
           + vec_z raw * vec_z raw) / (len * len))
    by (field; lra).
  rewrite <- Hsq. field. lra.
Qed.

Lemma getTerrainNormal_x_range (WL x z : R) (planet : PlanetConfig) :
  -1 <= vec_x (getTerrainNormal WL x z planet) <= 1.
Proof.
  pose proof (getTerrainNormal_norm WL x z planet) as Hunit. cbv zeta in Hunit.
  set (n := getTerrainNormal WL x z planet) in *.
  pose proof (Rle_0_sqr (vec_y n)). pose proof (Rle_0_sqr (vec_z n)).
  unfold Rsqr in *. split; nra.
Qed.

(** X8. When the length of [norm] is a number the four samples are
    numbers, the returned vector is the vector of the differences
    divided by that length, and it has unit length (in the arithmetic of
    the reals), a positive y-component and every component within
    [[-1, 1]]; when the length is [Infinity] the returned y-component is 0
    and the other two are 0 or [NaN]; when it is [NaN] so is every
    component. *)
Theorem normal_is_unit :
  forall (hL hR hD hU : JSNumber),
    let normal := normalOfSamples hL hR hD hU in
    let len := lenOfNorm (normOfSamples hL hR hD hU) in
    (forall l, len = Num l ->
       exists a b c d,
         hL = Num a /\ hR = Num b /\ hD = Num c /\ hU = Num d
         /\ l = sqrt ((a - b) * (a - b) + 16 + (c - d) * (c - d))
         /\ normal
            = mkJSVec3 (Num ((a - b) / l)) (Num (4 / l)) (Num ((c - d) / l))
         /\ (a - b) / l * ((a - b) / l) + 4 / l * (4 / l)
            + (c - d) / l * ((c - d) / l) = 1
         /\ -1 <= (a - b) / l <= 1 /\ 0 < 4 / l <= 1
         /\ -1 <= (c - d) / l <= 1)
    /\ (len = Infinity ->
        js_y normal = Num 0
        /\ (js_x normal = Num 0 \/ js_x normal = NaN)
        /\ (js_z normal = Num 0 \/ js_z normal = NaN))
    /\ (len = NaN -> normal = mkJSVec3 NaN NaN NaN).
Proof.
  intros hL hR hD hU normal len.
  assert (Hn : normal
               = mkJSVec3 (js_div (js_sub hL hR) len) (js_div (Num 4) len)
                          (js_div (js_sub hD hU) len))
    by apply normalOfSamples_components.
  assert (Hcases := lenOfNorm_cases (js_sub hL hR) (js_sub hD hU)).
  cbv zeta in Hcases. rewrite <- normOfSamples_eq in Hcases.
  fold len in Hcases.
  split; [| split].
  - intros l Hl.
    destruct Hcases as [(a' & c' & Ha & Hc & Hfit & E) | [[E _] | [E _]]];
      rewrite E in Hl; try discriminate.
    injection Hl as <-.
    pose proof Ha as Ha'. pose proof Hc as Hc'.
    apply js_sub_finite in Ha'. apply js_sub_finite in Hc'.
    destruct Ha' as (a & b & Ea & Eb & -> & _).
    destruct Hc' as (c & d & Ec & Ed & -> & _).
    pose proof (sqrt_sum_ge_4 (a - b) (c - d)) as H4.
    pose proof (sqrt_sum_ge_abs (a - b) (c - d)) as [Hax Hcx].
    pose proof (Rle_0_sqr (a - b)) as Ha2.
    pose proof (Rle_0_sqr (c - d)) as Hc2.
    unfold Rsqr in Ha2, Hc2.
    pose proof (sqrt_sqrt ((a - b) * (a - b) + 16 + (c - d) * (c - d))
                  ltac:(lra)) as Hsq.
    set (l := sqrt ((a - b) * (a - b) + 16 + (c - d) * (c - d))) in *.
    destruct (js_div_by_length (a - b) l H4 Hax) as [Ex Hxr].
    destruct (js_div_by_length (c - d) l H4 Hcx) as [Ez Hzr].
    destruct (js_div_by_length 4 l H4 ltac:(rewrite Rabs_pos_eq; lra))
      as [Ey Hyr].
    exists a, b, c, d.
    split; [exact Ea |]. split; [exact Eb |].
    split; [exact Ec |]. split; [exact Ed |].
    split; [reflexivity |].
    split; [rewrite Hn, E, Ha, Hc, Ex, Ey, Ez; reflexivity |].
    split.
    { replace ((a - b) / l * ((a - b) / l) + 4 / l * (4 / l)
               + (c - d) / l * ((c - d) / l))
        with (((a - b) * (a - b) + 16 + (c - d) * (c - d)) / (l * l))
        by (field; lra).
      rewrite Hsq. field. lra. }
    split; [exact Hxr |]. split; [| exact Hzr].
    split; [apply Rdiv_lt_0_compat; lra | apply Hyr].
  - intros Hl.
    destruct Hcases as [(a & c & _ & _ & _ & E) | [(_ & Hx & Hz & _) | [E _]]];
      try (rewrite E in Hl; discriminate).
    rewrite Hn, Hl. cbn [js_x js_y js_z].
    split; [reflexivity |].
    split.
    + destruct (js_sub hL hR); try (right; reflexivity);
        left; reflexivity.
    + destruct (js_sub hD hU); try (right; reflexivity);
        left; reflexivity.
  - intros Hl. rewrite Hn, Hl.
    destruct (js_sub hL hR), (js_sub hD hU); reflexivity.
Qed.

(** X9. The returned vector is (0, 1, 0) exactly when the four samples
    are numbers, the two lateral ones equal and the two longitudinal ones
    equal; equal infinite samples give [NaN], not the vertical. *)
Theorem normal_up_iff_level :
  forall (hL hR hD hU : JSNumber),
    (normalOfSamples hL hR hD hU = mkJSVec3 (Num 0) (Num 1) (Num 0)
     <-> exists a c, hL = Num a /\ hR = Num a /\ hD = Num c /\ hU = Num c)
    /\ normalOfSamples Infinity Infinity hD hU = mkJSVec3 NaN NaN NaN
    /\ normalOfSamples NegInfinity NegInfinity hD hU = mkJSVec3 NaN NaN NaN.
Proof.
  intros hL hR hD hU.
  pose proof MAX_VALUE_large as HM.
  split; [| split].
  - split.
    + intros Hup.
      assert (Hy : js_div (Num 4) (lenOfNorm (normOfSamples hL hR hD hU))
                   = Num 1).
      { rewrite normalOfSamples_components in Hup.
        injection Hup as _ Hy _. exact Hy. }
      assert (Hcases := lenOfNorm_cases (js_sub hL hR) (js_sub hD hU)).
      cbv zeta in Hcases. rewrite <- normOfSamples_eq in Hcases.
      destruct Hcases as [(a & c & Ha & Hc & Hfit & E) | [[E _] | [E _]]];
        rewrite E in Hy.
      * pose proof (sqrt_sum_ge_4 a c) as H4.
        pose proof (Rle_0_sqr a) as Ha2. pose proof (Rle_0_sqr c) as Hc2.
        unfold Rsqr in Ha2, Hc2.
        pose proof (sqrt_sqrt (a * a + 16 + c * c) ltac:(lra)) as Hsq.
        set (l := sqrt (a * a + 16 + c * c)) in *.
        destruct (js_div_by_length 4 l H4 ltac:(rewrite Rabs_pos_eq; lra))
          as [Ey _].
        rewrite Ey in Hy. injection Hy as Hy.
        assert (Hl : l = 4).
        { apply (Rmult_eq_compat_r l) in Hy.
          unfold Rdiv in Hy. rewrite Rmult_assoc, Rinv_l in Hy by lra. lra. }
        rewrite Hl in Hsq.
        assert (Ha0 : a = 0) by nra. assert (Hc0 : c = 0) by nra.
        subst a c.
        apply js_sub_finite in Ha. apply js_sub_finite in Hc.
        destruct Ha as (a0 & b0 & -> & -> & Eab & _).
        destruct Hc as (c0 & d0 & -> & -> & Ecd & _).
        exists a0, c0.
        replace b0 with a0 by lra. replace d0 with c0 by lra.
        repeat split.
      * cbn [js_div] in Hy. injection Hy as Hy. lra.
      * discriminate.
    + intros (a & c & -> & -> & -> & ->).
      assert (Hfit : (a - a) * (a - a) + 16 + (c - c) * (c - c) <= MAX_VALUE)
        by (replace ((a - a) * (a - a) + 16 + (c - c) * (c - c)) with 16
              by ring; lra).
      destruct (normalOfSamples_finite a a c c Hfit) as [_ ->].
      replace ((a - a) * (a - a) + 16 + (c - c) * (c - c)) with (4 * 4)
        by ring.
      rewrite sqrt_square by lra.
      f_equal; f_equal; lra.
  - rewrite normalOfSamples_components. rewrite normOfSamples_eq.
    cbn [js_sub]. rewrite lenOfNorm_NaN by (left; reflexivity).
    destruct (js_sub hD hU); reflexivity.
  - rewrite normalOfSamples_components. rewrite normOfSamples_eq.
    cbn [js_sub]. rewrite lenOfNorm_NaN by (left; reflexivity).
    destruct (js_sub hD hU); reflexivity.
Qed.

(** ** Steering *)

Lemma targetTurn_range (keys : Keys) : -1 <= targetTurn keys <= 1.
Proof.
  unfold targetTurn. destruct (key_a keys), (key_d keys); lra.
Qed.

Lemma inputX_range (keys : Keys) (dt : R) (st : PlayerRefs) :
  0 <= dt <= 0.05 ->
  -1 <= inputVector_x st <= 1 ->
  -1 <= inputX keys dt st <= 1.
Proof.
  intros [Hd0 Hd1] [Hi0 Hi1].
  pose proof (targetTurn_range keys) as [Ht0 Ht1].
  unfold inputX, lerp.
  set (t := dt * 6). assert (Ht : 0 <= t <= 1) by (unfold t; lra).
  pose proof (blend_between (inputVector_x st) (targetTurn keys) t (-1) 1
                ltac:(lra) ltac:(lra) Ht).
  lra.
Qed.

Lemma velX_steered_bound (WL : R) (planet : PlanetConfig) (keys : Keys)
  (dt : R) (st : PlayerRefs) :
  0 <= gravity planet -> 0 <= dt <= 0.05 -> steady planet st ->
  Rabs (velX_steered WL planet keys dt st) <= 25.3 + 84 * gravity planet.
Proof.
  intros Hg [Hd0 Hd1] [Hin Hv].
  pose proof (inputX_range keys dt st (conj Hd0 Hd1) Hin) as [Hi0 Hi1].
  pose proof (speedClamped_range keys dt st) as [Hs0 Hs1].
  unfold maxSpeed in Hs1.
  pose proof (getTerrainNormal_x_range WL (vec_x (position st))
                (vec_z (position st)) planet) as [Hg0 Hg1].
  fold (groundNormal WL planet st) in Hg0, Hg1.
  apply Rabs_le_between in Hv.
  unfold velX_steered.
  set (gx := vec_x (groundNormal WL planet st)) in *.
  set (i := inputX keys dt st) in *.
  set (sC := speedClamped keys dt st) in *.
  set (rate := (50 + sC * 0.1) * dt).
  assert (Hrate : 0 <= rate <= 3.45) by (unfold rate; nra).
  assert (Hsteer : -3.45 <= i * rate <= 3.45) by nra.
  set (pull := gravity planet * 200 * dt).
  assert (Hpull : 0 <= pull <= 10 * gravity planet) by (unfold pull; nra).
  assert (Hslope : - (10 * gravity planet) <= gx * pull
                   <= 10 * gravity planet) by nra.
  replace (i * (50 + sC * 0.1) * dt) with (i * rate) by (unfold rate; ring).
  replace (gx * gravity planet * 200 * dt) with (gx * pull)
    by (unfold pull; ring).
  apply Rabs_le. lra.
Qed.

Lemma useFrame_steady (WL : R) (planet : PlanetConfig) (gameState : GameState)
  (keys : Keys) (delta : R) (st : PlayerRefs) :
  0 <= gravity planet -> 0 <= delta -> steady planet st ->
  steady planet (res_refs (useFrame WL planet gameState keys delta st)).
Proof.
  intros Hg Hd Hst.
  destruct (reachesPhysics_dec WL gameState st) as [Hphys | Hidle].
  - rewrite useFrame_physics by assumption.
    pose proof (dt_range delta Hd) as Hdt.
    set (dt := Math_min delta 0.05) in *.
    pose proof (velX_steered_bound WL planet keys dt st Hg Hdt Hst) as Hv.
    unfold physicsLoop, steady.
    cbn [res_refs fst inputVector_x velocity vec_x].
    split; [apply inputX_range; [exact Hdt | apply Hst] |].
    destruct (wallHit WL planet keys dt st); [| exact Hv].
    apply Rabs_le_between in Hv. apply Rabs_le. lra.
  - rewrite useFrame_idle by assumption. exact Hst.
Qed.

Lemma runFrames_steady (WL : R) (planet : PlanetConfig) (frames : list Frame) :
  0 <= gravity planet ->
  Forall (fun f => 0 <= frame_delta f) frames ->
  forall gameState st,
    steady planet st ->
    Forall (fun r => steady planet (res_refs r))
           (runFrames WL planet gameState st frames).
Proof.
  intros Hg Hframes. induction Hframes as [| f rest Hf _ IH];
    intros gameState st Hst; cbn [runFrames]; constructor.
  - apply useFrame_steady; assumption.
  - apply IH. apply useFrame_steady; assumption.
Qed.

Lemma spawn_steady (WL : R) (planet : PlanetConfig) :
  0 <= gravity planet -> steady planet (spawn WL planet).
Proof.
  intros Hg. unfold steady, spawn. cbn [inputVector_x velocity vec_x].
  rewrite Rabs_R0. lra.
Qed.

Lemma runFrames_input_range (WL : R) (planet : PlanetConfig)
  (frames : list Frame) :
  Forall (fun f => 0 <= frame_delta f) frames ->
  forall gameState st,
    -1 <= inputVector_x st <= 1 ->
    Forall (fun r => -1 <= inputVector_x (res_refs r) <= 1)
           (runFrames WL planet gameState st frames).
Proof.
  assert (Hstep : forall gameState keys delta st,
             0 <= delta -> -1 <= inputVector_x st <= 1 ->
             -1 <= inputVector_x
                     (res_refs (useFrame WL planet gameState keys delta st))
             <= 1).
  { intros gameState keys delta st Hd Hst.
    destruct (reachesPhysics_dec WL gameState st) as [Hphys | Hidle].
    - rewrite useFrame_physics by assumption.
      unfold physicsLoop. cbn [res_refs fst inputVector_x].
      apply inputX_range; [apply dt_range |]; assumption.
    - rewrite useFrame_idle by assumption. exact Hst. }
  intros Hframes. induction Hframes as [| f rest Hf _ IH];
    intros gameState st Hst; cbn [runFrames]; constructor.
  - apply Hstep; assumption.
  - apply IH. apply Hstep; assumption.
Qed.



(** X11. The lateral velocity is bounded at the end of every frame of
    every run from the spawn state: its magnitude never exceeds
    25.3 + 84 * gravity, wall responses included. *)
Theorem lateral_velocity_bounded :
  forall (WL : R) (planet : PlanetConfig) (gameState : GameState)
         (frames : list Frame),
    0 <= gravity planet ->
    Forall (fun f => 0 <= frame_delta f) frames ->
    Forall (fun r => Rabs (vec_x (velocity (res_refs r)))
                     <= 25.3 + 84 * gravity planet)
           (runFrames WL planet gameState (spawn WL planet) frames).
Proof.
  intros WL planet gameState frames Hg Hframes.
  pose proof (runFrames_steady WL planet frames Hg Hframes gameState
                (spawn WL planet) (spawn_steady WL planet Hg)) as Hrun.
  eapply Forall_impl; [| exact Hrun].
  intros r [_ Hv]. exact Hv.
Qed.

Lemma lateral_velocity_bounded_witness :
  Forall (fun r => Rabs (vec_x (velocity (res_refs r)))
                   <= 25.3 + 84 * gravity iceRidge)
    (runFrames sampleWorldLength iceRidge PLAYING
       (spawn sampleWorldLength iceRidge)
       [mkFrame (mkKeys true true false false false) 0.016;
        mkFrame (mkKeys false false false true false) 0.2]).
Proof.
  apply (lateral_velocity_bounded sampleWorldLength iceRidge PLAYING
           [mkFrame (mkKeys true true false false false) 0.016;
            mkFrame (mkKeys false false false true false) 0.2]).
  - simpl. lra.
  - repeat constructor; simpl; lra.
Defined.

(** ** The finish line and the idle states *)

Lemma useFrame_z_bound (WL : R) (planet : PlanetConfig) (gameState : GameState)
  (keys : Keys) (delta : R) (st : PlayerRefs) :
  0 <= gravity planet -> 0 <= delta ->
  vec_z (position st) <= WL / 2 - 290 + 0.25 * gravity planet ->
  vec_z (position (res_refs (useFrame WL planet gameState keys delta st)))
  <= WL / 2 - 290 + 0.25 * gravity planet.
Proof.
  intros Hg Hd Hst.
  destruct (reachesPhysics_dec WL gameState st) as [Hphys | Hidle].
  - rewrite useFrame_physics by assumption.
    pose proof (dt_range delta Hd) as Hdt.
    set (dt := Math_min delta 0.05) in *.
    pose proof (speedBoosted_range WL planet keys dt st Hg Hdt) as [Hs0 Hs1].
    unfold maxSpeed in Hs1. destruct Hphys as [_ Hz].
    unfold physicsLoop, nextPos. cbn [res_refs fst position vec_z].
    set (sB := speedBoosted WL planet keys dt st) in *.
    assert ((sB + 10) * dt <= (200 + 5 * gravity planet) * 0.05) by nra.
    lra.
  - rewrite useFrame_idle by assumption. exact Hst.
Qed.

(** X12. The player is stopped at the finish line: in every run from the
    spawn state on a track of length at least 500, z never exceeds the
    finish threshold [WORLD_LENGTH / 2 - 300] by more than one frame's
    advance, [10 + 0.25 * gravity]; for a gravity of at most 100 the
    player therefore never reaches the rover at
    [WORLD_LENGTH / 2 - 150]. *)
Theorem finish_overshoot_bounded :
  forall (WL : R) (planet : PlanetConfig) (gameState : GameState)
         (frames : list Frame),
    500 <= WL ->
    0 <= gravity planet ->
    Forall (fun f => 0 <= frame_delta f) frames ->
    Forall (fun r =>
              vec_z (position (res_refs r))
              <= WL / 2 - 300 + (10 + 0.25 * gravity planet)
              /\ (gravity planet <= 100 ->
                  vec_z (position (res_refs r)) < roverZ WL))
           (runFrames WL planet gameState (spawn WL planet) frames).
Proof.
  intros WL planet gameState frames HWL Hg Hframes.
  assert (Hrun : forall gs st,
             vec_z (position st) <= WL / 2 - 290 + 0.25 * gravity planet ->
             Forall (fun r => vec_z (position (res_refs r))
                              <= WL / 2 - 290 + 0.25 * gravity planet)
                    (runFrames WL planet gs st frames)).
  { induction Hframes as [| f rest Hf _ IH]; intros gs st Hst;
      cbn [runFrames]; constructor.
    - apply useFrame_z_bound; assumption.
    - apply IH. apply useFrame_z_bound; assumption. }
  assert (Hspawn : vec_z (position (spawn WL planet))
                   <= WL / 2 - 290 + 0.25 * gravity planet).
  { unfold spawn, startZ. cbn [position vec_z]. lra. }
  eapply Forall_impl; [| exact (Hrun gameState (spawn WL planet) Hspawn)].
  intros r Hr. cbv beta in Hr. unfold roverZ. split; [lra | intros; lra].
Qed.

Lemma finish_overshoot_bounded_witness :
  Forall (fun r =>
            vec_z (position (res_refs r))
            <= sampleWorldLength / 2 - 300 + (10 + 0.25 * gravity iceRidge)
            /\ (gravity iceRidge <= 100 ->
                vec_z (position (res_refs r)) < roverZ sampleWorldLength))
    (runFrames sampleWorldLength iceRidge PLAYING
       (spawn sampleWorldLength iceRidge)
       [mkFrame throttle 0.016; mkFrame throttle 0.05]).
Proof.
  apply (finish_overshoot_bounded sampleWorldLength iceRidge PLAYING
           [mkFrame throttle 0.016; mkFrame throttle 0.05]).
  - unfold sampleWorldLength. lra.
  - simpl. lra.
  - repeat constructor; simpl; lra.
Defined.

Lemma runFrames_frozen (WL : R) (planet : PlanetConfig) (gameState : GameState)
  (st : PlayerRefs) (frames : list Frame) :
  gameState <> PLAYING ->
  Forall (fun r => res_gameState r = gameState /\ res_refs r = st
                   /\ res_audio r = [])
         (runFrames WL planet gameState st frames).
Proof.
  intros Hgs. induction frames as [| f rest IH]; cbn [runFrames];
    constructor.
  - destruct gameState; try contradiction; repeat split; reflexivity.
  - assert (Hr : useFrame WL planet gameState (frame_keys f) (frame_delta f) st
                 = mkResult gameState st [])
      by (destruct gameState; try contradiction; reflexivity).
    rewrite Hr. cbn [res_gameState res_refs]. exact IH.
Qed.

(** X13. Outside the PLAYING state the callback does nothing: in the
    menu, paused, finished and crashed states every frame leaves the game
    state and the physics refs as they are and makes no audio call,
    whatever the keys and the frame time. *)
Theorem frames_outside_play_freeze :
  forall (WL : R) (planet : PlanetConfig) (gameState : GameState)
         (st : PlayerRefs) (frames : list Frame),
    gameState <> PLAYING ->
    Forall (fun r => res_gameState r = gameState /\ res_refs r = st
                     /\ res_audio r = [])
           (runFrames WL planet gameState st frames).
Proof. exact runFrames_frozen. Qed.

Lemma frames_outside_play_freeze_witness :
  Forall (fun r => res_gameState r = PAUSED
                   /\ res_refs r = spawn sampleWorldLength iceRidge
                   /\ res_audio r = [])
    (runFrames sampleWorldLength iceRidge PAUSED
       (spawn sampleWorldLength iceRidge)
       [mkFrame throttle 0.016; mkFrame jumpHeld 0.05]).
Proof.
  apply (frames_outside_play_freeze sampleWorldLength iceRidge PAUSED).
  discriminate.
Defined.

Lemma runFrames_length (WL : R) (planet : PlanetConfig) (frames : list Frame) :
  forall gameState st,
    length (runFrames WL planet gameState st frames) = length frames.
Proof.
  induction frames as [| f rest IH]; intros gameState st; cbn [runFrames length];
    [reflexivity | rewrite IH; reflexivity].
Qed.

Lemma frozen_states (gameState : GameState) (st : PlayerRefs)
  (results : list FrameResult) :
  Forall (fun r => res_gameState r = gameState /\ res_refs r = st
                   /\ res_audio r = []) results ->
  map res_gameState results = repeat gameState (length results).
Proof.
  intros H. induction H as [| r l [Hg _] _ IH]; cbn [map length repeat];
    [reflexivity | rewrite Hg, IH; reflexivity].
Qed.

(** X14. A run that starts in the PLAYING state is a block of PLAYING
    frames followed by FINISHED frames only, and from the first FINISHED
    frame on the physics refs no longer change. *)
Theorem finish_is_absorbing :
  forall (WL : R) (planet : PlanetConfig) (frames : list Frame)
         (st : PlayerRefs),
    exists n : nat,
      (n <= length frames)%nat
      /\ map res_gameState (runFrames WL planet PLAYING st frames)
         = repeat PLAYING n ++ repeat FINISHED (length frames - n)
      /\ (forall r r',
            In r (skipn n (runFrames WL planet PLAYING st frames)) ->
            In r' (skipn n (runFrames WL planet PLAYING st frames)) ->
            res_refs r = res_refs r').
Proof.
  intros WL planet frames. induction frames as [| f rest IH]; intros st.
  - exists 0%nat. cbn. repeat split; [lia | intros r r' []].
  - destruct (reachesPhysics_dec WL PLAYING st) as [Hphys | Hidle].
    + destruct (IH (res_refs (useFrame WL planet PLAYING (frame_keys f)
                                (frame_delta f) st)))
        as (n & Hn & Hmap & Hrefs).
      exists (S n). cbn [runFrames length map skipn repeat app Nat.sub].
      assert (Hgs : res_gameState (useFrame WL planet PLAYING (frame_keys f)
                                     (frame_delta f) st) = PLAYING)
        by (rewrite useFrame_physics by assumption; reflexivity).
      rewrite Hgs. rewrite Hmap.
      split; [lia |]. split; [reflexivity | exact Hrefs].
    + exists 0%nat.
      assert (Hr : useFrame WL planet PLAYING (frame_keys f) (frame_delta f) st
                   = mkResult FINISHED st [updatePlayerState 0 false false 0]).
      { unfold useFrame.
        destruct (Rgt_dec (vec_z (position st)) (WL / 2 - 300));
          [reflexivity |].
        exfalso. apply Hidle. split; [reflexivity | assumption]. }
      cbn [runFrames]. rewrite Hr. cbn [res_gameState res_refs].
      pose proof (runFrames_frozen WL planet FINISHED st rest
                    ltac:(discriminate)) as Hfrozen.
      split; [lia |]. split.
      * cbn [map repeat app length Nat.sub res_gameState]. f_equal.
        rewrite (frozen_states FINISHED st _ Hfrozen), runFrames_length.
        reflexivity.
      * cbn [skipn].
        assert (Hall : forall r,
                   In r (mkResult FINISHED st
                           [updatePlayerState 0 false false 0]
                         :: runFrames WL planet FINISHED st rest) ->
                   res_refs r = st).
        { intros r [<- | Hin]; [reflexivity |].
          rewrite Forall_forall in Hfrozen. apply (Hfrozen r Hin). }
        intros r r' Hr1 Hr2. rewrite (Hall r Hr1), (Hall r' Hr2). reflexivity.
Qed.

(** ** Vertical motion *)

Lemma physicsLoop_audio_jump (WL : R) (planet : PlanetConfig) (keys : Keys)
  (dt : R) (st : PlayerRefs) :
  In triggerJump (snd (physicsLoop WL planet keys dt st))
  <-> jumpFires WL planet keys st = true.
Proof.
  unfold physicsLoop. cbn [snd]. rewrite !in_app_iff. split.
  - intros [Hland | [Hjump | Hupd]].
    + unfold landingSound in Hland.
      destruct (isGrounded WL planet st && negb (wasGrounded st)
                && Rlt_b (vec_y (velocity st)) (-5));
        [destruct Hland as [H | []]; discriminate | contradiction].
    + destruct (jumpFires WL planet keys st); [reflexivity |].
      contradiction.
    + destruct Hupd as [H | []]. discriminate.
  - intros Hj. right. left. rewrite Hj. left. reflexivity.
Qed.

Lemma physicsLoop_audio_land (WL : R) (planet : PlanetConfig) (keys : Keys)
  (dt : R) (st : PlayerRefs) (v : R) :
  In (triggerLand v) (snd (physicsLoop WL planet keys dt st))
  <-> (isGrounded WL planet st = true /\ wasGrounded st = false
       /\ vec_y (velocity st) < -5 /\ v = Rabs (vec_y (velocity st))).
Proof.
  unfold physicsLoop. cbn [snd]. rewrite !in_app_iff. unfold landingSound.
  split.
  - intros [Hland | [Hjump | Hupd]].
    + destruct (isGrounded WL planet st); [| contradiction].
      destruct (wasGrounded st); [contradiction |].
      cbn [negb andb] in Hland.
      destruct (Rlt_b (vec_y (velocity st)) (-5)) eqn:Hv; [| contradiction].
      apply Rlt_b_true in Hv.
      destruct Hland as [H | []]. injection H as <-.
      repeat split; try reflexivity; exact Hv.
    + destruct (jumpFires WL planet keys st); [| contradiction].
      destruct Hjump as [H | []]. discriminate.
    + destruct Hupd as [H | []]. discriminate.
  - intros (Hg & Hw & Hv & ->). left.
    rewrite Hg, Hw. cbn [negb andb].
    apply Rlt_b_true in Hv. rewrite Hv. left. reflexivity.
Qed.

(** X15. The jump is called exactly on the frames that reach the physics
    loop with the jump key held and a clearance below hover target + 0.5
    = 1.5: the grounded test of the guard adds nothing, and no jump can
    start in the air. *)
Theorem jump_iff_key_and_clearance :
  forall (WL : R) (planet : PlanetConfig) (gameState : GameState)
         (keys : Keys) (delta : R) (st : PlayerRefs),
    reachesPhysics WL gameState st ->
    (In triggerJump (res_audio (useFrame WL planet gameState keys delta st))
     <-> key_space keys = true
         /\ vec_y (position st)
            - getTerrainHeight WL (vec_x (position st)) (vec_z (position st))
                planet < 1.5).
Proof.
  intros WL planet gameState keys delta st Hphys.
  rewrite useFrame_physics by assumption. cbn [res_audio].
  rewrite physicsLoop_audio_jump. unfold jumpFires, isGrounded.
  fold (terrainHeight WL planet st). fold (currentHeight WL planet st).
  unfold HOVER_TARGET. rewrite !andb_true_iff, !Rlt_b_true. split.
  - intros [[Hs _] Hc]. split; [exact Hs | lra].
  - intros [Hs Hc]. repeat split; [exact Hs | lra | lra].
Qed.

Lemma jump_iff_key_and_clearance_witness :
  In triggerJump
     (res_audio (useFrame sampleWorldLength iceRidge PLAYING jumpHeld 0.016
                   (descending sampleWorldLength iceRidge)))
  <-> key_space jumpHeld = true
      /\ vec_y (position (descending sampleWorldLength iceRidge))
         - getTerrainHeight sampleWorldLength
             (vec_x (position (descending sampleWorldLength iceRidge)))
             (vec_z (position (descending sampleWorldLength iceRidge)))
             iceRidge < 1.5.
Proof.
  apply (jump_iff_key_and_clearance sampleWorldLength iceRidge PLAYING
           jumpHeld 0.016 (descending sampleWorldLength iceRidge)).
  split; [reflexivity |].
  unfold descending, startZ, sampleWorldLength. cbn [position vec_z]. lra.
Defined.

(** X16. With a clearance of 4 or more the player is in free fall: the
    frame calls neither the jump nor the landing sound, whatever the
    keys, and unless the ground clamp fires the vertical velocity changes
    by exactly [- 50 * gravity * dt]. *)
Theorem free_fall_above_hover_range :
  forall (WL : R) (planet : PlanetConfig) (gameState : GameState)
         (keys : Keys) (delta : R) (st : PlayerRefs),
    reachesPhysics WL gameState st ->
    4 <= vec_y (position st)
         - getTerrainHeight WL (vec_x (position st)) (vec_z (position st))
             planet ->
    let dt := Math_min delta 0.05 in
    let r := useFrame WL planet gameState keys delta st in
    ~ In triggerJump (res_audio r)
    /\ (forall v, ~ In (triggerLand v) (res_audio r))
    /\ vec_y (velocity (res_refs r))
       = if penetrates WL planet keys dt st then 0
         else vec_y (velocity st) - 50 * gravity planet * dt.
Proof.
  intros WL planet gameState keys delta st Hphys Hc dt r. subst r.
  rewrite useFrame_physics by assumption. fold dt. cbn [res_audio res_refs].
  fold (terrainHeight WL planet st) in Hc.
  fold (currentHeight WL planet st) in Hc.
  assert (Hground : isGrounded WL planet st = false).
  { unfold isGrounded. apply Rlt_b_false. unfold HOVER_TARGET. lra. }
  assert (Hjump : jumpFires WL planet keys st = false).
  { unfold jumpFires. rewrite Hground, andb_false_r. reflexivity. }
  split; [| split].
  - rewrite physicsLoop_audio_jump, Hjump. discriminate.
  - intros v. rewrite physicsLoop_audio_land, Hground.
    intros [H _]. discriminate.
  - unfold physicsLoop. cbn [fst velocity vec_y].
    destruct (penetrates WL planet keys dt st); [reflexivity |].
    unfold velY_integrated, velY_jump, forceY. rewrite Hjump.
    destruct (Rlt_dec (currentHeight WL planet st) (HOVER_TARGET + 3.0))
      as [Hlow | _]; [unfold HOVER_TARGET in Hlow; lra |].
    unfold MASS. lra.
Qed.

Lemma free_fall_above_hover_range_witness :
  ~ In triggerJump
       (res_audio (useFrame sampleWorldLength iceRidge PLAYING jumpHeld 0.016
                     (spawn sampleWorldLength iceRidge))).
Proof.
  apply (free_fall_above_hover_range sampleWorldLength iceRidge PLAYING
           jumpHeld 0.016 (spawn sampleWorldLength iceRidge)).
  - apply spawn_reachesPhysics.
  - unfold spawn, initialSpawnHeight. cbn [position vec_x vec_y vec_z]. lra.
Defined.

(** X17. The landing sound marks the passage from airborne to grounded:
    a frame that calls it comes down faster than 5 (the reported impact
    is the vertical speed, above 5) and records the player as grounded,
    so the frame after it never calls it again. *)
Theorem landing_sound_once :
  forall (WL : R) (planet : PlanetConfig) (gameState : GameState)
         (keys : Keys) (delta : R) (st : PlayerRefs) (impact : R),
    reachesPhysics WL gameState st ->
    In (triggerLand impact)
       (res_audio (useFrame WL planet gameState keys delta st)) ->
    let r := useFrame WL planet gameState keys delta st in
    5 < impact
    /\ impact = - vec_y (velocity st)
    /\ wasGrounded (res_refs r) = true
    /\ (forall keys' delta' impact',
          ~ In (triggerLand impact')
               (res_audio (useFrame WL planet (res_gameState r) keys' delta'
                             (res_refs r)))).
Proof.
  intros WL planet gameState keys delta st impact Hphys Hin r. subst r.
  revert Hin. rewrite useFrame_physics by assumption.
  cbn [res_audio res_refs res_gameState].
  rewrite physicsLoop_audio_land. intros (Hg & Hw & Hv & ->).
  assert (Hwas : wasGrounded
                   (fst (physicsLoop WL planet keys (Math_min delta 0.05) st))
                 = true) by exact Hg.
  split; [rewrite Rabs_left by lra; lra |].
  split; [apply Rabs_left; lra |].
  split; [exact Hwas |].
  intros keys' delta' impact' Hin'.
  set (st' := fst (physicsLoop WL planet keys (Math_min delta 0.05) st)) in *.
  destruct (reachesPhysics_dec WL PLAYING st') as [Hphys' | Hidle'].
  - rewrite useFrame_physics in Hin' by assumption. cbn [res_audio] in Hin'.
    apply physicsLoop_audio_land in Hin'. destruct Hin' as (_ & Hw' & _).
    rewrite Hwas in Hw'. discriminate.
  - unfold useFrame in Hin'.
    destruct (Rgt_dec (vec_z (position st')) (WL / 2 - 300)) as [Hz | Hz].
    + cbn [res_audio] in Hin'. destruct Hin' as [H | []]. discriminate.
    + apply Hidle'. split; [reflexivity | exact Hz].
Qed.

Lemma landing_sound_once_witness :
  let r := useFrame sampleWorldLength iceRidge PLAYING noKeys 0.016
             (descending sampleWorldLength iceRidge) in
  5 < 10
  /\ 10 = - vec_y (velocity (descending sampleWorldLength iceRidge))
  /\ wasGrounded (res_refs r) = true
  /\ (forall keys' delta' impact',
        ~ In (triggerLand impact')
             (res_audio (useFrame sampleWorldLength iceRidge (res_gameState r)
                           keys' delta' (res_refs r)))).
Proof.
  assert (Hphys : reachesPhysics sampleWorldLength PLAYING
                    (descending sampleWorldLength iceRidge)).
  { split; [reflexivity |].
    unfold descending, startZ, sampleWorldLength. cbn [position vec_z]. lra. }
  apply (landing_sound_once sampleWorldLength iceRidge PLAYING noKeys 0.016
           (descending sampleWorldLength iceRidge) 10 Hphys).
  rewrite useFrame_physics by exact Hphys. cbn [res_audio].
  apply physicsLoop_audio_land.
  unfold descending at 2 3 4. cbn [wasGrounded velocity vec_y].
  repeat split; try lra.
  - unfold isGrounded, currentHeight, terrainHeight, descending.
    cbn [position vec_x vec_y vec_z]. apply Rlt_b_true.
    unfold HOVER_TARGET. lra.
  - rewrite Rabs_left; lra.
Defined.

(** X18. When the ground clamp fires and the wall response does not, the
    frame leaves the player exactly 0.5 above the surface under the
    committed position with no vertical velocity, so the next frame
    finds it grounded with a clearance of 0.5, inside the jump band. *)
Theorem ground_clamp_rests_on_surface :
  forall (WL : R) (planet : PlanetConfig) (gameState : GameState)
         (keys : Keys) (delta : R) (st : PlayerRefs),
    reachesPhysics WL gameState st ->
    penetrates WL planet keys (Math_min delta 0.05) st = true ->
    wallHit WL planet keys (Math_min delta 0.05) st = false ->
    let st' := res_refs (useFrame WL planet gameState keys delta st) in
    vec_y (position st')
    = getTerrainHeight WL (vec_x (position st')) (vec_z (position st')) planet
      + 0.5
    /\ vec_y (velocity st') = 0
    /\ currentHeight WL planet st' = 0.5
    /\ isGrounded WL planet st' = true
    /\ (forall keys', key_space keys' = true ->
                      jumpFires WL planet keys' st' = true).
Proof.
  intros WL planet gameState keys delta st Hphys Hpen Hwall st'.
  assert (Hy : vec_y (position st')
               = getTerrainHeight WL (vec_x (position st'))
                   (vec_z (position st')) planet + 0.5).
  { subst st'. rewrite useFrame_physics by assumption.
    unfold physicsLoop. cbn [res_refs fst position vec_x vec_y vec_z].
    rewrite Hpen, Hwall. reflexivity. }
  assert (Hcur : currentHeight WL planet st' = 0.5).
  { unfold currentHeight, terrainHeight. lra. }
  assert (Hground : isGrounded WL planet st' = true).
  { unfold isGrounded. apply Rlt_b_true. rewrite Hcur.
    unfold HOVER_TARGET. lra. }
  split; [exact Hy |]. split; [| split; [exact Hcur | split]].
  - subst st'. rewrite useFrame_physics by assumption.
    unfold physicsLoop. cbn [res_refs fst velocity vec_y].
    rewrite Hpen. reflexivity.
  - exact Hground.
  - intros keys' Hspace. unfold jumpFires. rewrite Hspace, Hground.
    cbn [andb]. apply Rlt_b_true. rewrite Hcur. unfold HOVER_TARGET. lra.
Qed.

Lemma ground_clamp_rests_on_surface_witness :
  let st' := res_refs (useFrame sampleWorldLength iceRidge PLAYING noKeys 0
                         (sunk sampleWorldLength iceRidge)) in
  vec_y (position st')
  = getTerrainHeight sampleWorldLength (vec_x (position st'))
      (vec_z (position st')) iceRidge + 0.5
  /\ vec_y (velocity st') = 0.
Proof.
  assert (Hdt : Math_min 0 0.05 = 0) by (apply Rmin_left; lra).
  assert (Hnth : nextTerrainHeight sampleWorldLength iceRidge noKeys 0
                   (sunk sampleWorldLength iceRidge)
                 = vec_y (position (sunk sampleWorldLength iceRidge))).
  { unfold nextTerrainHeight. rewrite nextPos_still. reflexivity. }
  destruct (ground_clamp_rests_on_surface sampleWorldLength iceRidge PLAYING
              noKeys 0 (sunk sampleWorldLength iceRidge))
    as (Hy & Hv & _).
  - split; [reflexivity |].
    unfold sunk, startZ, sampleWorldLength. cbn [position vec_z]. lra.
  - rewrite Hdt. unfold penetrates. apply Rlt_b_true.
    rewrite Hnth, nextPos_still. lra.
  - rewrite Hdt. unfold wallHit. apply Rlt_b_false. rewrite Hnth. lra.
  - split; [exact Hy | exact Hv].
Defined.

(** ** The reset effect *)

(** X19. Entering the menu resets the player whatever happened before:
    position, velocity and speed are those of the spawn state, the
    clearance is exactly 5, and resetting twice is resetting once.  The
    smoothed steering input, the grounded flag and the frame count are
    not reset, and no other game state resets anything. *)
Theorem reset_restores_spawn :
  forall (WL : R) (planet : PlanetConfig) (st : PlayerRefs),
    let st' := resetEffect WL planet MENU st in
    position st' = position (spawn WL planet)
    /\ velocity st' = velocity (spawn WL planet)
    /\ speed st' = speed (spawn WL planet)
    /\ currentHeight WL planet st' = 5
    /\ isGrounded WL planet st' = false
    /\ resetEffect WL planet MENU st' = st'
    /\ (inputVector_x st' = inputVector_x st
        /\ wasGrounded st' = wasGrounded st
        /\ frameCount st' = frameCount st)
    /\ (forall gameState, gameState <> MENU ->
                          resetEffect WL planet gameState st = st).
Proof.
  intros WL planet st st'. subst st'.
  assert (Hcur : currentHeight WL planet (resetEffect WL planet MENU st) = 5).
  { unfold currentHeight, terrainHeight, resetEffect, initialSpawnHeight.
    cbn [position vec_x vec_y vec_z]. lra. }
  repeat split; try reflexivity.
  - exact Hcur.
  - unfold isGrounded. apply Rlt_b_false. rewrite Hcur.
    unfold HOVER_TARGET. lra.
  - intros gameState Hgs. destruct gameState; try reflexivity. contradiction.
Qed.

(** ** The key handlers *)

Lemma toLowerAscii_idempotent (c : Ascii.ascii) :
  toLowerAscii (toLowerAscii c) = toLowerAscii c.
Proof.
  destruct c as [[] [] [] [] [] [] [] []]; reflexivity.
Qed.

Lemma toLowerCase_idempotent (s : String.string) :
  toLowerCase (toLowerCase s) = toLowerCase s.
Proof.
  induction s as [| c rest IH]; cbn [toLowerCase]; [reflexivity |].
  rewrite toLowerAscii_idempotent, IH. reflexivity.
Qed.

Lemma assignKey_flags (value : bool) (k : String.string) (keys : Keys) :
  key_w (assignKey value k keys)
  = (if String.eqb k "w"%string || String.eqb k "arrowup"%string
     then value else key_w keys)
  /\ key_s (assignKey value k keys)
     = (if String.eqb k "s"%string || String.eqb k "arrowdown"%string
        then value else key_s keys)
  /\ key_a (assignKey value k keys)
     = (if String.eqb k "a"%string || String.eqb k "arrowleft"%string
        then value else key_a keys)
  /\ key_d (assignKey value k keys)
     = (if String.eqb k "d"%string || String.eqb k "arrowright"%string
        then value else key_d keys)
  /\ key_space (assignKey value k keys)
     = (if String.eqb k " "%string then value else key_space keys).
Proof.
  unfold assignKey.
  generalize (String.eqb k "w"%string || String.eqb k "arrowup"%string).
  generalize (String.eqb k "s"%string || String.eqb k "arrowdown"%string).
  generalize (String.eqb k "a"%string || String.eqb k "arrowleft"%string).
  generalize (String.eqb k "d"%string || String.eqb k "arrowright"%string).
  generalize (String.eqb k " "%string).
  intros bsp bd ba bs bw. destruct keys as [w a s d sp].
  destruct bw, bs, ba, bd, bsp; cbn; repeat split; reflexivity.
Qed.

Lemma Keys_ext (k1 k2 : Keys) :
  key_w k1 = key_w k2 -> key_a k1 = key_a k2 -> key_s k1 = key_s k2 ->
  key_d k1 = key_d k2 -> key_space k1 = key_space k2 -> k1 = k2.
Proof.
  destruct k1, k2. cbn. intros -> -> -> -> ->. reflexivity.
Qed.

Lemma assignKey_false_after (value : bool) (k : String.string) (keys : Keys) :
  assignKey false k (assignKey value k keys) = assignKey false k keys.
Proof.
  destruct (assignKey_flags false k (assignKey value k keys))
    as (Hw & Hs & Ha & Hd & Hsp).
  destruct (assignKey_flags value k keys) as (Iw & Is & Ia & Id & Isp).
  destruct (assignKey_flags false k keys) as (Jw & Js & Ja & Jd & Jsp).
  apply Keys_ext.
  - rewrite Hw, Jw, Iw. clear. destruct (_ || _); reflexivity.
  - rewrite Ha, Ja, Ia. clear. destruct (_ || _); reflexivity.
  - rewrite Hs, Js, Is. clear. destruct (_ || _); reflexivity.
  - rewrite Hd, Jd, Id. clear. destruct (_ || _); reflexivity.
  - rewrite Hsp, Jsp, Isp. clear. destruct (String.eqb _ _); reflexivity.
Qed.

Lemma assignKey_false_within (k : String.string) (keys : Keys) :
  keysWithin (assignKey false k keys) keys.
Proof.
  destruct (assignKey_flags false k keys) as (Jw & Js & Ja & Jd & Jsp).
  unfold keysWithin. rewrite Jw, Js, Ja, Jd, Jsp.
  repeat split;
    match goal with
    | |- (if ?b then _ else _) = true -> _ =>
        destruct b; [discriminate | exact (fun H => H)]
    end.
Qed.

Lemma assignKey_true_within (k : String.string) (keys : Keys) :
  keysWithin keys (assignKey true k keys).
Proof.
  destruct (assignKey_flags true k keys) as (Jw & Js & Ja & Jd & Jsp).
  unfold keysWithin. rewrite Jw, Js, Ja, Jd, Jsp.
  repeat split;
    match goal with
    | |- _ -> (if ?b then _ else _) = true =>
        destruct b; [reflexivity | exact (fun H => H)]
    end.
Qed.

(** X20. Releasing a key undoes pressing it, in whatever game state the
    press arrived: after key up the refs of the keys are what key up
    alone would have left, releasing twice is releasing once, and the
    release holds no key that was not held before. *)
Theorem key_release_undoes_press :
  forall (gameState : GameState) (key : String.string) (keys : Keys),
    handleKeyUp key (handleKeyDown gameState key keys) = handleKeyUp key keys
    /\ handleKeyUp key (handleKeyUp key keys) = handleKeyUp key keys
    /\ keysWithin (handleKeyUp key keys) keys.
Proof.
  intros gameState key keys. split; [| split].
  - unfold handleKeyDown, handleKeyUp.
    destruct gameState; try reflexivity. apply assignKey_false_after.
  - unfold handleKeyUp. apply assignKey_false_after.
  - unfold handleKeyUp. apply assignKey_false_within.
Qed.

(** X21. A key press is ignored unless the game is in the PLAYING state;
    when it is taken, the case of the letter does not matter and no key
    that was held is dropped. *)
Theorem key_press_gated_and_monotone :
  forall (gameState : GameState) (key : String.string) (keys : Keys),
    (gameState <> PLAYING -> handleKeyDown gameState key keys = keys)
    /\ handleKeyDown gameState (toLowerCase key) keys
       = handleKeyDown gameState key keys
    /\ handleKeyUp (toLowerCase key) keys = handleKeyUp key keys
    /\ keysWithin keys (handleKeyDown gameState key keys).
Proof.
  intros gameState key keys. split; [| split; [| split]].
  - intros Hgs. destruct gameState; try reflexivity. contradiction.
  - unfold handleKeyDown. rewrite toLowerCase_idempotent. reflexivity.
  - unfold handleKeyUp. rewrite toLowerCase_idempotent. reflexivity.
  - unfold handleKeyDown.
    destruct gameState; try (unfold keysWithin; tauto).
    apply assignKey_true_within.
Qed.

(** ** Telemetry and the height profile of the HUD *)

Lemma Math_floor_mono (x y : R) : x <= y -> Math_floor x <= Math_floor y.
Proof.
  intros Hxy.
  pose proof (Math_floor_cell x) as [Hx0 _].
  pose proof (Math_floor_cell y) as [_ Hy1].
  unfold Math_floor in *. apply IZR_le.
  assert (Hlt : IZR (Int_part x) < IZR (Int_part y + 1))
    by (rewrite plus_IZR; lra).
  apply lt_IZR in Hlt. lia.
Qed.

Lemma Math_floor_le_int (x : R) (k : Z) : x < IZR k + 1 -> Math_floor x <= IZR k.
Proof.
  intros Hx. pose proof (Math_floor_cell x) as [Hx0 _].
  unfold Math_floor in *. apply IZR_le.
  assert (Hlt : IZR (Int_part x) < IZR (k + 1)) by (rewrite plus_IZR; lra).
  apply lt_IZR in Hlt. lia.
Qed.

Lemma Math_floor_ge_int (x : R) (k : Z) : IZR k <= x -> IZR k <= Math_floor x.
Proof.
  intros Hx. pose proof (Math_floor_cell x) as [_ Hx1].
  unfold Math_floor in *. apply IZR_le.
  assert (Hlt : IZR k < IZR (Int_part x + 1)) by (rewrite plus_IZR; lra).
  apply lt_IZR in Hlt. lia.
Qed.

Lemma statsDistance_mono (WL z1 z2 : R) :
  0 < WL -> z1 <= z2 -> statsDistance WL z1 <= statsDistance WL z2.
Proof.
  intros HWL Hz. unfold statsDistance, Math_round, Math_min, Math_max.
  apply Rle_min_compat_r. apply Rle_max_compat_r. apply Math_floor_mono.
  assert (Hinv : 0 < / WL) by (apply Rinv_0_lt_compat; lra).
  assert ((z1 + WL / 2) / WL <= (z2 + WL / 2) / WL)
    by (unfold Rdiv at 1 3; apply Rmult_le_compat_r; lra).
  lra.
Qed.

(** X22. The progress published to the HUD is a whole number of percent
    between 0 and 100 that never decreases as the player advances; it is
    0 at and before the start of the track and 100 at and past its end. *)
Theorem stats_distance_percent :
  forall (WL : R),
    0 < WL ->
    (forall z, 0 <= statsDistance WL z <= 100
               /\ exists k : Z, statsDistance WL z = IZR k)
    /\ (forall z1 z2, z1 <= z2 -> statsDistance WL z1 <= statsDistance WL z2)
    /\ (forall z, z <= - WL / 2 -> statsDistance WL z = 0)
    /\ (forall z, WL / 2 <= z -> statsDistance WL z = 100).
Proof.
  intros WL HWL.
  assert (Hinv : 0 < / WL) by (apply Rinv_0_lt_compat; lra).
  split; [| split; [| split]].
  - intros z. unfold statsDistance, Math_round, Math_min, Math_max. split.
    + split; [apply Rmin_glb; [apply Rmax_r | lra] | apply Rmin_r].
    + unfold Math_floor.
      set (k := Int_part ((z + WL / 2) / WL * 100 + 0.5)).
      destruct (Rle_dec (IZR k) 0) as [Hneg | Hpos].
      * exists 0%Z. rewrite Rmax_right by lra. apply Rmin_left. lra.
      * rewrite Rmax_left by lra.
        destruct (Rle_dec (IZR k) 100) as [Hsmall | Hbig].
        -- exists k. apply Rmin_left. lra.
        -- exists 100%Z. apply Rmin_right. lra.
  - intros z1 z2. apply statsDistance_mono. exact HWL.
  - intros z Hz. unfold statsDistance, Math_round, Math_min, Math_max.
    assert (Hp : (z + WL / 2) / WL <= 0).
    { unfold Rdiv at 1. assert ((z + WL / 2) * / WL <= 0 * / WL)
        by (apply Rmult_le_compat_r; lra). lra. }
    pose proof (Math_floor_le_int ((z + WL / 2) / WL * 100 + 0.5) 0
                  ltac:(lra)) as Hf.
    rewrite Rmax_right by lra. apply Rmin_left. lra.
  - intros z Hz. unfold statsDistance, Math_round, Math_min, Math_max.
    assert (Hp : 1 <= (z + WL / 2) / WL).
    { unfold Rdiv at 1. assert (WL * / WL <= (z + WL / 2) * / WL)
        by (apply Rmult_le_compat_r; lra).
      rewrite Rinv_r in H by lra. lra. }
    pose proof (Math_floor_ge_int ((z + WL / 2) / WL * 100 + 0.5) 100
                  ltac:(lra)) as Hf.
    rewrite Rmax_left by lra. apply Rmin_right. lra.
Qed.

Lemma stats_distance_percent_witness :
  statsDistance sampleWorldLength (- sampleWorldLength / 2) = 0
  /\ statsDistance sampleWorldLength (sampleWorldLength / 2) = 100.
Proof.
  assert (HWL : 0 < sampleWorldLength) by (unfold sampleWorldLength; lra).
  destruct (stats_distance_percent sampleWorldLength HWL)
    as (_ & _ & Hstart & Hend).
  split; [apply Hstart | apply Hend]; lra.
Defined.

Lemma nth_error_seq_in (len start i : nat) :
  (i < len)%nat -> nth_error (seq start len) i = Some (start + i)%nat.
Proof.
  revert start i. induction len as [| len IH]; intros start i Hi; [lia |].
  destruct i as [| i]; cbn [seq nth_error].
  - f_equal. lia.
  - rewrite IH by lia. f_equal. lia.
Qed.

Lemma clampedProgress_range (WL playerZ : R) :
  0 <= clampedProgress WL playerZ <= 1.
Proof.
  unfold clampedProgress, Math_min, Math_max.
  split; [apply Rmin_glb; [apply Rmax_r | lra] | apply Rmin_r].
Qed.

Lemma HeightProfile_index_range (WL playerZ : R) :
  (0 <= HeightProfile_index WL playerZ <= 100)%Z.
Proof.
  pose proof (clampedProgress_range WL playerZ) as [Hc0 Hc1].
  pose proof (Math_floor_ge_int (clampedProgress WL playerZ * 100) 0
                ltac:(lra)) as H0.
  pose proof (Math_floor_le_int (clampedProgress WL playerZ * 100) 100
                ltac:(lra)) as H1.
  unfold Math_floor in H0, H1. fold (HeightProfile_index WL playerZ) in H0, H1.
  apply le_IZR in H0. apply le_IZR in H1. lia.
Qed.

Lemma profilePoints_length (WL : R) (planet : PlanetConfig) :
  length (profilePoints WL planet) = 101%nat.
Proof.
  unfold profilePoints. rewrite length_map, length_seq. reflexivity.
Qed.

Lemma profilePoints_nonempty (WL : R) (planet : PlanetConfig) :
  profilePoints WL planet <> [].
Proof.
  intros Hnil. pose proof (profilePoints_length WL planet) as Hlen.
  rewrite Hnil in Hlen. discriminate Hlen.
Qed.

Lemma profilePoints_nth (WL : R) (planet : PlanetConfig) (i : nat) :
  (i <= 100)%nat ->
  nth_error (profilePoints WL planet) i
  = Some (getTerrainHeight WL 0 (- WL / 2 + WL * (INR i / 100)) planet).
Proof.
  intros Hi. unfold profilePoints.
  rewrite (map_nth_error _ _ _ (nth_error_seq_in 101 0 i ltac:(lia))).
  reflexivity.
Qed.

Lemma clampedProgress_mono (WL z1 z2 : R) :
  0 < WL -> z1 <= z2 -> clampedProgress WL z1 <= clampedProgress WL z2.
Proof.
  intros HWL Hz. unfold clampedProgress, Math_min, Math_max.
  apply Rle_min_compat_r. apply Rle_max_compat_r.
  assert (Hinv : 0 < / WL) by (apply Rinv_0_lt_compat; lra).
  unfold Rdiv at 1 3. apply Rmult_le_compat_r; lra.
Qed.

Lemma Int_part_of_int (x : R) (k : Z) :
  IZR k <= x < IZR k + 1 -> Int_part x = k.
Proof.
  intros [H0 H1]. apply eq_IZR. apply Rle_antisym.
  - apply (Math_floor_le_int x k). lra.
  - apply (Math_floor_ge_int x k). lra.
Qed.

(** X23. On a track of positive length the marker of the height profile
    always finds its sample: the 101 profile points are the centreline
    heights at the stations [i / 100] of the track, the index of the
    marker lies between 0 and 100, so the look-up succeeds and never
    falls back; the index is 0 at and before the start of the track, 100
    at and past its end, and never decreases as the player advances. *)
Theorem profile_marker_in_range :
  forall (WL : R) (planet : PlanetConfig) (playerZ : R),
    0 < WL ->
    let points := profilePoints WL planet in
    let index := HeightProfile_index WL playerZ in
    length points = 101%nat
    /\ (forall i : nat, (i <= 100)%nat ->
          nth_error points i
          = Some (getTerrainHeight WL 0 (- WL / 2 + WL * (INR i / 100)) planet))
    /\ (0 <= index <= 100)%Z
    /\ nth_error points (Z.to_nat index)
       = Some (HeightProfile_alt points index)
    /\ (playerZ <= - WL / 2 -> index = 0%Z)
    /\ (WL / 2 <= playerZ -> index = 100%Z)
    /\ (forall z', playerZ <= z' -> (index <= HeightProfile_index WL z')%Z).
Proof.
  intros WL planet playerZ HWL points index.
  pose proof (HeightProfile_index_range WL playerZ) as Hidx.
  fold index in Hidx.
  assert (Hinv : 0 < / WL) by (apply Rinv_0_lt_compat; lra).
  split; [apply profilePoints_length |].
  split; [intros i Hi; apply profilePoints_nth; exact Hi |].
  split; [exact Hidx |].
  split.
  { unfold HeightProfile_alt.
    destruct (Z.ltb_spec index 0) as [Hneg | _]; [lia |].
    unfold points. rewrite profilePoints_nth by lia. reflexivity. }
  split; [| split].
  - intros Hz. unfold index, HeightProfile_index.
    assert (Hc : clampedProgress WL playerZ = 0).
    { unfold clampedProgress, Math_min, Math_max.
      assert ((playerZ + WL / 2) / WL <= 0).
      { unfold Rdiv at 1.
        assert ((playerZ + WL / 2) * / WL <= 0 * / WL)
          by (apply Rmult_le_compat_r; lra). lra. }
      rewrite Rmax_right by lra. apply Rmin_left. lra. }
    rewrite Hc. apply Int_part_of_int. lra.
  - intros Hz. unfold index, HeightProfile_index.
    assert (Hc : clampedProgress WL playerZ = 1).
    { unfold clampedProgress, Math_min, Math_max.
      assert (1 <= (playerZ + WL / 2) / WL).
      { unfold Rdiv at 1.
        assert (WL * / WL <= (playerZ + WL / 2) * / WL)
          by (apply Rmult_le_compat_r; lra).
        rewrite Rinv_r in H by lra. lra. }
      rewrite Rmax_left by lra. apply Rmin_right. lra. }
    rewrite Hc. apply Int_part_of_int. lra.
  - intros z' Hz. unfold index, HeightProfile_index.
    pose proof (clampedProgress_mono WL playerZ z' HWL Hz) as Hc.
    pose proof (Math_floor_mono (clampedProgress WL playerZ * 100)
                  (clampedProgress WL z' * 100) ltac:(lra)) as Hm.
    unfold Math_floor in Hm. apply le_IZR in Hm. exact Hm.
Qed.

Lemma profile_marker_in_range_witness :
  let points := profilePoints sampleWorldLength iceRidge in
  let index := HeightProfile_index sampleWorldLength (-4200) in
  length points = 101%nat
  /\ (forall i : nat, (i <= 100)%nat ->
        nth_error points i
        = Some (getTerrainHeight sampleWorldLength 0
                  (- sampleWorldLength / 2 + sampleWorldLength * (INR i / 100))
                  iceRidge))
  /\ (0 <= index <= 100)%Z
  /\ nth_error points (Z.to_nat index)
     = Some (HeightProfile_alt points index)
  /\ (-4200 <= - sampleWorldLength / 2 -> index = 0%Z)
  /\ (sampleWorldLength / 2 <= -4200 -> index = 100%Z)
  /\ (forall z', -4200 <= z' ->
                 (index <= HeightProfile_index sampleWorldLength z')%Z).
Proof.
  apply (profile_marker_in_range sampleWorldLength iceRidge (-4200)).
  unfold sampleWorldLength. lra.
Defined.

Lemma spreadMax_spec (l : list R) :
  l <> [] ->
  exists hi, spreadMax l = Some hi /\ In hi l /\ forall x, In x l -> x <= hi.
Proof.
  induction l as [| x rest IH]; intros Hne; [contradiction |].
  cbn [spreadMax]. destruct rest as [| y rest'].
  - exists x. cbn. split; [reflexivity |]. split; [left; reflexivity |].
    intros z [<- | []]. lra.
  - destruct (IH ltac:(discriminate)) as (m & Hm & Hin & Hall).
    rewrite Hm. exists (Math_max x m). split; [reflexivity |].
    unfold Math_max. split.
    + unfold Rmax. destruct (Rle_dec x m); [right; exact Hin | left; reflexivity].
    + intros z [<- | Hz]; [apply Rmax_l |].
      eapply Rle_trans; [apply Hall; exact Hz | apply Rmax_r].
Qed.

Lemma spreadMin_spec (l : list R) :
  l <> [] ->
  exists lo, spreadMin l = Some lo /\ In lo l /\ forall x, In x l -> lo <= x.
Proof.
  induction l as [| x rest IH]; intros Hne; [contradiction |].
  cbn [spreadMin]. destruct rest as [| y rest'].
  - exists x. cbn. split; [reflexivity |]. split; [left; reflexivity |].
    intros z [<- | []]. lra.
  - destruct (IH ltac:(discriminate)) as (m & Hm & Hin & Hall).
    rewrite Hm. exists (Math_min x m). split; [reflexivity |].
    unfold Math_min. split.
    + unfold Rmin. destruct (Rle_dec x m); [left; reflexivity | right; exact Hin].
    + intros z [<- | Hz]; [apply Rmin_l |].
      eapply Rle_trans; [apply Rmin_r | apply Hall; exact Hz].
Qed.

(** X24. On a canvas at least two paddings wide and high the height
    profile of a track of positive length is drawn inside the padded
    canvas: the vertical range is at least 600, so the scaling never
    divides by zero, and each of the 101 points as well as the player
    marker lands, in both coordinates, between the padding and the
    canvas size minus the padding. *)
Theorem profile_drawn_inside_canvas :
  forall (WL : R) (planet : PlanetConfig) (w h playerZ : R),
    0 < WL ->
    2 * HeightProfile_pad <= w ->
    2 * HeightProfile_pad <= h ->
    let points := profilePoints WL planet in
    let alt := HeightProfile_alt points (HeightProfile_index WL playerZ) in
    exists minAlt range,
      HeightProfile_scale points = Some (minAlt, range)
      /\ 600 <= range
      /\ (forall (i : nat) (alt_i : R),
            nth_error points i = Some alt_i ->
            HeightProfile_pad <= HeightProfile_x w i <= w - HeightProfile_pad
            /\ HeightProfile_pad <= HeightProfile_y h minAlt range alt_i
               <= h - HeightProfile_pad)
      /\ HeightProfile_pad <= HeightProfile_playerX WL w playerZ
         <= w - HeightProfile_pad
      /\ HeightProfile_pad <= HeightProfile_y h minAlt range alt
         <= h - HeightProfile_pad.
Proof.
  intros WL planet w h playerZ HWL Hw Hh points alt.
  assert (Hne : points <> []) by apply profilePoints_nonempty.
  destruct (spreadMax_spec points Hne) as (hi & Hhi & Hhi_in & Hmax).
  destruct (spreadMin_spec points Hne) as (lo & Hlo & Hlo_in & Hmin).
  pose proof (Hmax lo Hlo_in) as Hlohi.
  exists (lo - 100), (hi + 500 - (lo - 100)).
  unfold HeightProfile_scale. rewrite Hhi, Hlo.
  assert (Hy : forall a, In a points ->
             HeightProfile_pad
             <= HeightProfile_y h (lo - 100) (hi + 500 - (lo - 100)) a
             <= h - HeightProfile_pad).
  { intros a Hin. pose proof (Hmax a Hin). pose proof (Hmin a Hin).
    unfold HeightProfile_y.
    set (range := hi + 500 - (lo - 100)).
    assert (Hrange : 0 < range) by (unfold range; lra).
    assert (Hfrac : 0 <= (a - (lo - 100)) / range <= 1).
    { split.
      - apply Rmult_le_pos; [lra |]. left. apply Rinv_0_lt_compat.
        exact Hrange.
      - apply (Rmult_le_reg_r range); [exact Hrange |].
        unfold Rdiv. rewrite Rmult_assoc, Rinv_l by lra. unfold range. lra. }
    assert (Hspan : 0 <= h - 2 * HeightProfile_pad) by lra.
    set (f := (a - (lo - 100)) / range) in *.
    assert (0 <= f * (h - 2 * HeightProfile_pad)
            <= 1 * (h - 2 * HeightProfile_pad)).
    { split; [apply Rmult_le_pos; lra | apply Rmult_le_compat_r; lra]. }
    lra. }
  split; [reflexivity |]. split; [lra |].
  split; [| split].
  - intros i alt_i Hi. split.
    + assert (Hlt : (i < 101)%nat).
      { rewrite <- (profilePoints_length WL planet).
        apply nth_error_Some. fold points. rewrite Hi. discriminate. }
      unfold HeightProfile_x.
      assert (Hf : 0 <= INR i / 100 <= 1).
      { pose proof (pos_INR i) as H0.
        assert (H1 : INR i <= 100).
        { replace 100 with (INR 100) by (simpl; lra). apply le_INR. lia. }
        lra. }
      set (f := INR i / 100) in *.
      assert (0 <= f * (w - 2 * HeightProfile_pad)
              <= 1 * (w - 2 * HeightProfile_pad)).
      { split; [apply Rmult_le_pos; lra | apply Rmult_le_compat_r; lra]. }
      lra.
    + apply Hy. eapply nth_error_In. exact Hi.
  - unfold HeightProfile_playerX.
    pose proof (clampedProgress_range WL playerZ) as [Hc0 Hc1].
    set (c := clampedProgress WL playerZ) in *.
    assert (0 <= c * (w - 2 * HeightProfile_pad)
            <= 1 * (w - 2 * HeightProfile_pad)).
    { split; [apply Rmult_le_pos; lra | apply Rmult_le_compat_r; lra]. }
    lra.
  - apply Hy.
    pose proof (HeightProfile_index_range WL playerZ) as Hidx.
    assert (Hnth : nth_error points (Z.to_nat (HeightProfile_index WL playerZ))
                   = Some alt).
    { unfold alt, HeightProfile_alt.
      destruct (Z.ltb_spec (HeightProfile_index WL playerZ) 0) as [Hneg | _];
        [lia |].
      unfold points. rewrite profilePoints_nth by lia. reflexivity. }
    eapply nth_error_In. exact Hnth.
Qed.

Lemma profile_drawn_inside_canvas_witness :
  let points := profilePoints sampleWorldLength iceRidge in
  let alt := HeightProfile_alt points (HeightProfile_index sampleWorldLength 0) in
  exists minAlt range,
    HeightProfile_scale points = Some (minAlt, range)
    /\ 600 <= range
    /\ (forall (i : nat) (alt_i : R),
          nth_error points i = Some alt_i ->
          HeightProfile_pad <= HeightProfile_x 240 i <= 240 - HeightProfile_pad
          /\ HeightProfile_pad <= HeightProfile_y 60 minAlt range alt_i
             <= 60 - HeightProfile_pad)
    /\ HeightProfile_pad <= HeightProfile_playerX sampleWorldLength 240 0
       <= 240 - HeightProfile_pad
    /\ HeightProfile_pad <= HeightProfile_y 60 minAlt range alt
       <= 60 - HeightProfile_pad.
Proof.
  apply (profile_drawn_inside_canvas sampleWorldLength iceRidge 240 60 0).
  - unfold sampleWorldLength. lra.
  - unfold HeightProfile_pad. lra.
  - unfold HeightProfile_pad. lra.
Defined.

(** ** The audio engine *)

Lemma normalized_speed_range (speed : R) :
  0 <= Math_min (Math_abs speed / 180) 1 <= 1.
Proof.
  unfold Math_min, Math_abs. pose proof (Rabs_pos speed).
  split; [apply Rmin_glb; lra | apply Rmin_r].
Qed.

(** X25. Whatever the physics reports, the engine sound stays in its
    band: the carrier between 70 and 260 Hz (at most 180 Hz without the
    throttle), the sub oscillator and the modulator one octave below it,
    the thruster gain between 0.15 and 0.7 with the sub bass at 0.6 of
    it, the shimmer gain between 0 and 0.25, and the sign of the speed
    plays no role. *)
Theorem engine_targets_bounded :
  forall (speed : R) (isAccelerating isBraking : bool) (turnInput : R),
    let sound := playerStateTargets speed isAccelerating isBraking turnInput in
    70 <= fmCarrier_frequency sound <= 260
    /\ (isAccelerating = false -> fmCarrier_frequency sound <= 180)
    /\ subOsc_frequency sound * 2 = fmCarrier_frequency sound
    /\ fmModulator_frequency sound = subOsc_frequency sound
    /\ 50 <= fmModGain_gain sound <= 300
    /\ 0.15 <= thrusterGain_gain sound <= 0.7
    /\ subGain_gain sound = thrusterGain_gain sound * 0.6
    /\ 0 <= shimmerGain_gain sound <= 0.25
    /\ 400 <= shimmerOsc_frequency sound <= 1200
    /\ (brakeGain_gain sound = 0 \/ brakeGain_gain sound = 0.4)
    /\ playerStateTargets (- speed) isAccelerating isBraking turnInput = sound.
Proof.
  intros speed isAccelerating isBraking turnInput sound. subst sound.
  pose proof (normalized_speed_range speed) as Hn.
  unfold playerStateTargets.
  cbn [fmCarrier_frequency subOsc_frequency fmModGain_gain
       fmModulator_frequency thrusterGain_gain subGain_gain shimmerGain_gain
       shimmerOsc_frequency brakeGain_gain].
  replace (Math_abs (- speed)) with (Math_abs speed)
    by (unfold Math_abs; symmetry; apply Rabs_Ropp).
  set (n := Math_min (Math_abs speed / 180) 1) in *.
  split; [destruct isAccelerating; lra |].
  split; [intros ->; lra |].
  split; [lra |].
  split; [reflexivity |].
  split; [destruct isAccelerating; lra |].
  split; [destruct isAccelerating; lra |].
  split; [reflexivity |].
  split.
  { destruct isAccelerating; [lra |].
    destruct (Rlt_b 0.6 n) eqn:Hs; [apply Rlt_b_true in Hs |]; lra. }
  split; [lra |].
  split; [| reflexivity].
  destruct (isBraking && Rlt_b 10 (Math_abs speed)); [right | left]; lra.
Qed.

Lemma turn_targets_range (speed : R) (isAccelerating isBraking : bool)
  (turnInput : R) :
  -1 <= turnInput <= 1 ->
  let sound := playerStateTargets speed isAccelerating isBraking turnInput in
  -0.6 <= turnPanner_pan sound <= 0.6
  /\ 0 <= turnGain_gain sound <= 0.4
  /\ 300 <= turnFilter_frequency sound <= 800.
Proof.
  intros Ht sound. subst sound. unfold playerStateTargets.
  cbn [turnPanner_pan turnGain_gain turnFilter_frequency].
  assert (Habs : 0 <= Math_abs turnInput <= 1).
  { unfold Math_abs. split; [apply Rabs_pos | apply Rabs_le; lra]. }
  split; [lra |]. split; [| lra].
  destruct (Rlt_b 0.2 (Math_abs turnInput) && Rlt_b 30 (Math_abs speed)); lra.
Qed.

Lemma useFrame_turn_event (WL : R) (planet : PlanetConfig)
  (gameState : GameState) (keys : Keys) (delta : R) (st : PlayerRefs)
  (spd : R) (acc brk : bool) (turn : R) :
  0 <= delta ->
  -1 <= inputVector_x st <= 1 ->
  In (updatePlayerState spd acc brk turn)
     (res_audio (useFrame WL planet gameState keys delta st)) ->
  -1 <= turn <= 1.
Proof.
  intros Hd Hst.
  destruct (reachesPhysics_dec WL gameState st) as [Hphys | Hidle].
  - rewrite useFrame_physics by assumption. cbn [res_audio].
    unfold physicsLoop. cbn [snd]. rewrite !in_app_iff.
    intros [Hland | [Hjump | Hupd]].
    + unfold landingSound in Hland.
      destruct (isGrounded WL planet st && negb (wasGrounded st)
                && Rlt_b (vec_y (velocity st)) (-5));
        [destruct Hland as [H | []]; discriminate | contradiction].
    + destruct (jumpFires WL planet keys st);
        [destruct Hjump as [H | []]; discriminate | contradiction].
    + destruct Hupd as [H | []]. injection H as _ _ _ <-.
      apply inputX_range; [apply dt_range; exact Hd | exact Hst].
  - unfold useFrame. destruct gameState; cbn [res_audio];
      try contradiction.
    destruct (Rgt_dec (vec_z (position st)) (WL / 2 - 300)) as [Hz | Hz].
    + cbn [res_audio]. intros [H | []]. injection H as _ _ _ <-. lra.
    + exfalso. apply Hidle. split; [reflexivity | exact Hz].
Qed.

Lemma runFrames_turn_events (WL : R) (planet : PlanetConfig)
  (frames : list Frame) :
  Forall (fun f => 0 <= frame_delta f) frames ->
  forall gameState st,
    -1 <= inputVector_x st <= 1 ->
    Forall (fun r => forall spd acc brk turn,
              In (updatePlayerState spd acc brk turn) (res_audio r) ->
              -1 <= turn <= 1)
           (runFrames WL planet gameState st frames).
Proof.
  intros Hframes. induction Hframes as [| f rest Hf Hrest IH];
    intros gameState st Hst; cbn [runFrames]; constructor.
  - intros spd acc brk turn. apply useFrame_turn_event; assumption.
  - apply IH.
    assert (Hone : Forall (fun f => 0 <= frame_delta f) [f])
      by (constructor; [exact Hf | constructor]).
    pose proof (runFrames_input_range WL planet [f] Hone gameState st Hst)
      as H1.
    cbn [runFrames] in H1. apply Forall_inv in H1. exact H1.
Qed.

(** X26. The turn input the Player hands to the audio engine is the
    smoothed steering input, so in every frame of every run from the
    spawn state the stereo pan of the swoosh stays within [[-0.6, 0.6]],
    its gain within [[0, 0.4]] and its filter between 300 and 800 Hz. *)
Theorem turn_swoosh_pan_in_range :
  forall (WL : R) (planet : PlanetConfig) (gameState : GameState)
         (frames : list Frame),
    Forall (fun f => 0 <= frame_delta f) frames ->
    Forall (fun r => forall spd acc brk turn,
              In (updatePlayerState spd acc brk turn) (res_audio r) ->
              -1 <= turn <= 1
              /\ -0.6 <= turnPanner_pan (playerStateTargets spd acc brk turn)
                 <= 0.6
              /\ 0 <= turnGain_gain (playerStateTargets spd acc brk turn)
                 <= 0.4
              /\ 300 <= turnFilter_frequency
                          (playerStateTargets spd acc brk turn) <= 800)
           (runFrames WL planet gameState (spawn WL planet) frames).
Proof.
  intros WL planet gameState frames Hframes.
  assert (Hspawn : -1 <= inputVector_x (spawn WL planet) <= 1)
    by (unfold spawn; cbn [inputVector_x]; lra).
  pose proof (runFrames_turn_events WL planet frames Hframes gameState
                (spawn WL planet) Hspawn) as Hturn.
  eapply Forall_impl; [| exact Hturn].
  intros r Hr spd acc brk turn Hin.
  pose proof (Hr spd acc brk turn Hin) as Ht.
  split; [exact Ht |]. exact (turn_targets_range spd acc brk turn Ht).
Qed.

Lemma turn_swoosh_pan_in_range_witness :
  Forall (fun r => forall spd acc brk turn,
            In (updatePlayerState spd acc brk turn) (res_audio r) ->
            -1 <= turn <= 1
            /\ -0.6 <= turnPanner_pan (playerStateTargets spd acc brk turn)
               <= 0.6
            /\ 0 <= turnGain_gain (playerStateTargets spd acc brk turn)
               <= 0.4
            /\ 300 <= turnFilter_frequency
                        (playerStateTargets spd acc brk turn) <= 800)
    (runFrames sampleWorldLength iceRidge PLAYING
       (spawn sampleWorldLength iceRidge)
       [mkFrame (mkKeys true true false false false) 0.016;
        mkFrame (mkKeys true false false true false) 0.2]).
Proof.
  apply (turn_swoosh_pan_in_range sampleWorldLength iceRidge PLAYING).
  repeat constructor; cbn [frame_delta]; lra.
Defined.

Lemma useFrame_audio_land (WL : R) (planet : PlanetConfig)
  (gameState : GameState) (keys : Keys) (delta : R) (st : PlayerRefs)
  (impact : R) :
  In (triggerLand impact)
     (res_audio (useFrame WL planet gameState keys delta st)) ->
  5 < impact.
Proof.
  destruct (reachesPhysics_dec WL gameState st) as [Hphys | Hidle].
  - rewrite useFrame_physics by assumption. cbn [res_audio].
    rewrite physicsLoop_audio_land. intros (_ & _ & Hv & ->).
    rewrite Rabs_left by lra. lra.
  - unfold useFrame. destruct gameState; cbn [res_audio];
      try contradiction.
    destruct (Rgt_dec (vec_z (position st)) (WL / 2 - 300)) as [Hz | Hz].
    + cbn [res_audio]. intros [H | []]. discriminate.
    + exfalso. apply Hidle. split; [reflexivity | exact Hz].
Qed.

(** X27. Every landing thud the Player triggers is audible and never
    louder than the cap: the impact it reports is above 5, so the thud
    starts at a gain above 0.075 and at most 0.6, reached exactly from an
    impact of 40 on; the start value of the exponential ramp is therefore
    never zero. *)
Theorem landing_thud_audible :
  forall (WL : R) (planet : PlanetConfig) (gameState : GameState)
         (keys : Keys) (delta : R) (st : PlayerRefs) (impact : R),
    In (triggerLand impact)
       (res_audio (useFrame WL planet gameState keys delta st)) ->
    0.075 < triggerLandGain impact <= 0.6
    /\ (40 <= impact -> triggerLandGain impact = 0.6)
    /\ (impact <= 40 -> triggerLandGain impact = 0.015 * impact).
Proof.
  intros WL planet gameState keys delta st impact Hin.
  apply useFrame_audio_land in Hin.
  unfold triggerLandGain, Math_min.
  split; [| split].
  - unfold Rmin. destruct (Rle_dec (impact / 40) 1.0); lra.
  - intros Hbig. rewrite Rmin_right by lra. lra.
  - intros Hsmall. rewrite Rmin_left by lra. lra.
Qed.

Lemma landing_thud_audible_witness :
  0.075 < triggerLandGain 10 <= 0.6
  /\ (40 <= 10 -> triggerLandGain 10 = 0.6)
  /\ (10 <= 40 -> triggerLandGain 10 = 0.015 * 10).
Proof.
  assert (Hphys : reachesPhysics sampleWorldLength PLAYING
                    (descending sampleWorldLength iceRidge)).
  { split; [reflexivity |].
    unfold descending, startZ, sampleWorldLength. cbn [position vec_z]. lra. }
  apply (landing_thud_audible sampleWorldLength iceRidge PLAYING noKeys 0.016
           (descending sampleWorldLength iceRidge) 10).
  rewrite useFrame_physics by exact Hphys. cbn [res_audio].
  apply physicsLoop_audio_land.
  unfold descending at 2 3 4. cbn [wasGrounded velocity vec_y].
  repeat split; try lra.
  - unfold isGrounded, currentHeight, terrainHeight, descending.
    cbn [position vec_x vec_y vec_z]. apply Rlt_b_true.
    unfold HOVER_TARGET. lra.
  - rewrite Rabs_left; lra.
Defined.

(** ** The weather system *)

Lemma weatherAlpha_progress (WL : R) (weather : WeatherType) (currentZ : R) :
  weather <> none ->
  weatherAlpha WL weather currentZ
  = let progress := (currentZ - - WL / 2) / WL in
    if Rlt_b 0.25 progress && Rlt_b progress 0.75 then
      if Rlt_b progress 0.3 then (progress - 0.25) / 0.05
      else if Rlt_b 0.7 progress then 1 - (progress - 0.7) / 0.05
           else 1.0
    else 0.
Proof.
  intros Hw. destruct weather; [contradiction | | | |]; reflexivity.
Qed.

Lemma alpha_ramp_lipschitz (p q : R) :
  let alpha := fun progress : R =>
    if Rlt_b 0.25 progress && Rlt_b progress 0.75 then
      if Rlt_b progress 0.3 then (progress - 0.25) / 0.05
      else if Rlt_b 0.7 progress then 1 - (progress - 0.7) / 0.05
           else 1.0
    else 0 in
  0 <= alpha p <= 1 /\ Rabs (alpha p - alpha q) <= 20 * Rabs (p - q).
Proof.
  cbv zeta. unfold Rlt_b.
  destruct (Rlt_dec 0.25 p), (Rlt_dec p 0.75), (Rlt_dec p 0.3),
    (Rlt_dec 0.7 p), (Rlt_dec 0.25 q), (Rlt_dec q 0.75), (Rlt_dec q 0.3),
    (Rlt_dec 0.7 q); cbn [andb]; try lra;
    (split; [lra |]);
    unfold Rabs;
    destruct (Rcase_abs _); destruct (Rcase_abs _); lra.
Qed.

(** X28. The weather fades in and out without a jump: its intensity lies
    in [[0, 1]], moves by at most 20 per unit of track progress between
    any two camera positions, is full over the middle of the track
    (progress 0.3 to 0.7) and nil before 0.25 and after 0.75; the storm
    loop is never driven above a gain of 0.5, nor the particles above an
    opacity of 0.6. *)
Theorem weather_fades_without_jump :
  forall (WL : R) (weather : WeatherType) (z1 z2 : R),
    0 < WL ->
    let progress := fun z : R => (z + WL / 2) / WL in
    0 <= weatherAlpha WL weather z1 <= 1
    /\ Rabs (weatherAlpha WL weather z1 - weatherAlpha WL weather z2)
       <= 20 * Rabs (progress z1 - progress z2)
    /\ (weather <> none -> 0.3 <= progress z1 <= 0.7 ->
        weatherAlpha WL weather z1 = 1)
    /\ (progress z1 <= 0.25 \/ 0.75 <= progress z1 ->
        weatherAlpha WL weather z1 = 0)
    /\ 0 <= stormGainTarget weather (weatherAlpha WL weather z1) <= 0.5
    /\ 0 <= weatherOpacity weather (weatherAlpha WL weather z1) <= 0.6.
Proof.
  intros WL weather z1 z2 HWL progress.
  assert (Hp : forall z, (z - - WL / 2) / WL = progress z).
  { intros z. unfold progress. f_equal. lra. }
  assert (Hrange : forall z, 0 <= weatherAlpha WL weather z <= 1).
  { intros z. destruct weather;
      try (rewrite weatherAlpha_progress by discriminate;
           exact (proj1 (alpha_ramp_lipschitz _ 0))).
    cbn. lra. }
  split; [apply Hrange |]. split; [| split; [| split; [| split]]].
  - destruct weather;
      try (rewrite !weatherAlpha_progress by discriminate; cbv zeta;
           rewrite !Hp; exact (proj2 (alpha_ramp_lipschitz _ _))).
    cbn [weatherAlpha]. rewrite Rminus_diag, Rabs_R0.
    pose proof (Rabs_pos (progress z1 - progress z2)). lra.
  - intros Hw [H0 H1]. rewrite weatherAlpha_progress by exact Hw.
    cbv zeta. rewrite !Hp. unfold Rlt_b.
    destruct (Rlt_dec 0.25 (progress z1)), (Rlt_dec (progress z1) 0.75),
      (Rlt_dec (progress z1) 0.3), (Rlt_dec 0.7 (progress z1));
      cbn [andb]; lra.
  - intros Hout. destruct weather; [reflexivity | | | |];
      rewrite weatherAlpha_progress by discriminate;
      cbv zeta; rewrite !Hp; unfold Rlt_b;
      destruct (Rlt_dec 0.25 (progress z1)), (Rlt_dec (progress z1) 0.75);
      cbn [andb]; try reflexivity; lra.
  - pose proof (Hrange z1). unfold stormGainTarget.
    destruct weather; lra.
  - pose proof (Hrange z1). unfold weatherOpacity.
    destruct weather; lra.
Qed.

Lemma weather_fades_without_jump_witness :
  let progress := fun z : R => (z + sampleWorldLength / 2) / sampleWorldLength in
  0 <= weatherAlpha sampleWorldLength snow 0 <= 1
  /\ Rabs (weatherAlpha sampleWorldLength snow 0
           - weatherAlpha sampleWorldLength snow 100)
     <= 20 * Rabs (progress 0 - progress 100)
  /\ (snow <> none -> 0.3 <= progress 0 <= 0.7 ->
      weatherAlpha sampleWorldLength snow 0 = 1)
  /\ (progress 0 <= 0.25 \/ 0.75 <= progress 0 ->
      weatherAlpha sampleWorldLength snow 0 = 0)
  /\ 0 <= stormGainTarget snow (weatherAlpha sampleWorldLength snow 0) <= 0.5
  /\ 0 <= weatherOpacity snow (weatherAlpha sampleWorldLength snow 0) <= 0.6.
Proof.
  apply (weather_fades_without_jump sampleWorldLength snow 0 100).
  unfold sampleWorldLength. lra.
Defined.

(** ** The scatter of the Terrain component *)

Lemma stepX_value : stepX = 46.875.
Proof. unfold stepX, width, segmentsW. lra. Qed.

Lemma Math_round_int (x : R) (k : Z) :
  IZR k - 0.5 <= x < IZR k + 0.5 -> Math_round x = IZR k.
Proof.
  intros [H0 H1]. unfold Math_round. apply Rle_antisym.
  - apply Math_floor_le_int. lra.
  - apply Math_floor_ge_int. lra.
Qed.

Lemma snap_column (x : R) :
  160 <= x <= 1000 ->
  exists k : Z, (3 <= k <= 21)%Z /\ Math_round (x / stepX) = IZR k.
Proof.
  intros [H0 H1]. rewrite stepX_value.
  exists (Int_part (x / 46.875 + 0.5)). split; [| reflexivity].
  pose proof (Math_floor_ge_int (x / 46.875 + 0.5) 3 ltac:(lra)) as Hlo.
  pose proof (Math_floor_le_int (x / 46.875 + 0.5) 21 ltac:(lra)) as Hhi.
  unfold Math_floor in Hlo, Hhi. apply le_IZR in Hlo. apply le_IZR in Hhi.
  lia.
Qed.

Lemma snap_column_neg (x : R) :
  -1000 <= x <= -160 ->
  exists k : Z, (-21 <= k <= -3)%Z /\ Math_round (x / stepX) = IZR k.
Proof.
  intros [H0 H1]. rewrite stepX_value.
  exists (Int_part (x / 46.875 + 0.5)). split; [| reflexivity].
  pose proof (Math_floor_ge_int (x / 46.875 + 0.5) (-21) ltac:(lra)) as Hlo.
  pose proof (Math_floor_le_int (x / 46.875 + 0.5) (-3) ltac:(lra)) as Hhi.
  unfold Math_floor in Hlo, Hhi. apply le_IZR in Hlo. apply le_IZR in Hhi.
  lia.
Qed.

(** X29. Snapped to the mesh grid, the rocks stand on few columns.  A
    cliff rock lands on a vertex column [k * stepX] with [3 <= |k| <= 21],
    so at least 140.625 from the centreline, the distance a rock pushed
    out to exactly 160 ends at; a route rock lands on one of the four
    columns at 46.875 and 93.75 on either side. *)
Theorem scatter_rocks_on_grid_columns :
  forall (random1 random2 : R),
    0 <= random1 < 1 ->
    0 <= random2 < 1 ->
    (exists k : Z,
        (3 <= Z.abs k <= 21)%Z
        /\ cliffRockX random1 random2 = IZR k * stepX
        /\ 140.625 <= Rabs (cliffRockX random1 random2) <= 984.375)
    /\ cliffRockX 0.5 0 = 140.625
    /\ (routeRockX random1 random2 = 46.875
        \/ routeRockX random1 random2 = 93.75
        \/ routeRockX random1 random2 = -46.875
        \/ routeRockX random1 random2 = -93.75).
Proof.
  intros random1 random2 [Ha0 Ha1] [Hb0 Hb1].
  assert (Hcol : forall x, 160 <= x <= 1000 \/ -1000 <= x <= -160 ->
            exists k : Z, (3 <= Z.abs k <= 21)%Z
              /\ Math_round (x / stepX) * stepX = IZR k * stepX
              /\ 140.625 <= Rabs (Math_round (x / stepX) * stepX) <= 984.375).
  { intros x [Hx | Hx].
    - destruct (snap_column x Hx) as (k & Hk & ->). exists k.
      split; [lia |]. split; [reflexivity |].
      assert (3 <= IZR k <= 21) by (split; apply IZR_le; lia).
      rewrite stepX_value, Rabs_pos_eq by nra. nra.
    - destruct (snap_column_neg x Hx) as (k & Hk & ->). exists k.
      split; [lia |]. split; [reflexivity |].
      assert (-21 <= IZR k <= -3) by (split; apply IZR_le; lia).
      rewrite stepX_value, Rabs_left by nra. nra. }
  split; [| split].
  - unfold cliffRockX. apply Hcol.
    set (x := (random1 - 0.5) * 2000).
    assert (Hx : -1000 <= x < 1000) by (unfold x; lra).
    destruct (Rlt_b (Math_abs x) 160) eqn:Hnear.
    + unfold Math_sign.
      destruct (Req_dec_T x 0) as [Hx0 | Hx0].
      * destruct (Rlt_dec 0 1); [left | ]; lra.
      * destruct (Rlt_dec 0 x); [left; lra |].
        destruct (Rlt_dec x 0); [right; lra | lra].
    + apply Rlt_b_false in Hnear. unfold Math_abs, Rabs in Hnear.
      destruct (Rcase_abs x); [right | left]; lra.
  - unfold cliffRockX.
    replace ((0.5 - 0.5) * 2000) with 0 by lra.
    assert (Hnear : Rlt_b (Math_abs 0) 160 = true)
      by (apply Rlt_b_true; unfold Math_abs; rewrite Rabs_R0; lra).
    rewrite Hnear.
    destruct (Req_dec_T 0 0) as [_ | Hne]; [| contradiction Hne; reflexivity].
    unfold Math_sign. destruct (Rlt_dec 0 1); [| lra].
    rewrite stepX_value, (Math_round_int _ 3) by lra. lra.
  - unfold routeRockX.
    destruct (Rlt_b 0.5 random1).
    + destruct (Rlt_dec (1 * (40 + random2 * 50)) 70.3125) as [Hlow | Hhigh].
      * left. rewrite stepX_value, (Math_round_int _ 1) by lra. lra.
      * right; left. rewrite stepX_value, (Math_round_int _ 2) by lra. lra.
    + destruct (Rlt_dec 70.3125 (40 + random2 * 50)) as [Hfar | Hclose].
      * right; right; right.
        rewrite stepX_value, (Math_round_int _ (-2)) by lra. lra.
      * right; right; left.
        rewrite stepX_value, (Math_round_int _ (-1)) by lra. lra.
Qed.

Lemma scatter_rocks_on_grid_columns_witness :
  (exists k : Z,
      (3 <= Z.abs k <= 21)%Z
      /\ cliffRockX 0.25 0.75 = IZR k * stepX
      /\ 140.625 <= Rabs (cliffRockX 0.25 0.75) <= 984.375)
  /\ cliffRockX 0.5 0 = 140.625
  /\ (routeRockX 0.25 0.75 = 46.875
      \/ routeRockX 0.25 0.75 = 93.75
      \/ routeRockX 0.25 0.75 = -46.875
      \/ routeRockX 0.25 0.75 = -93.75).
Proof.
  apply (scatter_rocks_on_grid_columns 0.25 0.75); lra.
Defined.
